(** * FIFO allocation of wage repayments to wage arrears

    A shallow embedding of [shares()] of [compute_shares.py].

    The panel is a pandas DataFrame indexed by [(id, wave, modate)].  It is
    modelled as the list of its rows in file order; [df.loc[...]] selections
    are filters, which keep that order, and an assignment
    [df.loc[sel, col] = values] writes the values positionally into the
    selected rows.  The identity key is unique in the data, so a lookup by
    the full key is the first (and only) matching row; a key that is absent
    raises [KeyError], as pandas does.

    Numeric cells are [numpy.float64] values.  They are modelled by exact
    rationals extended with [NaN] and the two infinities, with the IEEE rules
    for the special values (a comparison with [NaN] is false, [x / 0] is an
    infinity for [x <> 0] and [NaN] for [x = 0], and so on).  Rounding and
    the sign of zero are not modelled. *)

From Stdlib Require Import ZArith QArith Qabs List Bool Lia Lqa.
From Stdlib Require Import Setoid Morphisms.
Import ListNotations.

Local Open Scope Z_scope.

(** ** Floating-point cells *)

Inductive float : Type :=
| NaN
| PInf
| NInf
| Fin (q : Q).

Definition nan : float := NaN.

Definition isnan (x : float) : bool :=
  match x with NaN => true | _ => false end.

(** [Series.fillna(0)] on one cell. *)
Definition fillna0 (x : float) : float :=
  match x with NaN => Fin 0 | _ => x end.

Definition fopp (x : float) : float :=
  match x with
  | NaN => NaN
  | PInf => NInf
  | NInf => PInf
  | Fin q => Fin (- q)
  end.

Definition fadd (x y : float) : float :=
  match x, y with
  | NaN, _ | _, NaN => NaN
  | PInf, NInf | NInf, PInf => NaN
  | PInf, _ | _, PInf => PInf
  | NInf, _ | _, NInf => NInf
  | Fin a, Fin b => Fin (a + b)
  end.

Definition fsub (x y : float) : float := fadd x (fopp y).

Definition Qltb (a b : Q) : bool := negb (Qle_bool b a).

Definition Qeqb (a b : Q) : bool := Qeq_bool a b.

(** The infinity that has the sign of [a] when [pos], the opposite sign
    otherwise ([a] is not zero). *)
Definition inf_with_sign (pos : bool) (a : Q) : float :=
  if Bool.eqb pos (Qltb 0 a) then PInf else NInf.

Definition fdiv (x y : float) : float :=
  match x, y with
  | NaN, _ | _, NaN => NaN
  | (PInf | NInf), (PInf | NInf) => NaN
  | PInf, Fin b => if Qltb b 0 then NInf else PInf
  | NInf, Fin b => if Qltb b 0 then PInf else NInf
  | Fin _, (PInf | NInf) => Fin 0
  | Fin a, Fin b =>
      if Qeqb b 0
      then (if Qeqb a 0 then NaN else inf_with_sign true a)
      else Fin (a / b)
  end.

(** [x > y]; false as soon as one side is [NaN]. *)
Definition fgtb (x y : float) : bool :=
  match x, y with
  | NaN, _ | _, NaN => false
  | PInf, PInf => false
  | PInf, _ => true
  | _, PInf => false
  | NInf, _ => false
  | Fin _, NInf => true
  | Fin a, Fin b => Qltb b a
  end.

(** Equality of cells as values: rationals up to [Qeq], [NaN] equal to
    itself (the relation compares results, it is not the [==] of Python). *)
Definition feq (x y : float) : Prop :=
  match x, y with
  | NaN, NaN | PInf, PInf | NInf, NInf => True
  | Fin a, Fin b => a == b
  | _, _ => False
  end.

(** ** Exceptions *)

Inductive exn : Type := KeyError | ValueError.

Inductive result (A : Type) : Type :=
| Ok (a : A)
| Raise (e : exn).

Arguments Ok {A} a.
Arguments Raise {A} e.

Definition bind {A B : Type} (m : result A) (k : A -> result B) : result B :=
  match m with
  | Ok a => k a
  | Raise e => Raise e
  end.

Notation "x <- m ;; k" := (bind m (fun x => k))
  (at level 61, m at next level, right associativity).

(** ** The data frame *)

(** One row of [to_compute_shares.dta]. *)
Record record : Type := mkRecord {
  in_id : Z;
  in_wave : Z;
  in_modate : Z;
  in_wage : float;
  in_amount_owed : float;
  in_amount_repaid : float
}.

(** One row of [df] with the index levels, the input columns and the
    columns [shares()] adds. *)
Record row : Type := mkRow {
  id : Z;
  wave : Z;
  modate : Z;
  wage : float;
  amount_owed : float;
  amount_repaid : float;
  a2w : float;
  cumsum_a2w : float;
  r2w : float;
  r2cw : float;
  cumsum_r2w : float;
  shares_col : float;
  cumsum_shares : float;
  psy_costs : float;
  supp_wage : float;
  costs : float
}.

Definition DataFrame : Type := list row.

Definition set_cumsum_a2w (v : float) (r : row) : row :=
  mkRow (id r) (wave r) (modate r) (wage r) (amount_owed r) (amount_repaid r)
        (a2w r) v (r2w r) (r2cw r) (cumsum_r2w r) (shares_col r)
        (cumsum_shares r) (psy_costs r) (supp_wage r) (costs r).

Definition set_r2w (v : float) (r : row) : row :=
  mkRow (id r) (wave r) (modate r) (wage r) (amount_owed r) (amount_repaid r)
        (a2w r) (cumsum_a2w r) v (r2cw r) (cumsum_r2w r) (shares_col r)
        (cumsum_shares r) (psy_costs r) (supp_wage r) (costs r).

Definition set_cumsum_r2w (v : float) (r : row) : row :=
  mkRow (id r) (wave r) (modate r) (wage r) (amount_owed r) (amount_repaid r)
        (a2w r) (cumsum_a2w r) (r2w r) (r2cw r) v (shares_col r)
        (cumsum_shares r) (psy_costs r) (supp_wage r) (costs r).

Definition set_shares (v : float) (r : row) : row :=
  mkRow (id r) (wave r) (modate r) (wage r) (amount_owed r) (amount_repaid r)
        (a2w r) (cumsum_a2w r) (r2w r) (r2cw r) (cumsum_r2w r) v
        (cumsum_shares r) (psy_costs r) (supp_wage r) (costs r).

Definition set_cumsum_shares (v : float) (r : row) : row :=
  mkRow (id r) (wave r) (modate r) (wage r) (amount_owed r) (amount_repaid r)
        (a2w r) (cumsum_a2w r) (r2w r) (r2cw r) (cumsum_r2w r) (shares_col r)
        v (psy_costs r) (supp_wage r) (costs r).

Definition set_psy_costs (v : float) (r : row) : row :=
  mkRow (id r) (wave r) (modate r) (wage r) (amount_owed r) (amount_repaid r)
        (a2w r) (cumsum_a2w r) (r2w r) (r2cw r) (cumsum_r2w r) (shares_col r)
        (cumsum_shares r) v (supp_wage r) (costs r).

Definition set_costs (v : float) (r : row) : row :=
  mkRow (id r) (wave r) (modate r) (wage r) (amount_owed r) (amount_repaid r)
        (a2w r) (cumsum_a2w r) (r2w r) (r2cw r) (cumsum_r2w r) (shares_col r)
        (cumsum_shares r) (psy_costs r) (supp_wage r) v.

(** Lines 43-61: the index is set, the derived columns start as [np.nan],
    then [supp_wage], [a2w] and [r2cw] are computed row by row.  The column
    [costs] does not exist yet; created by a partial assignment later, it
    holds [NaN] wherever nothing was written. *)
Definition init_row (x : record) : row :=
  let sw := fadd (fillna0 (in_amount_owed x)) (in_wage x) in
  mkRow (in_id x) (in_wave x) (in_modate x)
        (in_wage x) (in_amount_owed x) (in_amount_repaid x)
        (fdiv (in_amount_owed x) sw) nan nan (fdiv (in_amount_repaid x) sw)
        nan nan nan nan sw nan.

Definition init (input : list record) : DataFrame := map init_row input.

(** *** Selections *)

Definition sel1 (i : Z) (r : row) : bool := id r =? i.

Definition sel2 (i w : Z) (r : row) : bool := (id r =? i) && (wave r =? w).

Definition sel3 (i w d : Z) (r : row) : bool :=
  (id r =? i) && (wave r =? w) && (modate r =? d).

(** [df.loc[id]], [df.loc[(id, wave)]]. *)
Definition loc1 (df : DataFrame) (i : Z) : DataFrame := filter (sel1 i) df.

Definition loc2 (df : DataFrame) (i w : Z) : DataFrame := filter (sel2 i w) df.

(** [df.loc[(id, wave, modate)]]: a missing key raises. *)
Definition loc3 (df : DataFrame) (i w d : Z) : result row :=
  match find (sel3 i w d) df with
  | Some r => Ok r
  | None => Raise KeyError
  end.

(** [dropna(subset=[col])]. *)
Definition dropna (col : row -> float) (df : DataFrame) : DataFrame :=
  filter (fun r => negb (isnan (col r))) df.

(** [Series.unique()]: the distinct values in order of first appearance. *)
Fixpoint unique (l : list Z) : list Z :=
  match l with
  | [] => []
  | x :: l' => x :: filter (fun y => negb (y =? x)) (unique l')
  end.

(** [Index.min()]; [None] stands for the [nan] of an empty index. *)
Definition index_min (l : list Z) : option Z :=
  match l with
  | [] => None
  | x :: l' => Some (fold_left Z.min l' x)
  end.

(** [df.loc[sel, col] = values]: the values go, in order, to the selected
    rows.  The two lengths agree at every use. *)
Fixpoint assign (sel : row -> bool) (set : float -> row -> row)
         (vals : list float) (df : DataFrame) : DataFrame :=
  match df with
  | [] => []
  | r :: df' =>
      if sel r then
        match vals with
        | v :: vs => set v r :: assign sel set vs df'
        | [] => r :: df'
        end
      else r :: assign sel set vals df'
  end.

(** [df.loc[sel, col] = v] with one scalar. *)
Definition assign_scalar (sel : row -> bool) (set : float -> row -> row)
           (v : float) (df : DataFrame) : DataFrame :=
  map (fun r => if sel r then set v r else r) df.

(** [Series.cumsum()] with pandas' default [skipna=True]: a [NaN] cell
    stays [NaN] and adds nothing to the running total. *)
Fixpoint cumsum_from (acc : float) (xs : list float) : list float :=
  match xs with
  | [] => []
  | x :: xs' =>
      if isnan x then nan :: cumsum_from acc xs'
      else let acc' := fadd acc x in acc' :: cumsum_from acc' xs'
  end.

Definition cumsum (xs : list float) : list float := cumsum_from (Fin 0) xs.

(** The running total [cumsum_from] has reached after [xs]. *)
Fixpoint total_from (acc : float) (xs : list float) : float :=
  match xs with
  | [] => acc
  | x :: xs' => total_from (if isnan x then acc else fadd acc x) xs'
  end.

(** ** The FIFO allocator (lines 73-110) *)

(** The three local variables that carry the state of the arrears from one
    repayment to the next: the month of the first arrear that is not yet
    compensated, what is still owed for it, and the supposed wage of that
    month. *)
Record ledger : Type := mkLedger {
  fa_date : Z;
  fa : float;
  fa_wage : float
}.

(** The last month that occurs in the frame.  A lookup of a later month
    raises, so the [while] loop of lines 95-106, which looks up a strictly
    later month at each turn, runs at most [last_modate df - fa_date]
    times: that is the fuel it is given. *)
Definition last_modate (df : DataFrame) (d : Z) : Z :=
  fold_left Z.max (map modate df) d.

Definition fuel_of (df : DataFrame) (L : ledger) : nat :=
  Z.to_nat (last_modate df (fa_date L) - fa_date L).

(** Lines 95-106.  The result is the state at the exit of the loop:
    the ledger, [rest_rep] and [share_repaid].  With the fuel of [fuel_of]
    the branch [O] is never taken: the loop raises only where a lookup
    does (lemma [while_loop_raise]), and its result does not depend on the
    fuel (lemma [while_loop_fuel]). *)
Fixpoint while_loop (fuel : nat) (df : DataFrame) (i w : Z) (L : ledger)
         (rest_rep share_repaid : float) : result (ledger * float * float) :=
  if fgtb rest_rep (fa L) then
    let share_repaid := fadd share_repaid (fdiv (fa L) (fa_wage L)) in
    let rest_rep := fsub rest_rep (fa L) in
    let fa_date := fa_date L + 1 in
    r <- loc3 df i w fa_date ;;
    match fuel with
    | O => Raise KeyError
    | S n =>
        while_loop n df i w (mkLedger fa_date (amount_owed r) (supp_wage r))
                   rest_rep share_repaid
    end
  else Ok (L, rest_rep, share_repaid).

(** Lines 94-110 for a repayment of [rest_rep]: the share that goes to
    [r2w] and the ledger left for the next repayment. *)
Definition repay (df : DataFrame) (i w : Z) (L : ledger) (rest_rep : float)
  : result (ledger * float) :=
  st <- while_loop (fuel_of df L) df i w L rest_rep (Fin 0) ;;
  let '(L, rest_rep, share_repaid) := st in
  let share_repaid := fadd share_repaid (fdiv rest_rep (fa_wage L)) in
  Ok (mkLedger (fa_date L) (fsub (fa L) rest_rep) (fa_wage L), share_repaid).

(** Lines 83-110: the loop over the months with a repayment. *)
Fixpoint repay_loop (df : DataFrame) (i w : Z) (dates : list Z) (L : ledger)
  : result (DataFrame * ledger) :=
  match dates with
  | [] => Ok (df, L)
  | date :: dates' =>
      r <- loc3 df i w date ;;
      st <- repay df i w L (amount_repaid r) ;;
      let '(L, share_repaid) := st in
      repay_loop (assign_scalar (sel3 i w date) set_r2w share_repaid df)
                 i w dates' L
  end.

(** Lines 73-80: the first month of the wave with an arrear, and the ledger
    that starts there. *)
Definition first_arrear (df : DataFrame) (i w : Z) : result (option ledger) :=
  match index_min (map modate (dropna amount_owed (loc2 df i w))) with
  | None => Ok None
  | Some d =>
      r <- loc3 df i w d ;;
      Ok (Some (mkLedger d (amount_owed r) (supp_wage r)))
  end.

(** Lines 73-110.  The ledger is a local of [shares()]; it is returned
    here so that its final state can be stated. *)
Definition allocate (df : DataFrame) (i w : Z)
  : result (DataFrame * option ledger) :=
  o <- first_arrear df i w ;;
  match o with
  | None => Ok (df, None)
  | Some L =>
      st <- repay_loop df i w
              (map modate (dropna amount_repaid (loc2 df i w))) L ;;
      Ok (fst st, Some (snd st))
  end.

(** ** The cumulative columns and the run *)

Definition sub_fillna (xs ys : list float) : list float :=
  map (fun p => fsub (fillna0 (fst p)) (fillna0 (snd p))) (combine xs ys).

(** Lines 69-119 for one wave of one individual. *)
Definition process_wave (i w : Z) (df : DataFrame) : result DataFrame :=
  let df := assign (sel2 i w) set_cumsum_a2w
                   (cumsum (map a2w (loc2 df i w))) df in
  st <- allocate df i w ;;
  let df := fst st in
  let df := assign (sel2 i w) set_cumsum_r2w
                   (cumsum (map r2w (loc2 df i w))) df in
  let df := assign (sel2 i w) set_shares
                   (sub_fillna (map a2w (loc2 df i w))
                               (map r2w (loc2 df i w))) df in
  let df := assign (sel2 i w) set_cumsum_shares
                   (cumsum (map shares_col (loc2 df i w))) df in
  Ok df.

Fixpoint process_waves (i : Z) (ws : list Z) (df : DataFrame)
  : result DataFrame :=
  match ws with
  | [] => Ok df
  | w :: ws' => df' <- process_wave i w df ;; process_waves i ws' df'
  end.

(** Lines 67-127 for one individual. *)
Definition process_id (i : Z) (df : DataFrame) : result DataFrame :=
  df <- process_waves i (unique (map wave (loc1 df i))) df ;;
  let df := assign (sel1 i) set_costs
                   (sub_fillna (map r2w (loc1 df i))
                               (map r2cw (loc1 df i))) df in
  let df := assign (sel1 i) set_psy_costs
                   (cumsum (map costs (loc1 df i))) df in
  Ok df.

Fixpoint process_ids (ids : list Z) (df : DataFrame) : result DataFrame :=
  match ids with
  | [] => Ok df
  | i :: ids' => df' <- process_id i df ;; process_ids ids' df'
  end.

(** Lines 43-127: everything between reading and writing. *)
Definition shares_df (input : list record) : result DataFrame :=
  let df := init input in
  process_ids (unique (map id df)) df.

(** One row of [computed_shares.dta]: the index and the nine columns of
    lines 133-143, in that order. *)
Record out_row : Type := mkOut {
  o_id : Z;
  o_wave : Z;
  o_modate : Z;
  o_cumsum_shares : float;
  o_psy_costs : float;
  o_cumsum_a2w : float;
  o_cumsum_r2w : float;
  o_a2w : float;
  o_r2w : float;
  o_r2cw : float;
  o_costs : float;
  o_shares : float
}.

Definition project (r : row) : out_row :=
  mkOut (id r) (wave r) (modate r) (cumsum_shares r) (psy_costs r)
        (cumsum_a2w r) (cumsum_r2w r) (a2w r) (r2w r) (r2cw r) (costs r)
        (shares_col r).

(** The two files of [DATA_TEMP]: [to_compute_shares.dta], which is read,
    and [computed_shares.dta], which is absent until it is written. *)
Record files : Type := mkFiles {
  to_compute_shares : list record;
  computed_shares : option (list out_row)
}.

(** Lines 133-143: the selection of the nine columns.  The column [costs]
    is created by the assignment of line 123, so it exists only when the
    loop over the individuals ran at least once; on a frame without rows
    the selection raises [KeyError]. *)
Definition select_columns (df : DataFrame) : result (list out_row) :=
  match df with
  | [] => Raise KeyError
  | _ :: _ => Ok (map project df)
  end.

Definition isinf (x : float) : bool :=
  match x with PInf | NInf => true | _ => false end.

(** A row of the output with an infinity in one of the nine columns. *)
Definition has_inf (o : out_row) : bool :=
  isinf (o_cumsum_shares o) || isinf (o_psy_costs o)
  || isinf (o_cumsum_a2w o) || isinf (o_cumsum_r2w o)
  || isinf (o_a2w o) || isinf (o_r2w o) || isinf (o_r2cw o)
  || isinf (o_costs o) || isinf (o_shares o).

(** Line 143: [.astype(float).to_stata(...)].  The columns are floats
    already.  The Stata writer of pandas checks the columns before it opens
    the file, and raises [ValueError] for a column that holds an infinity;
    an absent cell is written as the missing value of Stata.  Numbers are
    exact rationals here, so a float that overflows, or that leaves the
    range of the doubles of Stata, is not modelled. *)
Definition to_stata (out : list out_row) : result (list out_row) :=
  if existsb has_inf out then Raise ValueError else Ok out.

(** [shares()]: reads, computes, and writes as its last statement.  An
    exception raised on the way leaves the files as they were. *)
Definition shares (fs : files) : files * option exn :=
  match (df <- shares_df (to_compute_shares fs) ;;
         out <- select_columns df ;;
         to_stata out) with
  | Ok out => (mkFiles (to_compute_shares fs) (Some out), None)
  | Raise e => (fs, Some e)
  end.

(** [df.loc[(id, wave, modate)][col]]. *)
Definition cell (col : row -> float) (df : DataFrame) (i w d : Z)
  : result float :=
  r <- loc3 df i w d ;; Ok (col r).

(** ** Scenarios *)

Definition rec (i w d : Z) (wg owed rep : float) : record :=
  mkRecord i w d wg owed rep.

(** Arrears of 100 and 50 in months 1 and 2, a wage of 200 paid in both,
    130 repaid in month 2. *)
Definition scenario1 : list record :=
  [ rec 1 1 1 (Fin 200) (Fin 100) NaN;
    rec 1 1 2 (Fin 200) (Fin 50) (Fin 130) ].

(** The same arrears and repayment with a supposed wage of 200 in both
    months, that is a wage of 100 and of 150 paid. *)
Definition scenario1_supp : list record :=
  [ rec 1 1 1 (Fin 100) (Fin 100) NaN;
    rec 1 1 2 (Fin 150) (Fin 50) (Fin 130) ].

(** Arrears in months 1 and 3; month 2 is a row of the wave without an
    arrear.  130 is repaid in month 3. *)
Definition scenario_gap : list record :=
  [ rec 1 1 1 (Fin 200) (Fin 100) NaN;
    rec 1 1 2 (Fin 200) NaN NaN;
    rec 1 1 3 (Fin 200) (Fin 50) (Fin 130) ].

(** An arrear of 100 in month 1, the only month of the wave, and 130 repaid
    in that month. *)
Definition scenario_overshoot : list record :=
  [ rec 1 1 1 (Fin 200) (Fin 100) (Fin 130) ].

(** An arrear of 100 in month 1; month 2 has no arrear and 130 is repaid
    there. *)
Definition scenario_excess : list record :=
  [ rec 1 1 1 (Fin 200) (Fin 100) NaN;
    rec 1 1 2 (Fin 200) NaN (Fin 130) ].

(** No wage and no arrear in the month, and 50 repaid. *)
Definition scenario_zero_wage : list record :=
  [ rec 1 1 1 (Fin 0) NaN (Fin 50) ].

(** One individual with two waves of two months each: an arrear in the
    first month and a repayment in the second month of both waves. *)
Definition scenario_two_waves : list record :=
  [ rec 1 1 1 (Fin 100) (Fin 100) NaN;
    rec 1 1 2 (Fin 300) NaN (Fin 50);
    rec 1 2 1 (Fin 100) (Fin 50) NaN;
    rec 1 2 2 (Fin 200) NaN (Fin 30) ].

(** A wave with repayments and without arrears. *)
Definition scenario_no_arrear : list record :=
  [ rec 1 1 1 (Fin 200) NaN (Fin 40);
    rec 1 1 2 (Fin 200) NaN (Fin 60) ].

(** The arrears of [scenario1] with the 130 repaid in two rows: 100 in
    month 2 and 30 in month 3. *)
Definition scenario_split : list record :=
  [ rec 1 1 1 (Fin 200) (Fin 100) NaN;
    rec 1 1 2 (Fin 200) (Fin 50) (Fin 100);
    rec 1 1 3 (Fin 200) NaN (Fin 30) ].

(** ** The allocator over the amounts, and what it takes from the arrears *)

(** The repayments of a wave, in the order of the loop of line 83. *)
Definition repaid (df : DataFrame) (i w : Z) : list float :=
  map amount_repaid (dropna amount_repaid (loc2 df i w)).

(** The loop of lines 83-110 without the frame: the repayments are given
    as a list, the shares are returned as a list.  [repay_loop] computes
    the same ledger (lemma [repay_loop_repay_all]). *)
Fixpoint repay_all (df : DataFrame) (i w : Z) (Rs : list float) (L : ledger)
  : result (list float * ledger) :=
  match Rs with
  | [] => Ok ([], L)
  | R :: Rs' =>
      st <- repay df i w L R ;;
      st' <- repay_all df i w Rs' (fst st) ;;
      Ok (snd st :: fst st', snd st')
  end.

(** The amounts one repayment takes from the arrears: at each turn of the
    [while] loop the whole of what is owed for the current month (lines 97
    and 100), and at the exit what is left of the repayment (lines 107 and
    110). *)
Fixpoint while_debits (fuel : nat) (df : DataFrame) (i w : Z) (L : ledger)
         (rest_rep : float) : list float :=
  if fgtb rest_rep (fa L) then
    match loc3 df i w (fa_date L + 1), fuel with
    | Ok r, S n =>
        fa L :: while_debits n df i w
                  (mkLedger (fa_date L + 1) (amount_owed r) (supp_wage r))
                  (fsub rest_rep (fa L))
    | _, _ => [fa L]
    end
  else [rest_rep].

Definition repay_debits (df : DataFrame) (i w : Z) (L : ledger) (R : float)
  : list float :=
  while_debits (fuel_of df L) df i w L R.

Fixpoint debits_all (df : DataFrame) (i w : Z) (Rs : list float) (L : ledger)
  : list float :=
  match Rs with
  | [] => []
  | R :: Rs' =>
      repay_debits df i w L R
      ++ match repay df i w L R with
         | Ok st => debits_all df i w Rs' (fst st)
         | Raise _ => []
         end
  end.

(** Everything the allocation of a wave takes from its arrears. *)
Definition consumed (df : DataFrame) (i w : Z) : list float :=
  match first_arrear df i w with
  | Ok (Some L) => debits_all df i w (repaid df i w) L
  | _ => []
  end.

Fixpoint fsum (l : list float) : float :=
  match l with
  | [] => Fin 0
  | x :: l' => fadd x (fsum l')
  end.

(** The arrear of a row, zero when none accrued. *)
Definition owed (r : row) : float := fillna0 (amount_owed r).

(** The arrears accrued in a wave. *)
Definition accrued (df : DataFrame) (i w : Z) : float :=
  fsum (map owed (loc2 df i w)).

(** The unresolved balance of the ledger: what is still owed for the
    current month and the arrears of the later months of the wave. *)
Definition balance (df : DataFrame) (i w : Z) (L : ledger) : float :=
  fadd (fa L)
       (fsum (map owed (filter (fun r => fa_date L <? modate r)
                               (loc2 df i w)))).

(** The amounts of a wave are in contract: the months are distinct, an
    arrear is absent or a non-negative number, a repayment is absent or a
    number. *)
Definition arrear_ok (x : float) : Prop :=
  match x with
  | NaN => True
  | Fin a => (0 <= a)%Q
  | _ => False
  end.

Definition number_or_nan (x : float) : Prop :=
  match x with
  | NaN | Fin _ => True
  | _ => False
  end.

Definition wave_ok (df : DataFrame) (i w : Z) : Prop :=
  NoDup (map modate (loc2 df i w))
  /\ Forall (fun r => arrear_ok (amount_owed r)
                      /\ number_or_nan (amount_repaid r)) (loc2 df i w).

Definition Qof (x : float) : Q :=
  match x with Fin q => q | _ => 0%Q end.

Fixpoint Qsum (l : list Q) : Q :=
  match l with
  | [] => 0%Q
  | x :: l' => (x + Qsum l')%Q
  end.

(** The arrear of a row as a rational, and the arrears of the months of a
    wave after month [d]. *)
Definition owedQ (r : row) : Q := Qof (amount_owed r).

Definition laterQ (df : DataFrame) (i w d : Z) : Q :=
  Qsum (map owedQ (filter (fun r => d <? modate r) (loc2 df i w))).

(** The invariant of the ledger, for [c] taken from the arrears so far:
    either the cursor stands on a month without arrear ([fa] is [NaN]), or
    what was taken, what is still owed for the current month and the
    arrears of the later months add up to the accrued arrears. *)
Definition ledger_inv (df : DataFrame) (i w : Z) (L : ledger) (c : Q)
  : Prop :=
  fa L = NaN
  \/ exists f, fa L = Fin f /\ (0 <= f)%Q
                /\ (c + f + laterQ df i w (fa_date L)
                    == Qsum (map owedQ (loc2 df i w)))%Q.

(** A ledger in contract: what is owed is absent or a non-negative number,
    and the supposed wage is a positive number. *)
Definition ledger_ok (L : ledger) : Prop :=
  (fa L = NaN \/ exists f, fa L = Fin f /\ (0 <= f)%Q)
  /\ exists v, fa_wage L = Fin v /\ (0 < v)%Q.

(** The supposed wage of every row of the wave is a positive number. *)
Definition wages_ok (df : DataFrame) (i w : Z) : Prop :=
  Forall (fun r => exists v, supp_wage r = Fin v /\ (0 < v)%Q)
         (loc2 df i w).

(** Two ledgers with the same cursor and wage and the same amount. *)
Definition ledger_eq (L L' : ledger) : Prop :=
  fa_date L = fa_date L' /\ feq (fa L) (fa L') /\ fa_wage L = fa_wage L'.

(** [n] turns of the loop from [L] reach beyond the last month of the
    frame. *)
Definition enough (df : DataFrame) (n : nat) (L : ledger) : Prop :=
  forall r, In r df -> modate r - fa_date L <= Z.of_nat n.

(** The ledger after the advance onto row [r] (lines 103-106). *)
Definition advance (L : ledger) (r : row) : ledger :=
  mkLedger (fa_date L + 1) (amount_owed r) (supp_wage r).

(** Lines 107-110 applied to the state at the exit of the loop. *)
Definition settle (L : ledger) (rest_rep share_repaid : float)
  : ledger * float :=
  (mkLedger (fa_date L) (fsub (fa L) rest_rep) (fa_wage L),
   fadd share_repaid (fdiv rest_rep (fa_wage L))).

(** The supposed wage of the ledger as a rational. *)
Definition wageQ (L : ledger) : Q := Qof (fa_wage L).

(** ** Relations between the frame before and after a step *)

(** The index and the columns that are never written after [init]. *)
Definition same_inputs (r r' : row) : Prop :=
  id r' = id r /\ wave r' = wave r /\ modate r' = modate r
  /\ wage r' = wage r /\ amount_owed r' = amount_owed r
  /\ amount_repaid r' = amount_repaid r
  /\ a2w r' = a2w r /\ r2cw r' = r2cw r /\ supp_wage r' = supp_wage r.

(** What the pass over wave [w] of individual [i] may do to a row. *)
Definition wave_rel (i w : Z) (r r' : row) : Prop :=
  same_inputs r r' /\ costs r' = costs r /\ psy_costs r' = psy_costs r
  /\ (sel2 i w r = false -> r' = r).

(** What the pass over individual [i] may do to a row. *)
Definition id_rel (i : Z) (r r' : row) : Prop :=
  same_inputs r r' /\ (sel1 i r = false -> r' = r).

(** The ratio the code computes over a supposed wage of zero. *)
Definition ratio_over_zero (num ratio : float) : Prop :=
  match num with
  | NaN => ratio = NaN
  | Fin a =>
      ratio = (if Qeqb a 0 then NaN else if Qltb 0 a then PInf else NInf)
  | PInf | NInf => ratio = num
  end.

(** [r2w.fillna(0) - r2cw.fillna(0)] of one row: the increment of the
    psychological costs (line 124). *)
Definition cost_increment (r : row) : float :=
  fsub (fillna0 (r2w r)) (fillna0 (r2cw r)).

(** No row of wave [w] of individual [i] has an arrear. *)
Definition no_arrear (df : DataFrame) (i w : Z) : Prop :=
  forall r, In r df -> sel2 i w r = true -> amount_owed r = NaN.

(** A step that leaves [r2w] alone on the rows of wave [w] of
    individual [i]. *)
Definition keeps_r2w_on (i w : Z) (r r' : row) : Prop :=
  same_inputs r r' /\ (sel2 i w r = true -> r2w r' = r2w r).

(** ** The columns of a wave *)

(** [r'] is [r] with another value in [r2w]. *)
Definition only_r2w (r r' : row) : Prop := r' = set_r2w (r2w r') r.

(** A step that leaves the columns written by the pass over wave [w] of
    individual [i] alone on the rows of that wave. *)
Definition keeps_cols_on (i w : Z) (r r' : row) : Prop :=
  same_inputs r r'
  /\ (sel2 i w r = true ->
      r2w r' = r2w r /\ cumsum_a2w r' = cumsum_a2w r
      /\ cumsum_r2w r' = cumsum_r2w r /\ shares_col r' = shares_col r
      /\ cumsum_shares r' = cumsum_shares r).

(** [a2w.fillna(0) - r2w.fillna(0)] of one row (lines 114-117). *)
Definition net_share (r : row) : float :=
  fsub (fillna0 (a2w r)) (fillna0 (r2w r)).

(** What lines 70-71 and 112-119 establish on the rows of one wave. *)
Definition wave_columns (rows : DataFrame) : Prop :=
  map cumsum_a2w rows = cumsum (map a2w rows)
  /\ map cumsum_r2w rows = cumsum (map r2w rows)
  /\ map shares_col rows = map net_share rows
  /\ map cumsum_shares rows = cumsum (map shares_col rows).

(** ** What the loop over the repayments writes *)

(** The share written for month [d], if one was. *)
Definition assoc (d : Z) (l : list (Z * float)) : option float :=
  match find (fun p => fst p =? d) l with
  | Some p => Some (snd p)
  | None => None
  end.

(** [r2w] of a row after the shares [l] were written, month by month, into
    the rows of wave [w] of individual [i]. *)
Definition written (i w : Z) (l : list (Z * float)) (r : row) : float :=
  if sel2 i w r then
    match assoc (modate r) l with
    | Some s => s
    | None => r2w r
    end
  else r2w r.

(** The rows of the loop of line 83: the rows of the wave with a
    repayment. *)
Definition is_repayment (i w : Z) (r : row) : bool :=
  sel2 i w r && negb (isnan (amount_repaid r)).

(** The column [r2w] over the rows of a wave, against the allocation over
    the amounts of the frame [df0] as it was read: absent where nothing was
    repaid, and on the rows of the repayments, in their order, the shares
    of the repayments. *)
Definition r2w_column (df0 df : DataFrame) (i w : Z) : Prop :=
  (forall r, In r (loc2 df i w) -> amount_repaid r = NaN -> r2w r = NaN)
  /\ (forall L0,
         first_arrear df0 i w = Ok (Some L0) ->
         exists ss L',
           repay_all df0 i w (repaid df0 i w) L0 = Ok (ss, L')
           /\ map r2w (dropna amount_repaid (loc2 df i w)) = ss).

(** Nothing was written yet into [r2w] on the rows of the wave. *)
Definition fresh_on (i w : Z) (r0 r : row) : Prop :=
  same_inputs r0 r /\ (sel2 i w r0 = true -> r2w r = NaN).

(** ** A wave whose repayments are covered by its arrears *)




(** ** The arrears in units of the supposed wage *)

(** The arrear of a row over its supposed wage, as a rational: the value of
    [a2w] (lines 56-58), zero when no arrear accrued. *)
Definition ratioQ (r : row) : Q := (owedQ r / Qof (supp_wage r))%Q.

(** The ratios of the months of a wave after month [d]. *)
Definition laterR (df : DataFrame) (i w d : Z) : Q :=
  Qsum (map ratioQ (filter (fun r => d <? modate r) (loc2 df i w))).

(** The invariant of the ledger in units of the supposed wage, for shares
    written so far that add up to [s]: either the cursor stands on a month
    without arrear, or the shares, what is still owed for the current month
    over its supposed wage, and the ratios of the later months add up to
    the ratios of the wave. *)
Definition ratio_inv (df : DataFrame) (i w : Z) (L : ledger) (s : Q)
  : Prop :=
  fa L = NaN
  \/ exists f v, fa L = Fin f /\ fa_wage L = Fin v /\ (0 < v)%Q
                 /\ (s + f / v + laterR df i w (fa_date L)
                     == Qsum (map ratioQ (loc2 df i w)))%Q.




(** The cells of [a2w] of the months of a wave after month [d], added up,
    absent cells read as zero. *)
Definition later_a2w (df : DataFrame) (i w d : Z) : Q :=
  Qsum (map (fun r => Qof (a2w r))
            (filter (fun r => d <? modate r) (loc2 df i w))).

(** Arrears of 100 and 50 in months 1 and 2, a wage of 200 paid in both,
    and the 150 repaid in month 2. *)
Definition scenario_repaid : list record :=
  [ rec 1 1 1 (Fin 200) (Fin 100) NaN;
    rec 1 1 2 (Fin 200) (Fin 50) (Fin 150) ].

(** ** Proof steps *)

(** A [bind] that returned: its first step returned too. *)
Ltac inv_bind H :=
  match type of H with
  | bind ?m _ = Ok _ =>
      let E := fresh "E" in
      destruct m eqn:E; simpl in H; [| discriminate H]
  end.

Ltac setter_rel :=
  intros; unfold wave_rel, id_rel, same_inputs; simpl;
  repeat split; intros; congruence.

(** * Properties *)

(** ** Cells *)

Lemma feq_refl (x : float) : feq x x.
Proof. destruct x; simpl; auto. reflexivity. Qed.

Lemma feq_sym (x y : float) : feq x y -> feq y x.
Proof. destruct x, y; simpl; auto. intros H; symmetry; exact H. Qed.

Lemma feq_trans (x y z : float) : feq x y -> feq y z -> feq x z.
Proof.
  destruct x, y, z; simpl; auto; try contradiction.
  intros H1 H2; rewrite H1; exact H2.
Qed.

Lemma Qltb_lt (a b : Q) : Qltb a b = true <-> (a < b)%Q.
Proof.
  unfold Qltb. rewrite negb_true_iff.
  destruct (Qle_bool b a) eqn:E.
  - apply Qle_bool_iff in E. split; [discriminate | intros H; lra].
  - split; [intros _ | reflexivity].
    destruct (Qlt_le_dec a b) as [H | H]; [exact H |].
    apply Qle_bool_iff in H. congruence.
Qed.

Lemma Qltb_ge (a b : Q) : Qltb a b = false <-> (b <= a)%Q.
Proof.
  unfold Qltb. rewrite negb_false_iff. apply Qle_bool_iff.
Qed.

Lemma Qeqb_eq (a b : Q) : Qeqb a b = true <-> (a == b)%Q.
Proof. apply Qeq_bool_iff. Qed.

Lemma Qeqb_neq (a b : Q) : Qeqb a b = false <-> ~ (a == b)%Q.
Proof.
  split.
  - intros E H. apply Qeqb_eq in H. congruence.
  - intros H. destruct (Qeqb a b) eqn:E; [| reflexivity].
    apply Qeqb_eq in E. contradiction.
Qed.

(** ** The fuel of the [while] loop is enough *)

Lemma last_modate_ge_start (df : DataFrame) (d : Z) : d <= last_modate df d.
Proof.
  unfold last_modate. revert d.
  induction df as [| r df IH]; intros d; simpl; [lia |].
  specialize (IH (Z.max d (modate r))). lia.
Qed.

Lemma last_modate_ge_row (df : DataFrame) (d : Z) (r : row) :
  In r df -> modate r <= last_modate df d.
Proof.
  unfold last_modate. revert d.
  induction df as [| r0 df IH]; intros d HIn; simpl in *; [contradiction |].
  destruct HIn as [-> | HIn].
  - pose proof (last_modate_ge_start df (Z.max d (modate r))) as H.
    unfold last_modate in H. lia.
  - apply IH. exact HIn.
Qed.

Lemma loc3_Ok_In (df : DataFrame) (i w d : Z) (r : row) :
  loc3 df i w d = Ok r -> In r df /\ sel3 i w d r = true.
Proof.
  unfold loc3. destruct (find (sel3 i w d) df) eqn:E; [| discriminate].
  intros H; injection H as ->. apply find_some in E. exact E.
Qed.

Lemma sel3_key (i w d : Z) (r : row) :
  sel3 i w d r = true <-> id r = i /\ wave r = w /\ modate r = d.
Proof.
  unfold sel3. rewrite !andb_true_iff, !Z.eqb_eq. tauto.
Qed.

Lemma sel2_key (i w : Z) (r : row) :
  sel2 i w r = true <-> id r = i /\ wave r = w.
Proof.
  unfold sel2. rewrite !andb_true_iff, !Z.eqb_eq. tauto.
Qed.

Lemma loc3_Ok_le_last (df : DataFrame) (i w d d0 : Z) (r : row) :
  loc3 df i w d = Ok r -> d <= last_modate df d0.
Proof.
  intros H. apply loc3_Ok_In in H as [HIn Hsel].
  apply sel3_key in Hsel as (_ & _ & <-).
  apply last_modate_ge_row. exact HIn.
Qed.

Lemma fgtb_nan_r (x : float) : fgtb x NaN = false.
Proof. destruct x; reflexivity. Qed.

(** One turn of the loop, when the successor month is a row of the wave. *)
Lemma while_loop_turn (n : nat) (df : DataFrame) (i w : Z) (L : ledger)
      (rest share : float) (r : row) :
  fgtb rest (fa L) = true ->
  loc3 df i w (fa_date L + 1) = Ok r ->
  while_loop (S n) df i w L rest share
  = while_loop n df i w
      (mkLedger (fa_date L + 1) (amount_owed r) (supp_wage r))
      (fsub rest (fa L)) (fadd share (fdiv (fa L) (fa_wage L))).
Proof.
  intros Hgt Hloc. simpl. rewrite Hgt, Hloc. reflexivity.
Qed.

Lemma while_loop_exit (n : nat) (df : DataFrame) (i w : Z) (L : ledger)
      (rest share : float) :
  fgtb rest (fa L) = false ->
  while_loop n df i w L rest share = Ok (L, rest, share).
Proof.
  intros Hgt. destruct n; simpl; rewrite Hgt; reflexivity.
Qed.

Lemma while_loop_KeyError (n : nat) (df : DataFrame) (i w : Z) (L : ledger)
      (rest share : float) :
  fgtb rest (fa L) = true ->
  loc3 df i w (fa_date L + 1) = Raise KeyError ->
  while_loop n df i w L rest share = Raise KeyError.
Proof.
  intros Hgt Hloc. destruct n; simpl; rewrite Hgt, Hloc; reflexivity.
Qed.

(** A lookup raises nothing but [KeyError]. *)
Lemma loc3_raise (df : DataFrame) (i w d : Z) (e : exn) :
  loc3 df i w d = Raise e -> e = KeyError.
Proof.
  unfold loc3. destruct (find (sel3 i w d) df); [discriminate |].
  intros H. injection H as <-. reflexivity.
Qed.

Lemma fuel_of_succ (df : DataFrame) (i w : Z) (L : ledger) (r : row) :
  loc3 df i w (fa_date L + 1) = Ok r ->
  exists n, fuel_of df L = S n.
Proof.
  intros H. apply (loc3_Ok_le_last _ _ _ _ (fa_date L)) in H.
  unfold fuel_of.
  destruct (Z.to_nat (last_modate df (fa_date L) - fa_date L)) eqn:E;
    [lia | eauto].
Qed.

(** ** C1: the scenario of the two arrears *)

(** C1 (as the code has it).  With arrears of 100 and 50 in months 1 and 2,
    a wage of 200 paid in both months and 130 repaid in month 2, the
    supposed wages are 300 and 250, so the allocator assigns
    [r2w(month2) = 100/300 + 30/250 = 34/75]; what is still owed for
    month 2 afterwards is 20.  The value [0.65 = 100/200 + 30/200] is what
    the allocator assigns when the supposed wage (arrear plus wage paid) is
    200 in both months. *)
Theorem scenario1_allocation :
  (exists df,
      allocate (init scenario1) 1 1
      = Ok (df, Some (mkLedger 2 (Fin 20) (Fin 250)))
      /\ exists x, cell r2w df 1 1 2 = Ok x
                   /\ feq x (Fin (100 / 300 + 30 / 250))
                   /\ feq x (Fin (34 # 75)))
  /\ (exists df,
         allocate (init scenario1_supp) 1 1
         = Ok (df, Some (mkLedger 2 (Fin 20) (Fin 200)))
         /\ exists x, cell r2w df 1 1 2 = Ok x
                      /\ feq x (Fin (100 / 200 + 30 / 200))
                      /\ feq x (Fin (65 # 100))).
Proof.
  split; eexists; (split; [vm_compute; reflexivity |]);
    eexists; (split; [vm_compute; reflexivity |]);
    split; vm_compute; reflexivity.
Qed.

(** C1 fails as stated: with a wage of 200 paid in every month, the share
    assigned to month 2 is not 0.65. *)
Lemma scenario1_r2w_is_not_065 :
  exists df L x,
    allocate (init scenario1) 1 1 = Ok (df, Some L)
    /\ cell r2w df 1 1 2 = Ok x
    /\ ~ feq x (Fin (65 # 100)).
Proof.
  do 3 eexists. split; [vm_compute; reflexivity |].
  split; [vm_compute; reflexivity |].
  intros H. vm_compute in H. discriminate H.
Qed.

(** ** C2: the advance of the cursor *)

(** What the code does, on any frame, when the row of the successor month
    has no arrear.  The cursor moves to month [fa_date + 1] and takes the
    arrear and the supposed wage of that row.  Nothing is scanned: the
    loop stops there, the remainder of the repayment is credited against
    the supposed wage of that month, and what is owed becomes [NaN], so
    that a later repayment is credited in full against the same wage. *)
Theorem advance_lands_on_month_without_arrear
        (df : DataFrame) (i w : Z) (L : ledger) (R : float) (r : row) :
  fgtb R (fa L) = true ->
  loc3 df i w (fa_date L + 1) = Ok r ->
  amount_owed r = NaN ->
  let L' := mkLedger (fa_date L + 1) NaN (supp_wage r) in
  repay df i w L R
  = Ok (L', fadd (fadd (Fin 0) (fdiv (fa L) (fa_wage L)))
                 (fdiv (fsub R (fa L)) (supp_wage r)))
  /\ forall R2, repay df i w L' R2
                = Ok (L', fadd (Fin 0) (fdiv R2 (supp_wage r))).
Proof.
  intros Hgt Hloc Hnan L'. split.
  - unfold repay.
    destruct (fuel_of_succ _ _ _ _ _ Hloc) as [n ->].
    rewrite (while_loop_turn _ _ _ _ _ _ _ _ Hgt Hloc).
    rewrite while_loop_exit by (simpl; rewrite Hnan; apply fgtb_nan_r).
    simpl. rewrite Hnan. reflexivity.
  - intros R2. unfold repay.
    rewrite while_loop_exit by apply fgtb_nan_r.
    reflexivity.
Qed.

Lemma advance_lands_on_month_without_arrear_witness :
  let df := init scenario_gap in
  let L := mkLedger 1 (Fin 100) (Fin 300) in
  exists r,
    fgtb (Fin 130) (fa L) = true
    /\ loc3 df 1 1 (fa_date L + 1) = Ok r
    /\ amount_owed r = NaN
    /\ (let L' := mkLedger (fa_date L + 1) NaN (supp_wage r) in
        repay df 1 1 L (Fin 130)
        = Ok (L', fadd (fadd (Fin 0) (fdiv (fa L) (fa_wage L)))
                       (fdiv (fsub (Fin 130) (fa L)) (supp_wage r)))
        /\ forall R2, repay df 1 1 L' R2
                      = Ok (L', fadd (Fin 0) (fdiv R2 (supp_wage r)))).
Proof.
  intros df L.
  exists (init_row (rec 1 1 2 (Fin 200) NaN NaN)).
  split; [reflexivity |]. split; [reflexivity |]. split; [reflexivity |].
  apply (advance_lands_on_month_without_arrear df 1 1 L (Fin 130));
    reflexivity.
Defined.

(** C2.  The code breaks the rule of C2, which is the first in, first out
    rule of its own comments (lines 89-93 and 101-104).  In [scenario_gap]
    the arrear of month 1 is consumed by the repayment of 130, month 2 is
    a row without an arrear and month 3 has an arrear of 50.  The cursor
    stops on month 2, whose amount is [NaN] and not zero; the remaining 30
    is credited against the supposed wage of month 2,
    [r2w = 100/300 + 30/200], where the rule credits it against the
    supposed wage of month 3, [100/300 + 30/250]; nothing is taken from
    the arrear of month 3, and the ledger is left on month 2 with [NaN]
    owed. *)
Lemma gap_month_is_not_skipped :
  exists df x r,
    allocate (init scenario_gap) 1 1
    = Ok (df, Some (mkLedger 2 NaN (Fin 200)))
    /\ loc3 df 1 1 2 = Ok r /\ amount_owed r = NaN
    /\ cell r2w df 1 1 3 = Ok x
    /\ feq x (Fin (100 / 300 + 30 / 200))
    /\ ~ feq x (Fin (100 / 300 + 30 / 250)).
Proof.
  do 3 eexists. split; [vm_compute; reflexivity |].
  split; [vm_compute; reflexivity |]. split; [reflexivity |].
  split; [vm_compute; reflexivity |].
  split; [vm_compute; reflexivity |].
  intros H. vm_compute in H. discriminate H.
Qed.

(** ** C10: the lookup of the successor month can fail *)

(** C10.  In [scenario_overshoot] the repayment of 130 exceeds the arrear
    of 100 of the current month 1, and the wave has no row for month 2:
    the lookup of line 105 raises [KeyError], the exception leaves
    [shares()], and [computed_shares.dta] is not written. *)
Theorem successor_lookup_aborts_run :
  exists (input : list record) (L : ledger) (R : float),
    first_arrear (init input) 1 1 = Ok (Some L)
    /\ cell amount_repaid (init input) 1 1 1 = Ok R
    /\ fgtb R (fa L) = true
    /\ loc3 (init input) 1 1 (fa_date L + 1) = Raise KeyError
    /\ allocate (init input) 1 1 = Raise KeyError
    /\ shares_df input = Raise KeyError
    /\ shares (mkFiles input None) = (mkFiles input None, Some KeyError).
Proof.
  exists scenario_overshoot, (mkLedger 1 (Fin 100) (Fin 300)), (Fin 130).
  repeat split; vm_compute; reflexivity.
Qed.

(** ** C5: ratios over a zero or absent supposed wage *)

Lemma fdiv_nan_r (x : float) : fdiv x NaN = NaN.
Proof. destruct x; reflexivity. Qed.

(** C5 (as the code has it).  The two ratios of lines 56-61 are computed
    for every row without an exception ([init_row] is a total function).
    Over an absent supposed wage the ratio is [NaN]; over a supposed wage
    of zero it is [NaN] when the numerator is absent or zero, and an
    infinity with the sign of the numerator otherwise.  A [NaN] ratio is
    absent downstream: [fillna(0)] reads it as zero and [cumsum] leaves the
    running total as it was.  An infinite ratio is not absent. *)
Theorem ratio_over_undefined_wage (x : record) :
  let r := init_row x in
  (supp_wage r = NaN -> a2w r = NaN /\ r2cw r = NaN)
  /\ (forall z, supp_wage r = Fin z -> (z == 0)%Q ->
                ratio_over_zero (amount_owed r) (a2w r)
                /\ ratio_over_zero (amount_repaid r) (r2cw r))
  /\ (fillna0 NaN = Fin 0
      /\ forall acc xs, cumsum_from acc (NaN :: xs) = NaN :: cumsum_from acc xs)
  /\ (forall y, y = PInf \/ y = NInf ->
                isnan y = false /\ fillna0 y = y
                /\ forall acc xs, cumsum_from acc (y :: xs)
                                  = fadd acc y :: cumsum_from (fadd acc y) xs).
Proof.
  intros r. subst r. unfold ratio_over_zero. simpl.
  split; [| split; [| split]].
  - intros ->. rewrite !fdiv_nan_r. auto.
  - intros z -> Hz. apply Qeqb_eq in Hz.
    split.
    + destruct (in_amount_owed x) as [| | | a]; simpl; rewrite ?Hz;
        try reflexivity.
      * apply Qeqb_eq in Hz. destruct (Qltb z 0) eqn:E; [| reflexivity].
        apply Qltb_lt in E. lra.
      * apply Qeqb_eq in Hz. destruct (Qltb z 0) eqn:E; [| reflexivity].
        apply Qltb_lt in E. lra.
      * unfold inf_with_sign.
        destruct (Qeqb a 0); [reflexivity |].
        destruct (Qltb 0 a); reflexivity.
    + destruct (in_amount_repaid x) as [| | | a]; simpl; rewrite ?Hz;
        try reflexivity.
      * apply Qeqb_eq in Hz. destruct (Qltb z 0) eqn:E; [| reflexivity].
        apply Qltb_lt in E. lra.
      * apply Qeqb_eq in Hz. destruct (Qltb z 0) eqn:E; [| reflexivity].
        apply Qltb_lt in E. lra.
      * unfold inf_with_sign.
        destruct (Qeqb a 0); [reflexivity |].
        destruct (Qltb 0 a); reflexivity.
  - split; [reflexivity | intros; reflexivity].
  - intros y [-> | ->]; repeat split.
Qed.

(** C5 fails as stated: in [scenario_zero_wage] the supposed wage is zero
    and 50 is repaid; [r2cw] is plus infinity, which [fillna(0)] keeps, so
    [costs] and the running sum [psy_costs] are minus infinity. *)
Lemma zero_wage_ratio_is_infinite :
  exists r,
    shares_df scenario_zero_wage = Ok [r]
    /\ supp_wage r = Fin 0
    /\ r2cw r = PInf /\ isnan (r2cw r) = false
    /\ costs r = NInf /\ psy_costs r = NInf.
Proof.
  eexists. split; [vm_compute; reflexivity |]. repeat split.
Qed.

(** ** Row-wise effect of the assignments *)

Lemma same_inputs_refl (r : row) : same_inputs r r.
Proof. unfold same_inputs. repeat split. Qed.

Lemma same_inputs_trans (r1 r2 r3 : row) :
  same_inputs r1 r2 -> same_inputs r2 r3 -> same_inputs r1 r3.
Proof.
  unfold same_inputs. intros H1 H2.
  destruct H1 as (?&?&?&?&?&?&?&?&?), H2 as (?&?&?&?&?&?&?&?&?).
  repeat split; congruence.
Qed.

Lemma same_inputs_sel1 (i : Z) (r r' : row) :
  same_inputs r r' -> sel1 i r' = sel1 i r.
Proof. intros (Hi & _). unfold sel1. rewrite Hi. reflexivity. Qed.

Lemma same_inputs_sel2 (i w : Z) (r r' : row) :
  same_inputs r r' -> sel2 i w r' = sel2 i w r.
Proof. intros (Hi & Hw & _). unfold sel2. rewrite Hi, Hw. reflexivity. Qed.

Lemma same_inputs_sel3 (i w d : Z) (r r' : row) :
  same_inputs r r' -> sel3 i w d r' = sel3 i w d r.
Proof.
  intros (Hi & Hw & Hd & _). unfold sel3. rewrite Hi, Hw, Hd. reflexivity.
Qed.

Lemma sel3_sel2 (i w d : Z) (r : row) :
  sel3 i w d r = true -> sel2 i w r = true.
Proof.
  unfold sel3, sel2. rewrite andb_true_iff. tauto.
Qed.

Lemma Forall2_refl_on {A : Type} (R : A -> A -> Prop) (l : list A) :
  (forall x, R x x) -> Forall2 R l l.
Proof. intros H. induction l; constructor; auto. Qed.

Lemma Forall2_compose {A : Type} (R1 R2 R3 : A -> A -> Prop)
      (l1 l2 l3 : list A) :
  (forall x y z, R1 x y -> R2 y z -> R3 x z) ->
  Forall2 R1 l1 l2 -> Forall2 R2 l2 l3 -> Forall2 R3 l1 l3.
Proof.
  intros H H1. revert l3.
  induction H1 as [| x y l1 l2 Hxy _ IH]; intros l3 H2;
    inversion H2; subst; constructor; eauto.
Qed.

Lemma Forall2_weaken {A : Type} (R1 R2 : A -> A -> Prop) (l1 l2 : list A) :
  (forall x y, R1 x y -> R2 x y) -> Forall2 R1 l1 l2 -> Forall2 R2 l1 l2.
Proof. intros H H1. induction H1; constructor; auto. Qed.

Lemma assign_Forall2 (R : row -> row -> Prop) (sel : row -> bool)
      (set : float -> row -> row) (vals : list float) (df : DataFrame) :
  (forall r, R r r) ->
  (forall v r, sel r = true -> R r (set v r)) ->
  Forall2 R df (assign sel set vals df).
Proof.
  intros Hrefl Hset. revert vals.
  induction df as [| r df IH]; intros vals; simpl; [constructor |].
  destruct (sel r) eqn:E.
  - destruct vals as [| v vs].
    + apply Forall2_refl_on. exact Hrefl.
    + constructor; auto.
  - constructor; auto.
Qed.

Lemma assign_scalar_Forall2 (R : row -> row -> Prop) (sel : row -> bool)
      (set : float -> row -> row) (v : float) (df : DataFrame) :
  (forall r, R r r) ->
  (forall r, sel r = true -> R r (set v r)) ->
  Forall2 R df (assign_scalar sel set v df).
Proof.
  intros Hrefl Hset. unfold assign_scalar.
  induction df as [| r df IH]; simpl; constructor; auto.
  destruct (sel r) eqn:E; auto.
Qed.

Lemma Forall2_map_eq {A B : Type} (R : A -> A -> Prop) (f : A -> B)
      (l l' : list A) :
  (forall x y, R x y -> f y = f x) -> Forall2 R l l' -> map f l' = map f l.
Proof.
  intros Hf H. induction H as [| x y l l' Hxy _ IH]; simpl;
    [reflexivity |].
  rewrite (Hf _ _ Hxy), IH. reflexivity.
Qed.

Lemma wave_rel_refl (i w : Z) (r : row) : wave_rel i w r r.
Proof.
  unfold wave_rel. split; [apply same_inputs_refl | auto].
Qed.

Lemma wave_rel_trans (i w : Z) (r1 r2 r3 : row) :
  wave_rel i w r1 r2 -> wave_rel i w r2 r3 -> wave_rel i w r1 r3.
Proof.
  intros (Hin1 & Hc1 & Hp1 & Hf1) (Hin2 & Hc2 & Hp2 & Hf2).
  split; [apply (same_inputs_trans _ _ _ Hin1 Hin2) |].
  split; [congruence |]. split; [congruence |].
  intros Hsel. specialize (Hf1 Hsel). subst r2. apply Hf2. exact Hsel.
Qed.

Lemma id_rel_refl (i : Z) (r : row) : id_rel i r r.
Proof. split; [apply same_inputs_refl | auto]. Qed.

Lemma id_rel_trans (i : Z) (r1 r2 r3 : row) :
  id_rel i r1 r2 -> id_rel i r2 r3 -> id_rel i r1 r3.
Proof.
  intros (Hin1 & Hf1) (Hin2 & Hf2).
  split; [apply (same_inputs_trans _ _ _ Hin1 Hin2) |].
  intros Hsel. specialize (Hf1 Hsel). subst r2. apply Hf2. exact Hsel.
Qed.

Lemma wave_rel_id_rel (i w : Z) (r r' : row) :
  wave_rel i w r r' -> id_rel i r r'.
Proof.
  intros (Hin & _ & _ & Hf). split; [exact Hin |].
  intros Hsel. apply Hf. unfold sel1 in Hsel. unfold sel2.
  rewrite Hsel. reflexivity.
Qed.

Lemma repay_loop_rel (i w : Z) (dates : list Z) :
  forall (df df' : DataFrame) (L L' : ledger),
    repay_loop df i w dates L = Ok (df', L') ->
    Forall2 (wave_rel i w) df df'.
Proof.
  induction dates as [| date dates IH]; intros df df' L L' H; simpl in H.
  - injection H as <- <-. apply Forall2_refl_on. apply wave_rel_refl.
  - inv_bind H. inv_bind H. destruct a0 as [L1 share].
    apply IH in H.
    eapply Forall2_compose; [apply wave_rel_trans | | exact H].
    apply assign_scalar_Forall2; [apply wave_rel_refl |].
    intros r0 Hsel. apply sel3_sel2 in Hsel. setter_rel.
Qed.

Lemma allocate_rel (i w : Z) (df df' : DataFrame) (oL : option ledger) :
  allocate df i w = Ok (df', oL) -> Forall2 (wave_rel i w) df df'.
Proof.
  unfold allocate. intros H. inv_bind H.
  destruct a as [L |].
  - inv_bind H. destruct a as [df1 L1]. simpl in H. injection H as <- <-.
    eapply repay_loop_rel. exact E0.
  - injection H as <- <-. apply Forall2_refl_on. apply wave_rel_refl.
Qed.

Lemma assign_wave_rel (i w : Z) (set : float -> row -> row)
      (vals : list float) (df : DataFrame) :
  (forall v r, sel2 i w r = true -> wave_rel i w r (set v r)) ->
  Forall2 (wave_rel i w) df (assign (sel2 i w) set vals df).
Proof.
  intros H. apply assign_Forall2; [apply wave_rel_refl | exact H].
Qed.

Lemma process_wave_rel (i w : Z) (df df' : DataFrame) :
  process_wave i w df = Ok df' -> Forall2 (wave_rel i w) df df'.
Proof.
  unfold process_wave. intros H. inv_bind H. destruct a as [df1 oL].
  simpl in H. injection H as <-. apply allocate_rel in E.
  repeat (eapply Forall2_compose;
          [apply wave_rel_trans | | apply assign_wave_rel; setter_rel]).
  eapply Forall2_compose; [apply wave_rel_trans | | exact E].
  apply assign_wave_rel. setter_rel.
Qed.

Lemma process_waves_rel (i : Z) (ws : list Z) :
  forall df df', process_waves i ws df = Ok df' -> Forall2 (id_rel i) df df'.
Proof.
  induction ws as [| w ws IH]; intros df df' H; simpl in H.
  - injection H as <-. apply Forall2_refl_on. apply id_rel_refl.
  - inv_bind H. apply IH in H. apply process_wave_rel in E.
    eapply Forall2_compose; [apply id_rel_trans | | exact H].
    eapply Forall2_weaken; [apply wave_rel_id_rel | exact E].
Qed.

Lemma process_id_rel (i : Z) (df df' : DataFrame) :
  process_id i df = Ok df' -> Forall2 (id_rel i) df df'.
Proof.
  unfold process_id. intros H. inv_bind H. injection H as <-.
  apply process_waves_rel in E.
  repeat (eapply Forall2_compose;
          [apply id_rel_trans | |
           apply assign_Forall2; [apply id_rel_refl | setter_rel]]).
  exact E.
Qed.

Lemma process_ids_rel (ids : list Z) :
  forall df df',
    process_ids ids df = Ok df' ->
    Forall2 (fun r r' => same_inputs r r' /\ (~ In (id r) ids -> r' = r))
            df df'.
Proof.
  induction ids as [| i ids IH]; intros df df' H; simpl in H.
  - injection H as <-. apply Forall2_refl_on.
    intros r. split; [apply same_inputs_refl | auto].
  - inv_bind H. apply IH in H. apply process_id_rel in E.
    eapply Forall2_compose; [| exact E | exact H].
    intros x y z (Hin1 & Hf1) (Hin2 & Hf2). simpl.
    split; [apply (same_inputs_trans _ _ _ Hin1 Hin2) |].
    intros Hnot.
    assert (Hx : sel1 i x = false).
    { unfold sel1. apply Z.eqb_neq. intros Heq. apply Hnot. auto. }
    specialize (Hf1 Hx). subst y. apply Hf2. intros HIn. apply Hnot. auto.
Qed.

Lemma shares_df_same_inputs (input : list record) (out : DataFrame) :
  shares_df input = Ok out -> Forall2 same_inputs (init input) out.
Proof.
  unfold shares_df. intros H. apply process_ids_rel in H.
  eapply Forall2_weaken; [| exact H]. intros x y (Hin & _). exact Hin.
Qed.

(** ** Positional assignment and the selected rows *)

Lemma map_filter_assign_set (col : row -> float) (sel : row -> bool)
      (set : float -> row -> row) :
  (forall v r, col (set v r) = v) ->
  (forall v r, sel (set v r) = sel r) ->
  forall (df : DataFrame) (vals : list float),
    length vals = length (filter sel df) ->
    map col (filter sel (assign sel set vals df)) = vals.
Proof.
  intros Hcol Hsel.
  induction df as [| r df IH]; intros vals Hlen; simpl in *.
  - destruct vals; [reflexivity | discriminate].
  - destruct (sel r) eqn:E.
    + destruct vals as [| v vs]; [discriminate |].
      simpl. rewrite Hsel, E. simpl. rewrite Hcol. f_equal.
      apply IH. simpl in Hlen. congruence.
    + simpl. rewrite E. apply IH. exact Hlen.
Qed.

Lemma map_filter_assign_other {B : Type} (f : row -> B) (sel : row -> bool)
      (set : float -> row -> row) :
  (forall v r, f (set v r) = f r) ->
  (forall v r, sel (set v r) = sel r) ->
  forall (df : DataFrame) (vals : list float),
    map f (filter sel (assign sel set vals df)) = map f (filter sel df).
Proof.
  intros Hf Hsel.
  induction df as [| r df IH]; intros vals; simpl; [reflexivity |].
  destruct (sel r) eqn:E.
  - destruct vals as [| v vs]; simpl.
    + rewrite E. reflexivity.
    + rewrite Hsel, E. simpl. rewrite Hf, IH. reflexivity.
  - simpl. rewrite E. apply IH.
Qed.

Lemma cumsum_from_length (xs : list float) :
  forall acc, length (cumsum_from acc xs) = length xs.
Proof.
  induction xs as [| x xs IH]; intros acc; simpl; [reflexivity |].
  destruct (isnan x); simpl; rewrite IH; reflexivity.
Qed.

Lemma sub_fillna_map (f g : row -> float) (rows : DataFrame) :
  sub_fillna (map f rows) (map g rows)
  = map (fun r => fsub (fillna0 (f r)) (fillna0 (g r))) rows.
Proof.
  unfold sub_fillna. induction rows as [| r rows IH]; simpl;
    [reflexivity |]. rewrite IH. reflexivity.
Qed.

Lemma cumsum_from_app (xs ys : list float) :
  forall acc,
    cumsum_from acc (xs ++ ys)
    = cumsum_from acc xs ++ cumsum_from (total_from acc xs) ys.
Proof.
  induction xs as [| x xs IH]; intros acc; simpl; [reflexivity |].
  destruct (isnan x); simpl; rewrite IH; reflexivity.
Qed.

(** ** [unique] *)

Lemma unique_In (l : list Z) (x : Z) : In x (unique l) <-> In x l.
Proof.
  induction l as [| y l IH]; simpl; [tauto |].
  rewrite filter_In, IH, negb_true_iff, Z.eqb_neq.
  destruct (Z.eq_dec y x); [tauto |].
  split; [tauto |]. intros [H | H]; [tauto |]. right. split; [exact H |].
  congruence.
Qed.

Lemma unique_NoDup (l : list Z) : NoDup (unique l).
Proof.
  induction l as [| y l IH]; simpl; constructor.
  - rewrite filter_In, negb_true_iff, Z.eqb_neq. tauto.
  - apply NoDup_filter. exact IH.
Qed.

(** ** C7: the psychological costs run across the waves *)

Lemma process_id_psy_costs (i : Z) (df df' : DataFrame) :
  process_id i df = Ok df' ->
  map psy_costs (loc1 df' i) = cumsum (map cost_increment (loc1 df' i))
  /\ map costs (loc1 df' i) = map cost_increment (loc1 df' i).
Proof.
  unfold process_id. intros H. inv_bind H. injection H as <-.
  rename a into df1. unfold loc1 in *.
  set (v2 := sub_fillna (map r2w (filter (sel1 i) df1))
                        (map r2cw (filter (sel1 i) df1))).
  set (df2 := assign (sel1 i) set_costs v2 df1).
  assert (Hlen2 : length v2 = length (filter (sel1 i) df1)).
  { subst v2. rewrite sub_fillna_map, length_map. reflexivity. }
  assert (Hc2 : map costs (filter (sel1 i) df2) = v2).
  { subst df2. apply map_filter_assign_set; auto. }
  assert (Hi2 : map cost_increment (filter (sel1 i) df2)
                = map cost_increment (filter (sel1 i) df1)).
  { subst df2. apply map_filter_assign_other; auto. }
  assert (Hv2 : v2 = map cost_increment (filter (sel1 i) df1)).
  { subst v2. apply sub_fillna_map. }
  set (v3 := cumsum (map costs (filter (sel1 i) df2))).
  assert (Hlen3 : length v3 = length (filter (sel1 i) df2)).
  { subst v3. unfold cumsum. rewrite cumsum_from_length, length_map.
    reflexivity. }
  split.
  - rewrite map_filter_assign_set by auto.
    rewrite map_filter_assign_other by auto.
    subst v3. rewrite Hc2, Hi2, Hv2. reflexivity.
  - rewrite !map_filter_assign_other by auto.
    rewrite Hc2, Hi2, Hv2. reflexivity.
Qed.

Lemma process_ids_frame (ids : list Z) (i : Z) (df df' : DataFrame) :
  ~ In i ids -> process_ids ids df = Ok df' -> loc1 df' i = loc1 df i.
Proof.
  intros Hnot H. apply process_ids_rel in H. unfold loc1.
  induction H as [| r r' df df' (Hin & Hf) _ IH]; simpl; [reflexivity |].
  rewrite (same_inputs_sel1 _ _ _ Hin).
  destruct (sel1 i r) eqn:E; [| exact IH].
  rewrite IH. f_equal. apply Hf.
  unfold sel1 in E. apply Z.eqb_eq in E. congruence.
Qed.

Lemma process_ids_psy_costs (ids : list Z) (i : Z) :
  NoDup ids -> In i ids ->
  forall df df',
    process_ids ids df = Ok df' ->
    map psy_costs (loc1 df' i) = cumsum (map cost_increment (loc1 df' i))
    /\ map costs (loc1 df' i) = map cost_increment (loc1 df' i).
Proof.
  induction ids as [| j ids IH]; intros Hnd HIn df df' H; [contradiction |].
  simpl in H. inv_bind H. inversion Hnd as [| ? ? Hj Hnd']; subst.
  destruct (Z.eq_dec j i) as [-> | Hne].
  - rewrite (process_ids_frame _ _ _ _ Hj H).
    apply process_id_psy_costs with (df := df). exact E.
  - destruct HIn as [Heq | HIn]; [contradiction |].
    apply (IH Hnd' HIn _ _ H).
Qed.

Lemma app_eq_length_inv {A : Type} (l1 l2 l1' l2' : list A) :
  l1 ++ l2 = l1' ++ l2' -> length l1 = length l1' -> l1 = l1' /\ l2 = l2'.
Proof.
  revert l1'. induction l1 as [| x l1 IH]; intros [| y l1'] H Hlen;
    simpl in *; try discriminate; auto.
  injection H as -> H. destruct (IH l1' H) as [-> ->]; auto.
Qed.

Lemma init_ids (input : list record) : map id (init input) = map in_id input.
Proof.
  unfold init. rewrite map_map. apply map_ext. reflexivity.
Qed.

Lemma shares_df_psy_costs (input : list record) (out : DataFrame) (i : Z) :
  shares_df input = Ok out ->
  In i (map in_id input) ->
  map psy_costs (loc1 out i) = cumsum (map cost_increment (loc1 out i))
  /\ map costs (loc1 out i) = map cost_increment (loc1 out i).
Proof.
  unfold shares_df. intros H HIn.
  apply (process_ids_psy_costs (unique (map id (init input))) i)
    with (df := init input); [apply unique_NoDup | | exact H].
  apply unique_In. rewrite init_ids. exact HIn.
Qed.

(** C7.  In the output of a run, the column [psy_costs] over the rows of
    an individual is the running sum of [r2w - r2cw], absent operands read
    as zero, over all of these rows in the order of the panel.  When the
    rows are those of wave [w1] followed by those of wave [w2], the column
    over the second wave is the running sum that starts from the total
    reached at the end of the first wave, not from zero. *)
Theorem psy_costs_continue_across_waves
        (input : list record) (out : DataFrame) (i w1 w2 : Z) :
  shares_df input = Ok out ->
  In i (map in_id input) ->
  loc1 out i = loc2 out i w1 ++ loc2 out i w2 ->
  map psy_costs (loc1 out i)
  = cumsum (map cost_increment (loc2 out i w1 ++ loc2 out i w2))
  /\ map psy_costs (loc2 out i w1)
     = cumsum (map cost_increment (loc2 out i w1))
  /\ map psy_costs (loc2 out i w2)
     = cumsum_from (total_from (Fin 0) (map cost_increment (loc2 out i w1)))
                   (map cost_increment (loc2 out i w2)).
Proof.
  intros H HIn Hsplit.
  destruct (shares_df_psy_costs _ _ _ H HIn) as [Hpsy _].
  rewrite Hsplit in Hpsy. split; [rewrite Hsplit; exact Hpsy |].
  unfold cumsum in *. rewrite !map_app, cumsum_from_app in Hpsy.
  apply app_eq_length_inv in Hpsy; [exact Hpsy |].
  rewrite cumsum_from_length, !length_map. reflexivity.
Qed.

Lemma psy_costs_continue_across_waves_witness :
  exists out,
    shares_df scenario_two_waves = Ok out
    /\ In 1 (map in_id scenario_two_waves)
    /\ loc1 out 1 = loc2 out 1 1 ++ loc2 out 1 2
    /\ (map psy_costs (loc1 out 1)
        = cumsum (map cost_increment (loc2 out 1 1 ++ loc2 out 1 2))
        /\ map psy_costs (loc2 out 1 1)
           = cumsum (map cost_increment (loc2 out 1 1))
        /\ map psy_costs (loc2 out 1 2)
           = cumsum_from
               (total_from (Fin 0) (map cost_increment (loc2 out 1 1)))
               (map cost_increment (loc2 out 1 2))).
Proof.
  eexists. split; [vm_compute; reflexivity |].
  split; [simpl; auto |]. split; [reflexivity |].
  apply (psy_costs_continue_across_waves scenario_two_waves _ 1 1 2);
    [vm_compute; reflexivity | simpl; auto | reflexivity].
Defined.

(** ** C9: all or nothing *)

Lemma map_eq_In {A B : Type} (f g : A -> B) (l : list A) (x : A) :
  map f l = map g l -> In x l -> f x = g x.
Proof.
  induction l as [| y l IH]; simpl; intros H HIn; [contradiction |].
  injection H as H1 H2. destruct HIn as [-> | HIn]; auto.
Qed.

Lemma shares_df_costs (input : list record) (out : DataFrame) :
  shares_df input = Ok out ->
  Forall (fun r => costs r = cost_increment r) out.
Proof.
  intros H. apply Forall_forall. intros r HIn.
  assert (Hid : In (id r) (map in_id input)).
  { pose proof (shares_df_same_inputs _ _ H) as Hrel.
    rewrite <- init_ids.
    rewrite <- (Forall2_map_eq same_inputs id _ _
                  (fun x y (Hxy : same_inputs x y) => proj1 Hxy) Hrel).
    apply in_map. exact HIn. }
  destruct (shares_df_psy_costs _ _ _ H Hid) as [_ Hc].
  apply (map_eq_In _ _ _ _ Hc). unfold loc1. apply filter_In.
  split; [exact HIn |]. unfold sel1. apply Z.eqb_refl.
Qed.

(** C9.  A run of [shares()] ends in one of two ways.  Either an
    exception leaves it and the files are as they were: nothing was
    written.  Or [computed_shares.dta] holds the nine columns for the whole
    panel: one row for each row read, under the same key and in the same
    order, each of them reached by the pass over its individual (its
    [costs] cell is [r2w - r2cw], absent operands read as zero). *)
Theorem shares_all_or_nothing (fs : files) :
  (exists e, shares fs = (fs, Some e))
  \/ (exists df,
         shares_df (to_compute_shares fs) = Ok df
         /\ shares fs
            = (mkFiles (to_compute_shares fs) (Some (map project df)), None)
         /\ Forall2 (fun x o => o_id o = in_id x /\ o_wave o = in_wave x
                                /\ o_modate o = in_modate x)
                    (to_compute_shares fs) (map project df)
         /\ Forall (fun o => o_costs o
                             = fsub (fillna0 (o_r2w o)) (fillna0 (o_r2cw o)))
                   (map project df)).
Proof.
  unfold shares.
  destruct (shares_df (to_compute_shares fs)) as [df | e] eqn:E; simpl;
    [| left; eauto].
  destruct df as [| r df]; simpl; [left; eauto |].
  change (project r :: map project df) with (map project (r :: df)).
  unfold to_stata.
  destruct (existsb has_inf (map project (r :: df))); [left; eauto |].
  right. exists (r :: df). split; [reflexivity |]. split; [reflexivity |].
  split.
  - apply shares_df_same_inputs in E. unfold init in E.
    remember (r :: df) as out eqn:Hout. clear Hout.
    remember (to_compute_shares fs) as input eqn:Hinput. clear Hinput.
    revert out E.
    induction input as [| x input IH]; intros out E; inversion E; subst;
      simpl; constructor.
    + match goal with
      | Hs : same_inputs _ _ |- _ => destruct Hs as (? & ? & ? & _)
      end. simpl in *. auto.
    + apply IH. assumption.
  - apply shares_df_costs in E. rewrite Forall_map.
    eapply Forall_impl; [| exact E]. intros a Ha. exact Ha.
Qed.

(** ** C6: a wave without arrears *)

Lemma filter_all_false {A : Type} (f : A -> bool) (l : list A) :
  (forall x, In x l -> f x = false) -> filter f l = [].
Proof.
  induction l as [| x l IH]; intros H; simpl; [reflexivity |].
  rewrite (H x) by (left; reflexivity). apply IH.
  intros y Hy. apply H. right. exact Hy.
Qed.

Lemma no_arrear_ext (i w : Z) (df df' : DataFrame) :
  Forall2 same_inputs df df' -> no_arrear df i w -> no_arrear df' i w.
Proof.
  unfold no_arrear. intros H. induction H as [| r r' df df' Hr _ IH];
    intros Hno x HIn Hsel; [contradiction |].
  destruct HIn as [<- | HIn].
  - destruct Hr as (Hi & Hw & _ & _ & Ho & _). rewrite Ho.
    apply Hno; [left; reflexivity |].
    unfold sel2 in *. rewrite <- Hi, <- Hw. exact Hsel.
  - apply IH; auto. intros y Hy. apply Hno. right. exact Hy.
Qed.

Lemma allocate_no_arrear (df : DataFrame) (i w : Z) :
  no_arrear df i w -> allocate df i w = Ok (df, None).
Proof.
  intros Hno. unfold allocate, first_arrear, dropna.
  rewrite filter_all_false; [reflexivity |].
  intros r HIn. unfold loc2 in HIn. apply filter_In in HIn as [HIn Hsel].
  rewrite (Hno r HIn Hsel). reflexivity.
Qed.

Lemma keeps_r2w_on_trans (i w : Z) (r1 r2 r3 : row) :
  keeps_r2w_on i w r1 r2 -> keeps_r2w_on i w r2 r3 -> keeps_r2w_on i w r1 r3.
Proof.
  intros (Hin1 & H1) (Hin2 & H2).
  split; [apply (same_inputs_trans _ _ _ Hin1 Hin2) |].
  intros Hsel. rewrite H2, H1; auto.
  rewrite (same_inputs_sel2 _ _ _ _ Hin1). exact Hsel.
Qed.

Lemma keeps_r2w_on_refl (i w : Z) (r : row) : keeps_r2w_on i w r r.
Proof. split; [apply same_inputs_refl | auto]. Qed.

Lemma keeps_r2w_on_ext (i w : Z) (df df' : DataFrame) :
  Forall2 (keeps_r2w_on i w) df df' -> Forall2 same_inputs df df'.
Proof. apply Forall2_weaken. intros x y (H & _). exact H. Qed.

Lemma process_wave_no_arrear (i w : Z) (df : DataFrame) :
  no_arrear df i w ->
  exists df', process_wave i w df = Ok df'
              /\ Forall2 (keeps_r2w_on i w) df df'.
Proof.
  intros Hno. unfold process_wave.
  set (df1 := assign (sel2 i w) set_cumsum_a2w _ df).
  assert (H1 : Forall2 (keeps_r2w_on i w) df df1).
  { apply assign_Forall2; [apply keeps_r2w_on_refl |].
    intros; unfold keeps_r2w_on, same_inputs; simpl; repeat split. }
  rewrite allocate_no_arrear
    by (apply (no_arrear_ext _ _ df);
        [apply (keeps_r2w_on_ext i w) |]; assumption).
  simpl. eexists. split; [reflexivity |].
  repeat (eapply Forall2_compose;
          [apply keeps_r2w_on_trans | |
           apply assign_Forall2; [apply keeps_r2w_on_refl |];
           intros; unfold keeps_r2w_on, same_inputs; simpl; repeat split]).
  apply Forall2_refl_on. apply keeps_r2w_on_refl.
Qed.

Lemma process_wave_keeps_r2w_on (i w j w' : Z) (df df' : DataFrame) :
  no_arrear df i w ->
  process_wave j w' df = Ok df' ->
  Forall2 (keeps_r2w_on i w) df df'.
Proof.
  intros Hno H.
  destruct (Z.eq_dec j i) as [-> | Hj];
    [destruct (Z.eq_dec w' w) as [-> | Hw] |].
  - destruct (process_wave_no_arrear _ _ _ Hno) as (df2 & H2 & Hrel).
    congruence.
  - apply process_wave_rel in H.
    eapply Forall2_weaken; [| exact H].
    intros r r' (Hin & _ & _ & Hf). split; [exact Hin |].
    intros Hsel. rewrite Hf; [reflexivity |].
    apply sel2_key in Hsel as [Hi Hw']. unfold sel2.
    rewrite Hw'. replace (w =? w') with false; [apply andb_false_r |].
    symmetry. apply Z.eqb_neq. congruence.
  - apply process_wave_rel in H.
    eapply Forall2_weaken; [| exact H].
    intros r r' (Hin & _ & _ & Hf). split; [exact Hin |].
    intros Hsel. rewrite Hf; [reflexivity |].
    apply sel2_key in Hsel as [Hi Hw']. unfold sel2.
    rewrite Hi. replace (i =? j) with false; [reflexivity |].
    symmetry. apply Z.eqb_neq. congruence.
Qed.

Lemma process_waves_keeps_r2w_on (i w j : Z) (ws : list Z) :
  forall df df',
    no_arrear df i w ->
    process_waves j ws df = Ok df' ->
    Forall2 (keeps_r2w_on i w) df df'.
Proof.
  induction ws as [| w' ws IH]; intros df df' Hno H; simpl in H.
  - injection H as <-. apply Forall2_refl_on. apply keeps_r2w_on_refl.
  - inv_bind H.
    pose proof (process_wave_keeps_r2w_on _ _ _ _ _ _ Hno E) as H1.
    eapply Forall2_compose; [apply keeps_r2w_on_trans | exact H1 |].
    apply IH; [| exact H].
    apply (no_arrear_ext _ _ df); [apply (keeps_r2w_on_ext i w) |];
      assumption.
Qed.

Lemma process_id_keeps_r2w_on (i w j : Z) (df df' : DataFrame) :
  no_arrear df i w ->
  process_id j df = Ok df' ->
  Forall2 (keeps_r2w_on i w) df df'.
Proof.
  intros Hno H. unfold process_id in H. inv_bind H. injection H as <-.
  pose proof (process_waves_keeps_r2w_on _ _ _ _ _ _ Hno E) as H1.
  repeat (eapply Forall2_compose;
          [apply keeps_r2w_on_trans | |
           apply assign_Forall2; [apply keeps_r2w_on_refl |];
           intros; unfold keeps_r2w_on, same_inputs; simpl; repeat split]).
  exact H1.
Qed.

Lemma process_ids_keeps_r2w_on (i w : Z) (ids : list Z) :
  forall df df',
    no_arrear df i w ->
    process_ids ids df = Ok df' ->
    Forall2 (keeps_r2w_on i w) df df'.
Proof.
  induction ids as [| j ids IH]; intros df df' Hno H; simpl in H.
  - injection H as <-. apply Forall2_refl_on. apply keeps_r2w_on_refl.
  - inv_bind H.
    pose proof (process_id_keeps_r2w_on _ _ _ _ _ Hno E) as H1.
    eapply Forall2_compose; [apply keeps_r2w_on_trans | exact H1 |].
    apply IH; [| exact H].
    apply (no_arrear_ext _ _ df); [apply (keeps_r2w_on_ext i w) |];
      assumption.
Qed.

(** C6.  When no row of a wave has an arrear, the allocator does nothing
    for that wave: it returns the frame as it was and builds no ledger, so
    [r2w] stays absent on every row of the wave, repayment rows included.
    The pass over the wave does not raise, whatever the other passes wrote
    before, and in the output of the run [r2w] is absent on every row of
    the wave. *)
Theorem wave_without_arrears (input : list record) (i w : Z) :
  (forall x, In x input -> in_id x = i -> in_wave x = w ->
             in_amount_owed x = NaN) ->
  allocate (init input) i w = Ok (init input, None)
  /\ (forall r, In r (init input) -> r2w r = NaN)
  /\ (forall df, Forall2 same_inputs (init input) df ->
                 exists df', process_wave i w df = Ok df')
  /\ (forall out, shares_df input = Ok out ->
                  forall r, In r out -> id r = i -> wave r = w ->
                            r2w r = NaN).
Proof.
  intros Hin.
  assert (Hno : no_arrear (init input) i w).
  { intros r HIn Hsel. unfold init in HIn. apply in_map_iff in HIn.
    destruct HIn as (x & <- & Hx). apply sel2_key in Hsel as [Hi Hw].
    simpl in *. auto. }
  assert (Hnan : forall r, In r (init input) -> r2w r = NaN).
  { intros r HIn. unfold init in HIn. apply in_map_iff in HIn.
    destruct HIn as (x & <- & _). reflexivity. }
  split; [apply allocate_no_arrear; exact Hno |].
  split; [exact Hnan |]. split.
  - intros df Hrel.
    destruct (process_wave_no_arrear i w df) as (df' & H & _); eauto.
    apply (no_arrear_ext _ _ (init input)); assumption.
  - intros out H r HIn Hi Hw. unfold shares_df in H.
    apply (process_ids_keeps_r2w_on i w) in H; [| exact Hno].
    clear Hno Hin. set (df0 := init input) in *. clearbody df0.
    revert Hnan HIn. induction H as [| a b df1 out1 (Hab & Hr) _ IH];
      intros Hnan HIn; simpl in HIn; [contradiction |].
    destruct HIn as [<- | HIn].
    + rewrite Hr; [apply Hnan; left; reflexivity |].
      destruct Hab as (Hi' & Hw' & _). apply sel2_key. split; congruence.
    + apply IH; [| exact HIn]. intros x Hx. apply Hnan. right. exact Hx.
Qed.

Lemma wave_without_arrears_witness :
  (forall x, In x scenario_no_arrear -> in_id x = 1 -> in_wave x = 1 ->
             in_amount_owed x = NaN)
  /\ allocate (init scenario_no_arrear) 1 1
     = Ok (init scenario_no_arrear, None)
  /\ (forall r, In r (init scenario_no_arrear) -> r2w r = NaN)
  /\ (forall df, Forall2 same_inputs (init scenario_no_arrear) df ->
                 exists df', process_wave 1 1 df = Ok df')
  /\ (forall out, shares_df scenario_no_arrear = Ok out ->
                  forall r, In r out -> id r = 1 -> wave r = 1 ->
                            r2w r = NaN).
Proof.
  assert (H : forall x, In x scenario_no_arrear -> in_id x = 1 ->
                        in_wave x = 1 -> in_amount_owed x = NaN).
  { intros x [<- | [<- | []]]; reflexivity. }
  split; [exact H |].
  apply (wave_without_arrears scenario_no_arrear 1 1 H).
Defined.

(** ** The allocator reads only columns that are never written *)

Lemma find_sel3_ext (i w d : Z) (df df' : DataFrame) :
  Forall2 same_inputs df df' ->
  match find (sel3 i w d) df, find (sel3 i w d) df' with
  | Some r, Some r' => same_inputs r r'
  | None, None => True
  | _, _ => False
  end.
Proof.
  intros H. induction H as [| r r' df df' Hr _ IH]; simpl; [exact I |].
  rewrite (same_inputs_sel3 _ _ _ _ _ Hr).
  destruct (sel3 i w d r); [exact Hr | exact IH].
Qed.

Lemma loc3_ext (i w d : Z) (df df' : DataFrame) :
  Forall2 same_inputs df df' ->
  (loc3 df i w d = Raise KeyError /\ loc3 df' i w d = Raise KeyError)
  \/ (exists r r', loc3 df i w d = Ok r /\ loc3 df' i w d = Ok r'
                   /\ same_inputs r r').
Proof.
  intros H. pose proof (find_sel3_ext i w d _ _ H) as Hf. unfold loc3.
  destruct (find (sel3 i w d) df) as [r |],
           (find (sel3 i w d) df') as [r' |]; try contradiction.
  - right. eauto.
  - left. auto.
Qed.

Lemma fuel_of_ext (df df' : DataFrame) (L : ledger) :
  Forall2 same_inputs df df' -> fuel_of df' L = fuel_of df L.
Proof.
  intros H. unfold fuel_of, last_modate.
  rewrite (Forall2_map_eq same_inputs modate _ _
             (fun x y (Hxy : same_inputs x y) =>
                proj1 (proj2 (proj2 Hxy))) H).
  reflexivity.
Qed.

Lemma while_loop_ext (i w : Z) (df df' : DataFrame) :
  Forall2 same_inputs df df' ->
  forall n L rest share,
    while_loop n df' i w L rest share = while_loop n df i w L rest share.
Proof.
  intros H. induction n as [| n IH]; intros L rest share; simpl;
    destruct (fgtb rest (fa L)); try reflexivity;
    destruct (loc3_ext i w (fa_date L + 1) _ _ H)
      as [[-> ->] | (r & r' & -> & -> & Hr)]; simpl; try reflexivity.
  destruct Hr as (_ & _ & _ & _ & -> & _ & _ & _ & ->). apply IH.
Qed.

Lemma repay_ext (i w : Z) (df df' : DataFrame) (L : ledger) (R : float) :
  Forall2 same_inputs df df' -> repay df' i w L R = repay df i w L R.
Proof.
  intros H. unfold repay.
  rewrite (fuel_of_ext _ _ _ H), (while_loop_ext _ _ _ _ H). reflexivity.
Qed.

Lemma NoDup_map_In_eq {A B : Type} (f : A -> B) (l : list A) (x y : A) :
  NoDup (map f l) -> In x l -> In y l -> f x = f y -> x = y.
Proof.
  induction l as [| a l IH]; simpl; intros Hnd Hx Hy Hf; [contradiction |].
  inversion Hnd as [| ? ? Hnot Hnd']; subst.
  destruct Hx as [-> | Hx], Hy as [-> | Hy]; auto.
  - exfalso. apply Hnot. rewrite Hf. apply in_map. exact Hy.
  - exfalso. apply Hnot. rewrite <- Hf. apply in_map. exact Hx.
Qed.

Lemma loc3_unique (df : DataFrame) (i w : Z) (r0 : row) :
  NoDup (map modate (loc2 df i w)) ->
  In r0 (loc2 df i w) ->
  loc3 df i w (modate r0) = Ok r0.
Proof.
  intros Hnd HIn. unfold loc3.
  pose proof HIn as HIn'. unfold loc2 in HIn'.
  apply filter_In in HIn' as [HIn0 Hsel0].
  destruct (find (sel3 i w (modate r0)) df) as [r |] eqn:E.
  - apply find_some in E as [HInr Hsel]. f_equal.
    apply sel3_key in Hsel as (Hi & Hw & Hd).
    apply (NoDup_map_In_eq modate (loc2 df i w)); auto.
    unfold loc2. apply filter_In. split; [exact HInr |].
    apply sel2_key. auto.
  - exfalso. apply (find_none _ _ E) in HIn0.
    apply sel2_key in Hsel0 as [Hi Hw].
    assert (sel3 i w (modate r0) r0 = true)
      by (apply sel3_key; auto).
    congruence.
Qed.

Lemma repay_loop_repay_all (i w : Z) (df : DataFrame) :
  NoDup (map modate (loc2 df i w)) ->
  forall (rows : DataFrame) (cur : DataFrame) (L : ledger),
    (forall r0, In r0 rows -> In r0 (loc2 df i w)) ->
    Forall2 same_inputs df cur ->
    match repay_loop cur i w (map modate rows) L with
    | Ok (_, L') =>
        exists ss, repay_all df i w (map amount_repaid rows) L = Ok (ss, L')
    | Raise e => repay_all df i w (map amount_repaid rows) L = Raise e
    end.
Proof.
  intros Hnd. induction rows as [| r0 rows IH]; intros cur L Hsub Hrel;
    simpl; [eauto |].
  assert (Hloc : loc3 df i w (modate r0) = Ok r0)
    by (apply loc3_unique; [exact Hnd | apply Hsub; left; reflexivity]).
  destruct (loc3_ext i w (modate r0) _ _ Hrel)
    as [[H1 _] | (r & r' & H1 & H2 & Hr)]; [congruence |].
  rewrite Hloc in H1. injection H1 as <-. rewrite H2. simpl.
  destruct Hr as (_ & _ & _ & _ & _ & -> & _).
  rewrite (repay_ext _ _ _ _ _ _ Hrel).
  destruct (repay df i w L (amount_repaid r0)) as [[L1 s] |] eqn:E; simpl;
    [| destruct e; reflexivity].
  specialize (IH (assign_scalar (sel3 i w (modate r0)) set_r2w s cur) L1).
  match type of IH with
  | ?A -> ?B -> _ =>
      assert (HA : A) by (intros x Hx; apply Hsub; right; exact Hx);
      assert (HB : B)
  end.
  { eapply Forall2_compose; [apply same_inputs_trans | exact Hrel |].
    apply assign_scalar_Forall2; [apply same_inputs_refl |].
    intros; unfold same_inputs; simpl; repeat split. }
  specialize (IH HA HB).
  destruct (repay_loop _ i w (map modate rows) L1) as [[df' L'] | e].
  - destruct IH as [ss ->]. simpl. eauto.
  - rewrite IH. reflexivity.
Qed.

Lemma allocate_repay_all (i w : Z) (df : DataFrame) :
  NoDup (map modate (loc2 df i w)) ->
  match allocate df i w with
  | Ok (_, Some L') =>
      exists L ss, first_arrear df i w = Ok (Some L)
                   /\ repay_all df i w (repaid df i w) L = Ok (ss, L')
  | Ok (_, None) => first_arrear df i w = Ok None
  | Raise e =>
      first_arrear df i w = Raise e
      \/ exists L, first_arrear df i w = Ok (Some L)
                   /\ repay_all df i w (repaid df i w) L = Raise e
  end.
Proof.
  intros Hnd. unfold allocate.
  destruct (first_arrear df i w) as [[L |] | e]; simpl; auto.
  pose proof (repay_loop_repay_all i w df Hnd
                (dropna amount_repaid (loc2 df i w)) df L) as H.
  unfold repaid.
  destruct (repay_loop df i w _ L) as [[df' L'] | e]; simpl.
  - destruct H as [ss Hss].
    + intros r0 Hr0. unfold dropna in Hr0. apply filter_In in Hr0. tauto.
    + apply Forall2_refl_on. apply same_inputs_refl.
    + eauto.
  - right. exists L. split; [reflexivity |]. apply H.
    + intros r0 Hr0. unfold dropna in Hr0. apply filter_In in Hr0. tauto.
    + apply Forall2_refl_on. apply same_inputs_refl.
Qed.

(** ** The invariant of the ledger *)

Lemma fsum_Fin_app (l1 l2 : list float) :
  forall x1 x2,
    fsum l1 = Fin x1 -> fsum l2 = Fin x2 ->
    exists y, fsum (l1 ++ l2) = Fin y /\ (y == x1 + x2)%Q.
Proof.
  induction l1 as [| a l1 IH]; intros x1 x2 H1 H2; simpl in *.
  - injection H1 as <-. exists x2. split; [exact H2 | lra].
  - destruct a as [| | | a']; try discriminate;
      destruct (fsum l1) as [| | | s] eqn:E; try discriminate.
    simpl in H1. injection H1 as <-.
    destruct (IH s x2 eq_refl H2) as (y & -> & Hy).
    simpl. eexists. split; [reflexivity | lra].
Qed.

Lemma index_min_spec (l : list Z) (m : Z) :
  index_min l = Some m -> In m l /\ forall x, In x l -> m <= x.
Proof.
  destruct l as [| a l]; simpl; [discriminate |].
  intros H. injection H as <-. revert a.
  induction l as [| b l IH]; intros a; simpl.
  - split; [auto | intros x [-> | []]; lia].
  - destruct (IH (Z.min a b)) as [HIn Hle].
    set (m := fold_left Z.min l (Z.min a b)) in *. clearbody m. split.
    + destruct HIn as [H | H]; [| auto].
      destruct (Z.min_spec a b) as [[_ E] | [_ E]]; rewrite E in H; auto.
    + pose proof (Hle (Z.min a b) (or_introl eq_refl)) as Hm.
      intros x [<- | [<- | Hx]]; [lia | lia |].
      apply Hle. right. exact Hx.
Qed.

Lemma Qsum_nonneg (l : list Q) :
  Forall (fun x => (0 <= x)%Q) l -> (0 <= Qsum l)%Q.
Proof.
  induction 1 as [| x l Hx _ IH]; simpl; lra.
Qed.

Section Wave.

Variables (df : DataFrame) (i w : Z).
Hypothesis Hok : wave_ok df i w.

Lemma wave_owed (r : row) :
  In r (loc2 df i w) -> owed r = Fin (owedQ r) /\ (0 <= owedQ r)%Q.
Proof.
  intros HIn. destruct Hok as [_ Hall].
  rewrite Forall_forall in Hall. destruct (Hall r HIn) as [Ho _].
  unfold owed, owedQ. destruct (amount_owed r); simpl in *;
    try contradiction; split; try reflexivity; lra.
Qed.

Lemma wave_fsum_owed (l : DataFrame) :
  (forall r, In r l -> In r (loc2 df i w)) ->
  fsum (map owed l) = Fin (Qsum (map owedQ l))
  /\ (0 <= Qsum (map owedQ l))%Q.
Proof.
  induction l as [| r l IH]; intros Hsub; simpl.
  - split; [reflexivity | lra].
  - destruct (wave_owed r) as [-> Hr]; [apply Hsub; left; reflexivity |].
    destruct IH as [-> Hl]; [intros x Hx; apply Hsub; right; exact Hx |].
    split; [reflexivity | lra].
Qed.

Lemma laterQ_nonneg (d : Z) : (0 <= laterQ df i w d)%Q.
Proof.
  unfold laterQ. apply wave_fsum_owed.
  intros r Hr. apply filter_In in Hr. tauto.
Qed.

Lemma loc3_in_wave (d : Z) (r : row) :
  loc3 df i w d = Ok r -> In r (loc2 df i w) /\ modate r = d.
Proof.
  intros H. apply loc3_Ok_In in H as [HIn Hsel].
  apply sel3_key in Hsel as (Hi & Hw & Hd). split; [| exact Hd].
  unfold loc2. apply filter_In. split; [exact HIn |].
  apply sel2_key. auto.
Qed.

(** The arrears after month [d] are the arrear of month [d + 1] and the
    arrears after month [d + 1]. *)
Lemma Qsum_later_step (l : DataFrame) (d : Z) (r : row) :
  NoDup (map modate l) -> In r l -> modate r = d + 1 ->
  (Qsum (map owedQ (filter (fun x => d <? modate x) l))
   == owedQ r + Qsum (map owedQ (filter (fun x => d + 1 <? modate x) l)))%Q.
Proof.
  induction l as [| a l IH]; intros Hnd HIn Hd; [contradiction |].
  simpl in Hnd. inversion Hnd as [| ? ? Hnot Hnd']; subst.
  destruct HIn as [-> | HIn].
  - simpl. rewrite Hd.
    replace (d <? d + 1) with true by (symmetry; apply Z.ltb_lt; lia).
    replace (d + 1 <? d + 1) with false by (symmetry; apply Z.ltb_ge; lia).
    simpl.
    rewrite (filter_ext_in (fun x => d <? modate x)
                           (fun x => d + 1 <? modate x)); [lra |].
    intros x Hx.
    assert (modate x <> d + 1).
    { intros E. apply Hnot. rewrite Hd, <- E. apply in_map. exact Hx. }
    destruct (d <? modate x) eqn:E1, (d + 1 <? modate x) eqn:E2;
      try reflexivity;
      rewrite ?Z.ltb_lt, ?Z.ltb_ge in E1, E2; lia.
  - assert (modate a <> d + 1).
    { intros E. apply Hnot. rewrite E, <- Hd. apply in_map. exact HIn. }
    specialize (IH Hnd' HIn Hd). simpl.
    destruct (d <? modate a) eqn:E1, (d + 1 <? modate a) eqn:E2;
      rewrite ?Z.ltb_lt, ?Z.ltb_ge in E1, E2; try lia; simpl; lra.
Qed.

Lemma laterQ_step (d : Z) (r : row) :
  loc3 df i w (d + 1) = Ok r ->
  (laterQ df i w d == owedQ r + laterQ df i w (d + 1))%Q.
Proof.
  intros H. apply loc3_in_wave in H as [HIn Hd].
  unfold laterQ. apply Qsum_later_step; [apply Hok | exact HIn | exact Hd].
Qed.

Lemma Qsum_skip_before (l : DataFrame) (d : Z) :
  (forall x, In x l -> modate x <> d) ->
  (forall x, In x l -> modate x < d -> owedQ x = 0%Q) ->
  (Qsum (map owedQ l)
   == Qsum (map owedQ (filter (fun x => d <? modate x) l)))%Q.
Proof.
  induction l as [| b l IH]; intros Hne Hbefore; simpl; [lra |].
  assert (Hl : (Qsum (map owedQ l)
                == Qsum (map owedQ (filter (fun x => d <? modate x) l)))%Q).
  { apply IH; intros x Hx; [apply Hne | apply Hbefore]; right; exact Hx. }
  assert (Hb : modate b <> d) by (apply Hne; left; reflexivity).
  destruct (d <? modate b) eqn:E; simpl; [lra |].
  apply Z.ltb_ge in E.
  rewrite (Hbefore b) by (simpl; auto; lia). lra.
Qed.

(** The accrued arrears are the arrear of the first month with an arrear
    and the arrears of the later months. *)
Lemma Qsum_first (l : DataFrame) (d : Z) (r : row) :
  NoDup (map modate l) -> In r l -> modate r = d ->
  (forall x, In x l -> modate x < d -> owedQ x = 0%Q) ->
  (Qsum (map owedQ l)
   == owedQ r + Qsum (map owedQ (filter (fun x => d <? modate x) l)))%Q.
Proof.
  induction l as [| a l IH]; intros Hnd HIn Hd Hbefore; [contradiction |].
  simpl in Hnd. inversion Hnd as [| ? ? Hnot Hnd']; subst.
  assert (Hrec : forall x, In x l -> modate x < modate r -> owedQ x = 0%Q)
    by (intros x Hx; apply Hbefore; right; exact Hx).
  destruct HIn as [-> | HIn].
  - simpl. replace (modate r <? modate r) with false
      by (symmetry; apply Z.ltb_ge; lia).
    rewrite <- Qsum_skip_before; [lra | | exact Hrec].
    intros x Hx E. apply Hnot. rewrite <- E. apply in_map. exact Hx.
  - assert (modate a <> modate r).
    { intros E. apply Hnot. rewrite E. apply in_map. exact HIn. }
    specialize (IH Hnd' HIn eq_refl Hrec). simpl.
    destruct (modate r <? modate a) eqn:E; simpl; [lra |].
    apply Z.ltb_ge in E.
    rewrite (Hbefore a) by (simpl; auto; lia). lra.
Qed.

Lemma ledger_inv_eq (L : ledger) (c c' : Q) :
  (c == c')%Q -> ledger_inv df i w L c -> ledger_inv df i w L c'.
Proof.
  intros Hc [H | (f & Hf & Hpos & Heq)]; [left; exact H | right].
  exists f. split; [exact Hf |]. split; [exact Hpos | lra].
Qed.

Lemma first_arrear_inv (L0 : ledger) :
  first_arrear df i w = Ok (Some L0) ->
  exists a, fa L0 = Fin a /\ ledger_inv df i w L0 0.
Proof.
  unfold first_arrear.
  destruct (index_min (map modate (dropna amount_owed (loc2 df i w))))
    as [d0 |] eqn:Emin; [| discriminate].
  intros H. inv_bind H. injection H as <-. rename a into r.
  apply index_min_spec in Emin as [HIn Hmin].
  apply in_map_iff in HIn as (r1 & Hd1 & Hr1).
  unfold dropna in Hr1. apply filter_In in Hr1 as [Hr1 Hnan1].
  pose proof (loc3_unique df i w r1 (proj1 Hok) Hr1) as Hloc.
  rewrite Hd1 in Hloc. rewrite Hloc in E. injection E as <-.
  destruct Hok as [Hnd Hall]. rewrite Forall_forall in Hall.
  destruct (Hall r1 Hr1) as [Ho _].
  destruct (amount_owed r1) as [| | | a] eqn:Ea; simpl in *;
    try discriminate; try contradiction.
  exists a. split; [reflexivity |]. right. simpl.
  exists a. split; [reflexivity |]. split; [exact Ho |].
  unfold laterQ.
  rewrite (Qsum_first (loc2 df i w) d0 r1 Hnd Hr1 Hd1).
  - unfold owedQ at 2. rewrite Ea. simpl. lra.
  - intros x Hx Hlt. unfold owedQ.
    destruct (amount_owed x) as [| | | b] eqn:Eb; try reflexivity.
    exfalso.
    assert (HIn : In (modate x)
                     (map modate (dropna amount_owed (loc2 df i w)))).
    { apply in_map. unfold dropna. apply filter_In.
      split; [exact Hx |]. rewrite Eb. reflexivity. }
    apply Hmin in HIn. lia.
Qed.

Lemma while_loop_inv (n : nat) :
  forall (L : ledger) (q : Q) (share : float) (c : Q)
         (L' : ledger) (rest' share' : float),
    ledger_inv df i w L c ->
    while_loop n df i w L (Fin q) share = Ok (L', rest', share') ->
    exists q' c',
      rest' = Fin q' /\ ledger_inv df i w L' c'
      /\ (c' + q' == c + q)%Q
      /\ fgtb (Fin q') (fa L') = false
      /\ exists x, fsum (while_debits n df i w L (Fin q)) = Fin x
                   /\ (x == q)%Q.
Proof.
  assert (Hexit : forall (L : ledger) (q : Q) (c : Q),
             ledger_inv df i w L c -> fgtb (Fin q) (fa L) = false ->
             exists q' c',
               Fin q = Fin q' /\ ledger_inv df i w L c'
               /\ (c' + q' == c + q)%Q
               /\ fgtb (Fin q') (fa L) = false
               /\ exists x, fsum [Fin q] = Fin x /\ (x == q)%Q).
  { intros L q c Hinv G. exists q, c. split; [reflexivity |].
    split; [exact Hinv |]. split; [lra |]. split; [exact G |].
    simpl. eexists. split; [reflexivity | lra]. }
  induction n as [| n IH]; intros L q share c L' rest' share' Hinv H;
    cbn [while_loop while_debits] in H |- *;
    destruct (fgtb (Fin q) (fa L)) eqn:G.
  - destruct (loc3 df i w (fa_date L + 1)); cbn [bind] in H;
      discriminate H.
  - injection H as <- <- <-. apply Hexit; assumption.
  - destruct (loc3 df i w (fa_date L + 1)) as [r |] eqn:Eloc;
      cbn [bind] in H; [| discriminate H].
    destruct Hinv as [Hnan | (f & Hf & Hpos & Heq)].
    { rewrite Hnan in G. simpl in G. discriminate G. }
    rewrite Hf in H |- *. cbn [fsub fopp fadd] in H.
    destruct (loc3_in_wave _ _ Eloc) as [HrW _].
    assert (Hinv1 : ledger_inv df i w
                      (mkLedger (fa_date L + 1) (amount_owed r) (supp_wage r))
                      (c + f)).
    { destruct Hok as [_ Hall]. rewrite Forall_forall in Hall.
      destruct (Hall r HrW) as [Ho _].
      pose proof (laterQ_step _ _ Eloc) as Hstep. unfold owedQ in Hstep.
      destruct (amount_owed r) as [| | | a] eqn:Ea; simpl in Ho;
        try contradiction; [left; reflexivity | right].
      exists a. simpl in *. split; [reflexivity |].
      split; [exact Ho | lra]. }
    destruct (IH _ _ _ _ _ _ _ Hinv1 H)
      as (q' & c' & Hrest & Hinv' & Hc & G' & x & Hx & Hxq).
    exists q', c'. split; [exact Hrest |]. split; [exact Hinv' |].
    split; [lra |]. split; [exact G' |].
    simpl. rewrite Hx. simpl. eexists. split; [reflexivity | lra].
  - injection H as <- <- <-. apply Hexit; assumption.
Qed.

Lemma repay_inv (L : ledger) (q c : Q) (L' : ledger) (s : float) :
  ledger_inv df i w L c ->
  repay df i w L (Fin q) = Ok (L', s) ->
  ledger_inv df i w L' (c + q)
  /\ exists x, fsum (repay_debits df i w L (Fin q)) = Fin x /\ (x == q)%Q.
Proof.
  intros Hinv H. unfold repay in H. inv_bind H.
  destruct a as [[L1 rest1] share1]. injection H as <- <-.
  destruct (while_loop_inv _ _ _ _ _ _ _ _ Hinv E)
    as (q' & c' & -> & Hinv' & Hc & G & Hdeb).
  split; [| exact Hdeb].
  destruct Hinv' as [Hnan | (f & Hf & Hpos & Heq)].
  - left. simpl. rewrite Hnan. reflexivity.
  - right. simpl. rewrite Hf in G |- *. simpl in G.
    apply Qltb_ge in G. exists (f + - q')%Q.
    split; [reflexivity |]. split; lra.
Qed.

Lemma repay_all_inv (Rs : list float) :
  forall (L : ledger) (c : Q) (ss : list float) (L' : ledger),
    ledger_inv df i w L c ->
    Forall (fun R => exists q, R = Fin q) Rs ->
    repay_all df i w Rs L = Ok (ss, L') ->
    ledger_inv df i w L' (c + Qsum (map Qof Rs))
    /\ exists x, fsum (debits_all df i w Rs L) = Fin x
                 /\ (x == Qsum (map Qof Rs))%Q.
Proof.
  induction Rs as [| R Rs IH]; intros L c ss L' Hinv Hnum H; simpl in H.
  - injection H as <- <-. simpl. split.
    + apply (ledger_inv_eq L c); [lra | exact Hinv].
    + exists 0%Q. split; [reflexivity | lra].
  - inversion Hnum as [| ? ? [q ->] Hnum']; subst.
    inv_bind H. destruct a as [L1 s]. simpl in H. inv_bind H.
    destruct a as [ss1 L2]. simpl in H. injection H as <- <-.
    destruct (repay_inv _ _ _ _ _ Hinv E) as [Hinv1 (x1 & Hx1 & Hq1)].
    destruct (IH _ _ _ _ Hinv1 Hnum' E0) as [Hinv2 (x2 & Hx2 & Hq2)].
    simpl. split.
    + apply (ledger_inv_eq L2 (c + q + Qsum (map Qof Rs))); [lra |].
      exact Hinv2.
    + rewrite E. simpl.
      destruct (fsum_Fin_app _ _ _ _ Hx1 Hx2) as (y & Hy & Hyq).
      exists y. split; [exact Hy | lra].
Qed.

Lemma repaid_numbers :
  Forall (fun R => exists q, R = Fin q) (repaid df i w).
Proof.
  unfold repaid, dropna. apply Forall_forall. intros R HIn.
  apply in_map_iff in HIn as (r & <- & Hr).
  apply filter_In in Hr as [Hr Hnan].
  destruct Hok as [_ Hall]. rewrite Forall_forall in Hall.
  destruct (Hall r Hr) as [_ Hn].
  destruct (amount_repaid r) as [| | | q]; simpl in *;
    try discriminate; try contradiction. eauto.
Qed.

End Wave.


Lemma allocate_inv (df df' : DataFrame) (i w : Z) (L : ledger) :
  wave_ok df i w ->
  allocate df i w = Ok (df', Some L) ->
  ledger_inv df i w L (Qsum (map Qof (repaid df i w)))
  /\ exists x, fsum (consumed df i w) = Fin x
               /\ (x == Qsum (map Qof (repaid df i w)))%Q.
Proof.
  intros Hok H.
  pose proof (allocate_repay_all i w df (proj1 Hok)) as Hall.
  rewrite H in Hall. destruct Hall as (L0 & ss & Hfirst & Hrun).
  destruct (first_arrear_inv df i w Hok L0 Hfirst) as (a & _ & Hinv0).
  destruct (repay_all_inv df i w Hok _ _ _ _ _ Hinv0
              (repaid_numbers df i w Hok) Hrun) as [Hinv Hdeb].
  split.
  - apply (ledger_inv_eq df i w L (0 + Qsum (map Qof (repaid df i w))));
      [lra | exact Hinv].
  - unfold consumed. rewrite Hfirst. exact Hdeb.
Qed.

(** ** C4: conservation *)

(** C4 (as the code has it).  Take a wave in contract (distinct months,
    arrears absent or non-negative, repayments absent or numbers) whose
    allocation completes with a defined amount in the ledger, that is,
    whose cursor never came onto a month without arrear.  Then the amounts
    taken from the arrears over all repayments do not exceed the arrears
    accrued in the wave, and the unresolved balance of the ledger after the
    last repayment is the accrued arrears minus what was taken, and is not
    negative. *)
Theorem conservation (df df' : DataFrame) (i w : Z) (L : ledger) :
  wave_ok df i w ->
  allocate df i w = Ok (df', Some L) ->
  isnan (fa L) = false ->
  exists c a b : Q,
    fsum (consumed df i w) = Fin c
    /\ accrued df i w = Fin a
    /\ balance df i w L = Fin b
    /\ (c <= a)%Q /\ (b == a - c)%Q /\ (0 <= b)%Q.
Proof.
  intros Hok H Hnan.
  destruct (allocate_inv _ _ _ _ _ Hok H) as [Hinv (x & Hx & Hxq)].
  destruct Hinv as [E | (f & Hf & Hpos & Heq)];
    [rewrite E in Hnan; discriminate Hnan |].
  pose proof (laterQ_nonneg df i w Hok (fa_date L)) as Hlater.
  exists x, (Qsum (map owedQ (loc2 df i w))),
         (f + laterQ df i w (fa_date L))%Q.
  split; [exact Hx |]. split.
  { unfold accrued. apply (wave_fsum_owed df i w Hok). auto. }
  split.
  { unfold balance. rewrite Hf.
    destruct (wave_fsum_owed df i w Hok
                (filter (fun r => fa_date L <? modate r) (loc2 df i w)))
      as [-> _]; [| reflexivity].
    intros r Hr. apply filter_In in Hr. tauto. }
  split; [lra |]. split; lra.
Qed.

Lemma conservation_witness :
  let df := init scenario1 in
  exists df' L,
    wave_ok df 1 1
    /\ allocate df 1 1 = Ok (df', Some L)
    /\ isnan (fa L) = false
    /\ exists c a b : Q,
        fsum (consumed df 1 1) = Fin c
        /\ accrued df 1 1 = Fin a
        /\ balance df 1 1 L = Fin b
        /\ (c <= a)%Q /\ (b == a - c)%Q /\ (0 <= b)%Q.
Proof.
  intros df.
  assert (Hok : wave_ok df 1 1).
  { split.
    - simpl. repeat constructor; simpl; intuition discriminate.
    - simpl. repeat constructor; simpl; unfold Qle; simpl; lia. }
  do 2 eexists. split; [exact Hok |].
  split; [vm_compute; reflexivity |]. split; [reflexivity |].
  eapply (conservation df _ 1 1 _ Hok); [vm_compute |]; reflexivity.
Defined.

(** C4 fails as stated: in [scenario_excess] the arrear of 100 of month 1
    is followed by a month without arrear in which 130 is repaid.  The
    allocator takes 100 and then 30, more than the 100 accrued, and the
    balance of the ledger is [NaN]. *)
Lemma excess_breaks_conservation :
  exists df' L,
    allocate (init scenario_excess) 1 1 = Ok (df', Some L)
    /\ consumed (init scenario_excess) 1 1 = [Fin 100; Fin 30]
    /\ feq (fsum (consumed (init scenario_excess) 1 1)) (Fin 130)
    /\ feq (accrued (init scenario_excess) 1 1) (Fin 100)
    /\ fgtb (fsum (consumed (init scenario_excess) 1 1))
            (accrued (init scenario_excess) 1 1) = true
    /\ balance (init scenario_excess) 1 1 L = NaN.
Proof.
  do 2 eexists. split; [vm_compute; reflexivity |].
  repeat split; vm_compute; reflexivity.
Qed.

(** ** The loop does not depend on its fuel *)

Lemma fuel_of_enough (df : DataFrame) (L : ledger) :
  enough df (fuel_of df L) L.
Proof.
  intros r HIn. unfold fuel_of.
  pose proof (last_modate_ge_row df (fa_date L) r HIn).
  pose proof (last_modate_ge_start df (fa_date L)). lia.
Qed.

Lemma enough_advance (df : DataFrame) (n : nat) (L : ledger) (r : row) :
  enough df (S n) L -> enough df n (advance L r).
Proof.
  intros H x Hx. specialize (H x Hx). simpl. lia.
Qed.

Lemma enough_succ (df : DataFrame) (i w : Z) (n : nat) (L : ledger)
      (r : row) :
  enough df n L -> loc3 df i w (fa_date L + 1) = Ok r ->
  exists n', n = S n'.
Proof.
  intros H Hloc. apply loc3_Ok_In in Hloc as [HIn Hsel].
  apply sel3_key in Hsel as (_ & _ & Hd). specialize (H r HIn).
  destruct n as [| n']; [simpl in H; lia | eauto].
Qed.

Lemma while_loop_Ok_inv (n : nat) (df : DataFrame) (i w : Z) (L : ledger)
      (rest share : float) (res : ledger * float * float) :
  while_loop n df i w L rest share = Ok res ->
  (fgtb rest (fa L) = false /\ res = (L, rest, share))
  \/ (fgtb rest (fa L) = true
      /\ exists r n',
          n = S n' /\ loc3 df i w (fa_date L + 1) = Ok r
          /\ while_loop n' df i w (advance L r) (fsub rest (fa L))
                        (fadd share (fdiv (fa L) (fa_wage L))) = Ok res).
Proof.
  intros H. destruct (fgtb rest (fa L)) eqn:G.
  - right. split; [reflexivity |].
    destruct (loc3 df i w (fa_date L + 1)) as [r | e0] eqn:Eloc.
    + destruct n as [| n'].
      * simpl in H. rewrite G, Eloc in H. discriminate H.
      * rewrite (while_loop_turn _ _ _ _ _ _ _ _ G Eloc) in H.
        exists r, n'. auto.
    + pose proof (loc3_raise _ _ _ _ _ Eloc) as He. subst e0.
      rewrite (while_loop_KeyError _ _ _ _ _ _ _ G Eloc) in H.
      discriminate H.
  - left. rewrite (while_loop_exit _ _ _ _ _ _ _ G) in H.
    injection H as <-. auto.
Qed.


Lemma while_loop_fuel (df : DataFrame) (i w : Z) (n : nat) :
  forall (m : nat) (L : ledger) (rest share : float),
    enough df n L -> enough df m L ->
    while_loop n df i w L rest share = while_loop m df i w L rest share.
Proof.
  induction n as [| n IH]; intros m L rest share Hn Hm;
    destruct (fgtb rest (fa L)) eqn:G;
    try (rewrite !while_loop_exit by exact G; reflexivity);
    (destruct (loc3 df i w (fa_date L + 1)) as [r | e0] eqn:Eloc;
     [| pose proof (loc3_raise _ _ _ _ _ Eloc) as He; subst e0;
        rewrite !while_loop_KeyError by assumption; reflexivity]).
  - destruct (enough_succ _ _ _ _ _ _ Hn Eloc) as [n' Hn']. discriminate.
  - destruct (enough_succ _ _ _ _ _ _ Hm Eloc) as [m' ->].
    rewrite !(while_loop_turn _ _ _ _ _ _ _ _ G Eloc).
    apply IH; apply enough_advance; assumption.
Qed.

(** ** Arithmetic of the credits *)

Lemma fdiv_Fin_pos (x v : Q) :
  (0 < v)%Q -> fdiv (Fin x) (Fin v) = Fin (x / v).
Proof.
  intros Hv. simpl.
  replace (Qeqb v 0) with false; [reflexivity |].
  symmetry. apply Qeqb_neq. lra.
Qed.

Lemma Qdiv_sub (x y v : Q) :
  ~ (v == 0)%Q -> ((x + - y) / v == x / v - y / v)%Q.
Proof. intros Hv. field. exact Hv. Qed.

Lemma Qdiv_zero (x v : Q) : (x == 0)%Q -> (x / v == 0)%Q.
Proof. intros ->. unfold Qdiv. ring. Qed.

Lemma Qltb_proper (a b b' : Q) : (b' == b)%Q -> Qltb a b' = Qltb a b.
Proof.
  intros Hb. destruct (Qltb a b) eqn:E.
  - apply Qltb_lt in E. apply Qltb_lt. lra.
  - apply Qltb_ge in E. apply Qltb_ge. lra.
Qed.

Lemma fgtb_Fin_proper (q q' : Q) (x : float) :
  (q' == q)%Q -> fgtb (Fin q') x = fgtb (Fin q) x.
Proof.
  intros Hq. destruct x; simpl; try reflexivity.
  apply Qltb_proper. exact Hq.
Qed.

Lemma fsub_Fin_proper (x : float) (q q' : Q) :
  (q' == q)%Q -> feq (fsub x (Fin q')) (fsub x (Fin q)).
Proof.
  intros Hq. destruct x; simpl; auto. lra.
Qed.

Lemma fadd_feq_r (x y y' : float) :
  feq y y' -> feq (fadd x y) (fadd x y').
Proof.
  destruct x, y, y'; simpl; auto; try contradiction. intros H. lra.
Qed.

Lemma ledger_eq_trans (L1 L2 L3 : ledger) :
  ledger_eq L1 L2 -> ledger_eq L2 L3 -> ledger_eq L1 L3.
Proof.
  intros (Hd1 & Hf1 & Hw1) (Hd2 & Hf2 & Hw2).
  split; [congruence |]. split; [| congruence].
  eapply feq_trans; eassumption.
Qed.

(** ** A repayment paid in parts *)

Section Split.

Variables (df : DataFrame) (i w : Z).
Hypothesis Hok : wave_ok df i w.
Hypothesis Hw : wages_ok df i w.

Lemma advance_ok (L : ledger) (r : row) :
  loc3 df i w (fa_date L + 1) = Ok r -> ledger_ok (advance L r).
Proof.
  intros Hloc. apply (loc3_in_wave df i w) in Hloc as [HIn _].
  destruct Hok as [_ Hall]. rewrite Forall_forall in Hall.
  destruct (Hall r HIn) as [Ho _].
  unfold wages_ok in Hw. rewrite Forall_forall in Hw.
  split; [| exact (Hw r HIn)]. simpl.
  destruct (amount_owed r) as [| | | a]; simpl in Ho; try contradiction;
    [left; reflexivity | right; eauto].
Qed.

(** A turn of the loop in a ledger in contract, on numbers. *)
Lemma turn_ledger (L : ledger) (q : Q) :
  ledger_ok L -> fgtb (Fin q) (fa L) = true ->
  exists f v,
    fa L = Fin f /\ fa_wage L = Fin v /\ (0 <= f)%Q /\ (0 < v)%Q
    /\ (f < q)%Q.
Proof.
  intros [[Hnan | (f & Hf & Hpos)] (v & Hv & Hvpos)] G.
  - rewrite Hnan in G. discriminate G.
  - exists f, v. rewrite Hf in G. simpl in G. apply Qltb_lt in G.
    repeat split; auto.
Qed.

Lemma turn_values (L : ledger) (q a f v : Q) :
  fa L = Fin f -> fa_wage L = Fin v -> (0 < v)%Q ->
  fsub (Fin q) (fa L) = Fin (q + - f)
  /\ fadd (Fin a) (fdiv (fa L) (fa_wage L)) = Fin (a + f / v).
Proof.
  intros -> -> Hv. rewrite fdiv_Fin_pos by exact Hv. split; reflexivity.
Qed.

Lemma while_loop_numbers (n : nat) :
  forall (L : ledger) (q a : Q) (res : ledger * float * float),
    ledger_ok L ->
    while_loop n df i w L (Fin q) (Fin a) = Ok res ->
    exists L1 q1 a1,
      res = (L1, Fin q1, Fin a1) /\ ledger_ok L1
      /\ fgtb (Fin q1) (fa L1) = false /\ fa_date L <= fa_date L1.
Proof.
  induction n as [| n IH]; intros L q a res HL H;
    apply while_loop_Ok_inv in H
      as [[G ->] | (G & r & n' & Hn & Eloc & H)].
  - exists L, q, a. repeat split; auto; try apply HL. lia.
  - discriminate Hn.
  - exists L, q, a. repeat split; auto; try apply HL. lia.
  - injection Hn as <-.
    destruct (turn_ledger L q HL G) as (f & v & Hf & Hv & _ & Hvpos & _).
    destruct (turn_values L q a f v Hf Hv Hvpos) as [E1 E2].
    rewrite E1, E2 in H.
    destruct (IH _ _ _ _ (advance_ok L r Eloc) H)
      as (L1 & q1 & a1 & -> & HL1 & G1 & Hd).
    exists L1, q1, a1. repeat split; auto; try apply HL1.
    simpl in Hd. lia.
Qed.

(** The loop started with an equal repayment and another share ends in the
    same ledger, with an equal remainder and the share shifted. *)
Lemma while_loop_shift (n : nat) :
  forall (L : ledger) (q q' a a' : Q) (L1 : ledger) (q1 a1 : Q),
    ledger_ok L -> (q' == q)%Q ->
    while_loop n df i w L (Fin q) (Fin a) = Ok (L1, Fin q1, Fin a1) ->
    exists q1' a1',
      while_loop n df i w L (Fin q') (Fin a') = Ok (L1, Fin q1', Fin a1')
      /\ (q1' == q1)%Q /\ (a1' - a' == a1 - a)%Q.
Proof.
  assert (Hexit : forall (L : ledger) (q q' a a' : Q) (m : nat),
             (q' == q)%Q -> fgtb (Fin q) (fa L) = false ->
             exists q1' a1',
               while_loop m df i w L (Fin q') (Fin a')
               = Ok (L, Fin q1', Fin a1')
               /\ (q1' == q)%Q /\ (a1' - a' == a - a)%Q).
  { intros L q q' a a' m Hq G. exists q', a'.
    rewrite while_loop_exit
      by (rewrite (fgtb_Fin_proper q q'); assumption).
    split; [reflexivity |]. split; [exact Hq | lra]. }
  induction n as [| n IH]; intros L q q' a a' L1 q1 a1 HL Hq H;
    apply while_loop_Ok_inv in H
      as [[G E] | (G & r & n' & Hn & Eloc & H)].
  - injection E as <- <- <-. apply Hexit; assumption.
  - discriminate Hn.
  - injection E as <- <- <-. apply Hexit; assumption.
  - injection Hn as <-.
    assert (G' : fgtb (Fin q') (fa L) = true)
      by (rewrite (fgtb_Fin_proper q q'); assumption).
    rewrite (while_loop_turn _ _ _ _ _ _ _ _ G' Eloc).
    destruct (turn_ledger L q HL G) as (f & v & Hf & Hv & _ & Hvpos & _).
    destruct (turn_values L q a f v Hf Hv Hvpos) as [E1 E2].
    destruct (turn_values L q' a' f v Hf Hv Hvpos) as [E1' E2'].
    rewrite E1, E2 in H. rewrite E1', E2'.
    destruct (IH (advance L r) (q + - f)%Q (q' + - f)%Q (a + f / v)%Q
                 (a' + f / v)%Q L1 q1 a1 (advance_ok L r Eloc))
      as (q1' & a1' & Hrun & Hq1 & Ha1); [lra | exact H |].
    exists q1', a1'. split; [exact Hrun |]. split; [exact Hq1 | lra].
Qed.

Lemma fgtb_Fin_smaller (q q1 : Q) (x : float) :
  (q1 <= q)%Q -> fgtb (Fin q) x = false -> fgtb (Fin q1) x = false.
Proof.
  intros Hle. destruct x; simpl; auto.
  intros G. apply Qltb_ge in G. apply Qltb_ge. lra.
Qed.

Lemma settle_ok (L : ledger) (r a : Q) :
  ledger_ok L -> fgtb (Fin r) (fa L) = false ->
  ledger_ok (fst (settle L (Fin r) (Fin a))).
Proof.
  intros [[Hnan | (f & Hf & Hpos)] Hwage] G; split; simpl; auto.
  - left. rewrite Hnan. reflexivity.
  - right. rewrite Hf in G |- *. simpl in G. apply Qltb_ge in G.
    exists (f + - r)%Q. split; [reflexivity | lra].
Qed.

(** Paying [q1] and then [q2] instead of [q = q1 + q2] at once. *)
Lemma while_loop_split (n : nat) :
  forall (L : ledger) (q q1 q2 a : Q) (L1 : ledger) (r1 a1 : Q),
    ledger_ok L -> (q == q1 + q2)%Q -> (0 <= q2)%Q -> enough df n L ->
    while_loop n df i w L (Fin q) (Fin a) = Ok (L1, Fin r1, Fin a1) ->
    exists La ra aa,
      while_loop n df i w L (Fin q1) (Fin a) = Ok (La, Fin ra, Fin aa)
      /\ ledger_ok La /\ fgtb (Fin ra) (fa La) = false
      /\ fa_date L <= fa_date La
      /\ forall m,
          enough df m (fst (settle La (Fin ra) (Fin aa))) ->
          exists Lb rb ab,
            while_loop m df i w (fst (settle La (Fin ra) (Fin aa)))
                       (Fin q2) (Fin 0)
            = Ok (Lb, Fin rb, Fin ab)
            /\ ledger_eq (fst (settle Lb (Fin rb) (Fin ab)))
                         (fst (settle L1 (Fin r1) (Fin a1)))
            /\ ((aa + ra / wageQ La - a) + (ab + rb / wageQ Lb)
                == a1 + r1 / wageQ L1 - a)%Q.
Proof.
  induction n as [| n IH]; intros L q q1 q2 a L1 r1 a1 HL Hq Hq2 Hn H;
    apply while_loop_Ok_inv in H
      as [[G E] | (G & r & n' & Hn' & Eloc & H)].
  1, 3: injection E as -> -> ->.
  1, 2: assert (G1 : fgtb (Fin q1) (fa L) = false)
      by (apply (fgtb_Fin_smaller q); [lra | exact G]).
  1, 2: exists L, q1, a; rewrite while_loop_exit by exact G1;
    (split; [reflexivity |]); (split; [exact HL |]);
    (split; [exact G1 |]); (split; [lia |]);
    intros m _;
    destruct HL as [Hfa (v & Hv & Hvpos)];
    assert (G2 : fgtb (Fin q2) (fsub (fa L) (Fin q1)) = false)
      by (destruct Hfa as [E | (f & E & Hf)]; rewrite E in G |- *;
          simpl; [reflexivity |];
          simpl in G; apply Qltb_ge in G; apply Qltb_ge; lra);
    exists (fst (settle L (Fin q1) (Fin a))), q2, 0%Q;
    rewrite while_loop_exit by exact G2;
    (split; [reflexivity |]); split;
    [ split; [reflexivity |]; split; [| reflexivity];
      simpl; destruct Hfa as [E | (f & E & Hf)]; rewrite E; simpl;
      [exact I | lra]
    | unfold wageQ; simpl; rewrite Hv; simpl; rewrite Hq; field; lra ].
  - discriminate Hn'.
  - injection Hn' as <-.
    destruct (turn_ledger L q HL G) as (f & v & Hf & Hv & Hfpos & Hvpos & Hlt).
    destruct (turn_values L q a f v Hf Hv Hvpos) as [E1 E2].
    rewrite E1, E2 in H.
    destruct (Qlt_le_dec f q1) as [Hq1 | Hq1].
    + (* the first part passes the month too *)
      assert (G1 : fgtb (Fin q1) (fa L) = true)
        by (rewrite Hf; simpl; apply Qltb_lt; exact Hq1).
      rewrite (while_loop_turn _ _ _ _ _ _ _ _ G1 Eloc).
      destruct (turn_values L q1 a f v Hf Hv Hvpos) as [E1' E2'].
      rewrite E1', E2'.
      destruct (IH (advance L r) (q + - f)%Q (q1 + - f)%Q q2 (a + f / v)%Q
                   L1 r1 a1 (advance_ok L r Eloc))
        as (La & ra & aa & Hrun & HLa & Ga & Hd & Hsecond);
        [lra | exact Hq2 | apply enough_advance; exact Hn | exact H |].
      exists La, ra, aa. split; [exact Hrun |]. split; [exact HLa |].
      split; [exact Ga |]. split; [simpl in Hd; lia |].
      intros m Hm. destruct (Hsecond m Hm) as (Lb & rb & ab & Hb & Heq & Hs).
      exists Lb, rb, ab. split; [exact Hb |]. split; [exact Heq | lra].
    + (* the first part stays in the month, the second part passes it *)
      assert (G1 : fgtb (Fin q1) (fa L) = false)
        by (rewrite Hf; simpl; apply Qltb_ge; exact Hq1).
      exists L, q1, a. rewrite while_loop_exit by exact G1.
      split; [reflexivity |]. split; [exact HL |]. split; [exact G1 |].
      split; [lia |]. intros m Hm.
      set (L' := fst (settle L (Fin q1) (Fin a))) in *.
      assert (G2 : fgtb (Fin q2) (fa L') = true)
        by (unfold L'; simpl; rewrite Hf; simpl; apply Qltb_lt; lra).
      assert (Eloc' : loc3 df i w (fa_date L' + 1) = Ok r) by exact Eloc.
      destruct (enough_succ _ _ _ _ _ _ Hm Eloc') as [m' ->].
      rewrite (while_loop_turn _ _ _ _ _ _ _ _ G2 Eloc').
      assert (Hfa' : fa L' = Fin (f + - q1))
        by (unfold L'; simpl; rewrite Hf; reflexivity).
      assert (Hv' : fa_wage L' = Fin v) by exact Hv.
      destruct (turn_values L' q2 0 (f + - q1) v Hfa' Hv' Hvpos)
        as [E1' E2'].
      rewrite E1', E2'.
      change (mkLedger (fa_date L' + 1) (amount_owed r) (supp_wage r))
        with (advance L r).
      rewrite (while_loop_fuel df i w n m') in H
        by (apply enough_advance; assumption).
      destruct (while_loop_shift m' (advance L r) (q + - f)%Q
                  (q2 + - (f + - q1))%Q (a + f / v)%Q
                  (0 + (f + - q1) / v)%Q L1 r1 a1 (advance_ok L r Eloc))
        as (q1' & a1' & Hrun & Hq1' & Ha1'); [lra | exact H |].
      exists L1, q1', a1'. split; [exact Hrun |]. split.
      * split; [reflexivity |]. split; [| reflexivity].
        simpl. apply fsub_Fin_proper. exact Hq1'.
      * unfold wageQ at 1. rewrite Hv. simpl Qof.
        rewrite Hq1'.
        assert (Hd : ((f + - q1) / v == f / v - q1 / v)%Q)
          by (apply Qdiv_sub; lra).
        rewrite Hd in Ha1'.
        set (x1 := (q1 / v)%Q) in *. set (x2 := (f / v)%Q) in *.
        set (x3 := (r1 / wageQ L1)%Q) in *. lra.
Qed.

Lemma repay_unfold (L : ledger) (R : float) :
  repay df i w L R
  = match while_loop (fuel_of df L) df i w L R (Fin 0) with
    | Ok (L', rest, share) => Ok (settle L' rest share)
    | Raise e => Raise e
    end.
Proof.
  unfold repay.
  destruct (while_loop (fuel_of df L) df i w L R (Fin 0))
    as [[[L' rest] share] | e]; reflexivity.
Qed.

Lemma settle_share (L : ledger) (r a : Q) :
  ledger_ok L ->
  snd (settle L (Fin r) (Fin a)) = Fin (a + r / wageQ L).
Proof.
  intros [_ (v & Hv & Hvpos)]. unfold wageQ, settle. cbn [snd].
  rewrite Hv. rewrite fdiv_Fin_pos by exact Hvpos. reflexivity.
Qed.

Lemma repay_split (L : ledger) (q q1 q2 : Q) (L1 : ledger) (s : float) :
  ledger_ok L -> (q == q1 + q2)%Q -> (0 <= q2)%Q ->
  repay df i w L (Fin q) = Ok (L1, s) ->
  exists La sa Lb sb,
    repay df i w L (Fin q1) = Ok (La, sa) /\ ledger_ok La
    /\ repay df i w La (Fin q2) = Ok (Lb, sb)
    /\ ledger_eq Lb L1 /\ feq (fadd sa sb) s.
Proof.
  intros HL Hq Hq2 H. rewrite repay_unfold in H.
  destruct (while_loop (fuel_of df L) df i w L (Fin q) (Fin 0))
    as [[[L1' r1f] a1f] | e] eqn:E; [| discriminate H].
  assert (H' : settle L1' r1f a1f = (L1, s)) by congruence. clear H.
  destruct (while_loop_numbers _ _ _ _ _ HL E)
    as (L1'' & r1 & a1 & E' & HL1 & _ & _).
  injection E' as <- -> ->.
  destruct (while_loop_split _ _ _ _ _ _ _ _ _ HL Hq Hq2
              (fuel_of_enough df L) E)
    as (La' & ra & aa & Hrun & HLa & Ga & _ & Hsecond).
  pose proof (settle_ok La' ra aa HLa Ga) as HLa2.
  destruct (Hsecond _ (fuel_of_enough df _))
    as (Lb' & rb & ab & Hb & Heq & Hs).
  destruct (while_loop_numbers _ _ _ _ _ HLa2 Hb)
    as (Lb'' & rb' & ab' & E' & HLb & _ & _).
  injection E' as <- _ _.
  exists (fst (settle La' (Fin ra) (Fin aa))),
         (snd (settle La' (Fin ra) (Fin aa))),
         (fst (settle Lb' (Fin rb) (Fin ab))),
         (snd (settle Lb' (Fin rb) (Fin ab))).
  split; [rewrite repay_unfold, Hrun; reflexivity |].
  split; [exact HLa2 |].
  split; [rewrite repay_unfold, Hb; reflexivity |].
  assert (HL1s : L1 = fst (settle L1' (Fin r1) (Fin a1)))
    by (rewrite H'; reflexivity).
  assert (Hss : s = snd (settle L1' (Fin r1) (Fin a1)))
    by (rewrite H'; reflexivity).
  split; [rewrite HL1s; exact Heq |].
  rewrite Hss, !settle_share by assumption. simpl. lra.
Qed.

Lemma repay_all_split (parts : list Q) :
  forall (L : ledger) (q : Q) (L1 : ledger) (s : float),
    ledger_ok L -> Forall (fun p => (0 <= p)%Q) parts ->
    (q == Qsum parts)%Q ->
    repay df i w L (Fin q) = Ok (L1, s) ->
    exists ss L2,
      repay_all df i w (map Fin parts) L = Ok (ss, L2)
      /\ length ss = length parts
      /\ ledger_eq L2 L1 /\ feq (fsum ss) s.
Proof.
  induction parts as [| p ps IH]; intros L q L1 s HL Hpos Hq H.
  - simpl in Hq. exists [], L. split; [reflexivity |].
    split; [reflexivity |].
    rewrite repay_unfold in H.
    assert (G : fgtb (Fin q) (fa L) = false).
    { destruct HL as [[E | (f & E & Hf)] _]; rewrite E; simpl;
        [reflexivity |]. apply Qltb_ge. lra. }
    rewrite while_loop_exit in H by exact G.
    assert (H' : settle L (Fin q) (Fin 0) = (L1, s)) by congruence.
    assert (HL1 : L1 = fst (settle L (Fin q) (Fin 0)))
      by (rewrite H'; reflexivity).
    assert (Hs : s = snd (settle L (Fin q) (Fin 0)))
      by (rewrite H'; reflexivity).
    rewrite Hs, HL1, settle_share by exact HL.
    destruct HL as [Hfa (v & Hv & Hvpos)]. split.
    + split; [reflexivity |]. split; [| reflexivity]. simpl.
      destruct Hfa as [E | (f & E & Hf)]; rewrite E; simpl; [exact I | lra].
    + simpl. rewrite (Qdiv_zero q _ Hq). lra.
  - inversion Hpos as [| ? ? Hp Hps]; subst. simpl in Hq.
    pose proof (Qsum_nonneg ps Hps) as Hsum.
    destruct (repay_split L q p (Qsum ps) L1 s HL Hq Hsum H)
      as (La & sa & Lb & sb & Ha & HLa & Hb & Heq & Hs).
    destruct (IH La (Qsum ps) Lb sb HLa Hps (Qeq_refl _) Hb)
      as (ss & L2 & Hall & Hlen & Heq2 & Hs2).
    exists (sa :: ss), L2. simpl. rewrite Ha. simpl. rewrite Hall. simpl.
    split; [reflexivity |]. split; [congruence |].
    split; [apply (ledger_eq_trans _ Lb); assumption |].
    apply (feq_trans _ (fadd sa sb)); [| exact Hs].
    apply fadd_feq_r. exact Hs2.
Qed.

Lemma while_debits_exit (n : nat) (L : ledger) (rest : float) :
  fgtb rest (fa L) = false -> while_debits n df i w L rest = [rest].
Proof. intros G. destruct n; simpl; rewrite G; reflexivity. Qed.

Lemma while_debits_turn (n : nat) (L : ledger) (rest : float) (r : row) :
  fgtb rest (fa L) = true -> loc3 df i w (fa_date L + 1) = Ok r ->
  while_debits (S n) df i w L rest
  = fa L :: while_debits n df i w (advance L r) (fsub rest (fa L)).
Proof. intros G Eloc. simpl. rewrite G, Eloc. reflexivity. Qed.

(** The amounts a repayment takes are non-negative and add up to it. *)
Lemma while_debits_parts (n : nat) :
  forall (L : ledger) (q a : Q) (res : ledger * float * float),
    ledger_ok L -> (0 <= q)%Q ->
    while_loop n df i w L (Fin q) (Fin a) = Ok res ->
    exists parts,
      while_debits n df i w L (Fin q) = map Fin parts
      /\ Forall (fun p => (0 <= p)%Q) parts /\ (Qsum parts == q)%Q.
Proof.
  induction n as [| n IH]; intros L q a res HL Hq H;
    apply while_loop_Ok_inv in H
      as [[G E] | (G & r & n' & Hn' & Eloc & H)].
  1, 3: exists [q]; rewrite while_debits_exit by exact G;
    (split; [reflexivity |]); split; [repeat constructor; exact Hq |];
    simpl; lra.
  - discriminate Hn'.
  - injection Hn' as <-.
    destruct (turn_ledger L q HL G) as (f & v & Hf & Hv & Hfpos & Hvpos & Hlt).
    destruct (turn_values L q a f v Hf Hv Hvpos) as [E1 E2].
    rewrite E1, E2 in H.
    assert (Hrest : (0 <= q + - f)%Q) by lra.
    destruct (IH _ _ _ _ (advance_ok L r Eloc) Hrest H)
      as (parts & Hparts & Hpos & Hsum).
    exists (f :: parts). rewrite (while_debits_turn _ _ _ _ G Eloc).
    rewrite E1, Hparts, Hf. split; [reflexivity |].
    split; [constructor; assumption |]. simpl. lra.
Qed.

End Split.

(** ** C8: one repayment against the same amount paid in parts *)

(** C8.  In a wave in contract with positive supposed wages, take a
    repayment [R] that [repay] distributes from the ledger [L], and the
    amounts [repay_debits] it takes from the successive months.  The loop
    over the repayments ([repay_all], which is what [repay_loop] computes,
    lemma [repay_loop_repay_all]) run from the same ledger on these amounts
    as separate repayments, in the same order, assigns one share to each
    of them; the shares add up to the share of [R], and the ledger it
    leaves has the same cursor, wage and remaining amount. *)
Theorem split_repayment (df : DataFrame) (i w : Z) (L : ledger) (q : Q)
        (L1 : ledger) (s : float) :
  wave_ok df i w -> wages_ok df i w -> ledger_ok L ->
  repay df i w L (Fin q) = Ok (L1, s) ->
  exists ss L2,
    repay_all df i w (repay_debits df i w L (Fin q)) L = Ok (ss, L2)
    /\ length ss = length (repay_debits df i w L (Fin q))
    /\ feq (fsum ss) s
    /\ ledger_eq L2 L1.
Proof.
  intros Hok Hw HL H.
  pose proof H as H0. rewrite (repay_unfold df i w) in H0.
  destruct (while_loop (fuel_of df L) df i w L (Fin q) (Fin 0))
    as [res | e] eqn:E; [| discriminate H0].
  destruct (fgtb (Fin q) (fa L)) eqn:G.
  - (* the repayment passes at least one month: it is positive *)
    destruct (turn_ledger L q HL G) as (f & _ & _ & _ & Hf & _ & Hlt).
    assert (Hq : (0 <= q)%Q) by lra.
    destruct (while_debits_parts df i w Hok Hw _ _ _ _ _ HL Hq E)
      as (parts & Hparts & Hpos & Hsum).
    unfold repay_debits. rewrite Hparts.
    assert (Hsum' : (q == Qsum parts)%Q) by lra.
    destruct (repay_all_split df i w Hok Hw parts L q L1 s HL Hpos Hsum' H)
      as (ss & L2 & Hall & Hlen & Heq & Hs).
    exists ss, L2. rewrite length_map. auto.
  - (* the repayment stays in the current month: it is its only part *)
    unfold repay_debits. rewrite (while_debits_exit df i w) by exact G.
    exists [s], L1. simpl. rewrite H. simpl.
    split; [reflexivity |]. split; [reflexivity |]. split.
    + rewrite while_loop_exit in E by exact G. injection E as E.
      subst res.
      assert (Hs : s = snd (settle L (Fin q) (Fin 0)))
        by (injection H0 as _ <-; reflexivity).
      rewrite Hs, settle_share by exact HL. simpl. lra.
    + split; [reflexivity |]. split; [apply feq_refl | reflexivity].
Qed.

Lemma split_repayment_witness :
  let df := init scenario1 in
  let L := mkLedger 1 (Fin 100) (Fin 300) in
  exists L1 s,
    wave_ok df 1 1 /\ wages_ok df 1 1 /\ ledger_ok L
    /\ repay df 1 1 L (Fin 130) = Ok (L1, s)
    /\ exists ss L2,
        repay_all df 1 1 (repay_debits df 1 1 L (Fin 130)) L = Ok (ss, L2)
        /\ length ss = length (repay_debits df 1 1 L (Fin 130))
        /\ feq (fsum ss) s
        /\ ledger_eq L2 L1.
Proof.
  intros df L.
  assert (Hok : wave_ok df 1 1).
  { split.
    - simpl. repeat constructor; simpl; intuition discriminate.
    - simpl. repeat constructor; simpl; unfold Qle; simpl; lia. }
  assert (Hw : wages_ok df 1 1).
  { unfold wages_ok. simpl. repeat constructor; eexists;
      (split; [reflexivity | reflexivity]). }
  assert (HL : ledger_ok L).
  { split; [right |]; eexists; (split; [reflexivity |]);
      unfold Qle, Qlt; simpl; lia. }
  do 2 eexists. split; [exact Hok |]. split; [exact Hw |].
  split; [exact HL |]. split; [vm_compute; reflexivity |].
  apply (split_repayment df 1 1 L 130 _ _ Hok Hw HL).
  vm_compute. reflexivity.
Defined.

(** The same on the rows of a frame: the 130 of [scenario1] repaid as 100
    in month 2 and 30 in month 3 leaves the same ledger, and the two
    shares add up to the share of the single repayment. *)
Example split_rows :
  exists df1 df2 L x y z,
    allocate (init scenario1) 1 1 = Ok (df1, Some L)
    /\ allocate (init scenario_split) 1 1 = Ok (df2, Some L)
    /\ cell r2w df1 1 1 2 = Ok x
    /\ cell r2w df2 1 1 2 = Ok y
    /\ cell r2w df2 1 1 3 = Ok z
    /\ feq (fadd y z) x.
Proof.
  do 6 eexists. split; [vm_compute; reflexivity |].
  split; [vm_compute; reflexivity |].
  split; [vm_compute; reflexivity |].
  split; [vm_compute; reflexivity |].
  split; [vm_compute; reflexivity |].
  vm_compute. reflexivity.
Qed.

(** * Further properties of [shares()] *)

(** ** The cumulative columns of a wave (lines 70-71, 112-119) *)

Lemma Forall2_filter (R : row -> row -> Prop) (sel : row -> bool)
      (df df' : DataFrame) :
  (forall r r', R r r' -> sel r' = sel r) ->
  Forall2 R df df' -> Forall2 R (filter sel df) (filter sel df').
Proof.
  intros Hsel H. induction H as [| r r' df df' Hr _ IH]; simpl;
    [constructor |].
  rewrite (Hsel _ _ Hr). destruct (sel r); [constructor |]; auto.
Qed.

Lemma only_r2w_refl (r : row) : only_r2w r r.
Proof. destruct r. reflexivity. Qed.

Lemma only_r2w_trans (r1 r2 r3 : row) :
  only_r2w r1 r2 -> only_r2w r2 r3 -> only_r2w r1 r3.
Proof.
  unfold only_r2w. intros H1 H2. rewrite H2, H1. destruct r1. reflexivity.
Qed.

Lemma only_r2w_same_inputs (r r' : row) : only_r2w r r' -> same_inputs r r'.
Proof.
  unfold only_r2w. intros ->. unfold same_inputs. simpl. repeat split.
Qed.

Lemma repay_loop_only_r2w (i w : Z) (dates : list Z) :
  forall (df df' : DataFrame) (L L' : ledger),
    repay_loop df i w dates L = Ok (df', L') -> Forall2 only_r2w df df'.
Proof.
  induction dates as [| date dates IH]; intros df df' L L' H; simpl in H.
  - injection H as <- <-. apply Forall2_refl_on. apply only_r2w_refl.
  - inv_bind H. inv_bind H. destruct a0 as [L1 share].
    apply IH in H.
    eapply Forall2_compose; [apply only_r2w_trans | | exact H].
    apply assign_scalar_Forall2; [apply only_r2w_refl |].
    intros r0 _. reflexivity.
Qed.

Lemma allocate_only_r2w (i w : Z) (df df' : DataFrame) (oL : option ledger) :
  allocate df i w = Ok (df', oL) -> Forall2 only_r2w df df'.
Proof.
  unfold allocate. intros H. inv_bind H. destruct a as [L |].
  - inv_bind H. destruct a as [df1 L1]. simpl in H. injection H as <- <-.
    eapply repay_loop_only_r2w. exact E0.
  - injection H as <- <-. apply Forall2_refl_on. apply only_r2w_refl.
Qed.

Lemma only_r2w_map {B : Type} (f : row -> B) (sel : row -> bool)
      (df df' : DataFrame) :
  (forall v r, f (set_r2w v r) = f r) ->
  (forall v r, sel (set_r2w v r) = sel r) ->
  Forall2 only_r2w df df' ->
  map f (filter sel df') = map f (filter sel df).
Proof.
  intros Hf Hsel H.
  apply (Forall2_map_eq only_r2w).
  - intros x y Hxy. rewrite Hxy. apply Hf.
  - apply Forall2_filter; [| exact H].
    intros x y Hxy. rewrite Hxy. apply Hsel.
Qed.

Lemma process_wave_columns (i w : Z) (df df' : DataFrame) :
  process_wave i w df = Ok df' -> wave_columns (loc2 df' i w).
Proof.
  unfold process_wave. intros H. inv_bind H. destruct a as [df2 oL].
  simpl in H. injection H as <-. apply allocate_only_r2w in E.
  unfold wave_columns, loc2 in *.
  set (df1 := assign (sel2 i w) set_cumsum_a2w
                     (cumsum (map a2w (filter (sel2 i w) df))) df) in *.
  assert (H1 : map cumsum_a2w (filter (sel2 i w) df1)
               = cumsum (map a2w (filter (sel2 i w) df))).
  { subst df1. apply map_filter_assign_set; auto.
    unfold cumsum. rewrite cumsum_from_length, length_map. reflexivity. }
  assert (H1a : map a2w (filter (sel2 i w) df1)
                = map a2w (filter (sel2 i w) df)).
  { subst df1. apply map_filter_assign_other; auto. }
  assert (H2 : map cumsum_a2w (filter (sel2 i w) df2)
               = map cumsum_a2w (filter (sel2 i w) df1))
    by (apply only_r2w_map; auto).
  assert (H2a : map a2w (filter (sel2 i w) df2)
                = map a2w (filter (sel2 i w) df1))
    by (apply only_r2w_map; auto).
  clearbody df1.
  set (v3 := cumsum (map r2w (filter (sel2 i w) df2))).
  set (df3 := assign (sel2 i w) set_cumsum_r2w v3 df2).
  assert (L3 : length v3 = length (filter (sel2 i w) df2)).
  { subst v3. unfold cumsum. rewrite cumsum_from_length, length_map.
    reflexivity. }
  assert (H3 : map cumsum_r2w (filter (sel2 i w) df3) = v3)
    by (subst df3; apply map_filter_assign_set; auto).
  assert (H3r : map r2w (filter (sel2 i w) df3)
                = map r2w (filter (sel2 i w) df2))
    by (subst df3; apply map_filter_assign_other; auto).
  assert (H3a : map a2w (filter (sel2 i w) df3)
                = map a2w (filter (sel2 i w) df2))
    by (subst df3; apply map_filter_assign_other; auto).
  assert (H3c : map cumsum_a2w (filter (sel2 i w) df3)
                = map cumsum_a2w (filter (sel2 i w) df2))
    by (subst df3; apply map_filter_assign_other; auto).
  assert (H3n : map net_share (filter (sel2 i w) df3)
                = map net_share (filter (sel2 i w) df2))
    by (subst df3; apply map_filter_assign_other; auto).
  assert (H3l : length (filter (sel2 i w) df3)
                = length (filter (sel2 i w) df2)).
  { rewrite <- (length_map a2w), H3a, length_map. reflexivity. }
  clearbody df3.
  set (v4 := sub_fillna (map a2w (filter (sel2 i w) df3))
                        (map r2w (filter (sel2 i w) df3))).
  set (df4 := assign (sel2 i w) set_shares v4 df3).
  assert (E4 : v4 = map net_share (filter (sel2 i w) df3))
    by (subst v4; apply sub_fillna_map).
  assert (L4 : length v4 = length (filter (sel2 i w) df3))
    by (rewrite E4, length_map; reflexivity).
  assert (H4 : map shares_col (filter (sel2 i w) df4) = v4)
    by (subst df4; apply map_filter_assign_set; auto).
  assert (H4n : map net_share (filter (sel2 i w) df4)
                = map net_share (filter (sel2 i w) df3))
    by (subst df4; apply map_filter_assign_other; auto).
  assert (H4r : map r2w (filter (sel2 i w) df4)
                = map r2w (filter (sel2 i w) df3))
    by (subst df4; apply map_filter_assign_other; auto).
  assert (H4a : map a2w (filter (sel2 i w) df4)
                = map a2w (filter (sel2 i w) df3))
    by (subst df4; apply map_filter_assign_other; auto).
  assert (H4c : map cumsum_a2w (filter (sel2 i w) df4)
                = map cumsum_a2w (filter (sel2 i w) df3))
    by (subst df4; apply map_filter_assign_other; auto).
  assert (H4d : map cumsum_r2w (filter (sel2 i w) df4)
                = map cumsum_r2w (filter (sel2 i w) df3))
    by (subst df4; apply map_filter_assign_other; auto).
  clearbody df4.
  set (v5 := cumsum (map shares_col (filter (sel2 i w) df4))).
  assert (L5 : length v5 = length (filter (sel2 i w) df4)).
  { subst v5. unfold cumsum. rewrite cumsum_from_length, length_map.
    reflexivity. }
  rewrite (map_filter_assign_set cumsum_shares) by auto.
  rewrite !map_filter_assign_other by auto.
  subst v3 v5. clearbody v4.
  split; [congruence |]. split; [congruence |]. split; [congruence |].
  reflexivity.
Qed.

Lemma keeps_cols_on_refl (i w : Z) (r : row) : keeps_cols_on i w r r.
Proof. split; [apply same_inputs_refl | auto 10]. Qed.

Lemma keeps_cols_on_trans (i w : Z) (r1 r2 r3 : row) :
  keeps_cols_on i w r1 r2 -> keeps_cols_on i w r2 r3 ->
  keeps_cols_on i w r1 r3.
Proof.
  intros (Hin1 & H1) (Hin2 & H2).
  split; [apply (same_inputs_trans _ _ _ Hin1 Hin2) |].
  intros Hsel. specialize (H1 Hsel).
  rewrite <- (same_inputs_sel2 _ _ _ _ Hin1) in Hsel. specialize (H2 Hsel).
  destruct H1 as (? & ? & ? & ? & ?), H2 as (? & ? & ? & ? & ?).
  repeat split; congruence.
Qed.

Lemma frame_keeps_cols_on (i w : Z) (r r' : row) :
  same_inputs r r' -> (sel2 i w r = true -> r' = r) ->
  keeps_cols_on i w r r'.
Proof.
  intros Hin Hf. split; [exact Hin |]. intros Hsel.
  rewrite (Hf Hsel). auto 10.
Qed.

Lemma keeps_cols_on_map {B : Type} (f : row -> B) (i w : Z)
      (df df' : DataFrame) :
  (forall r r', keeps_cols_on i w r r' -> sel2 i w r = true -> f r' = f r) ->
  Forall2 (keeps_cols_on i w) df df' ->
  map f (loc2 df' i w) = map f (loc2 df i w).
Proof.
  intros Hf H. unfold loc2.
  induction H as [| r r' df df' Hr _ IH]; simpl; [reflexivity |].
  rewrite (same_inputs_sel2 _ _ _ _ (proj1 Hr)).
  destruct (sel2 i w r) eqn:E; [| exact IH].
  simpl. rewrite IH, (Hf _ _ Hr E). reflexivity.
Qed.

Lemma keeps_cols_on_columns (i w : Z) (df df' : DataFrame) :
  Forall2 (keeps_cols_on i w) df df' ->
  wave_columns (loc2 df i w) -> wave_columns (loc2 df' i w).
Proof.
  intros H (H1 & H2 & H3 & H4). unfold wave_columns.
  rewrite (keeps_cols_on_map cumsum_a2w i w df df'),
          (keeps_cols_on_map a2w i w df df'),
          (keeps_cols_on_map cumsum_r2w i w df df'),
          (keeps_cols_on_map r2w i w df df'),
          (keeps_cols_on_map shares_col i w df df'),
          (keeps_cols_on_map net_share i w df df'),
          (keeps_cols_on_map cumsum_shares i w df df'); auto;
    intros r r' (Hin & Hc) Hsel; destruct (Hc Hsel) as (? & ? & ? & ? & ?);
    auto.
  - unfold net_share.
    destruct Hin as (_ & _ & _ & _ & _ & _ & -> & _). congruence.
  - destruct Hin as (_ & _ & _ & _ & _ & _ & -> & _). reflexivity.
Qed.

Lemma process_wave_keeps_cols_on (i w j w' : Z) (df df' : DataFrame) :
  (j, w') <> (i, w) ->
  process_wave j w' df = Ok df' -> Forall2 (keeps_cols_on i w) df df'.
Proof.
  intros Hne H. apply process_wave_rel in H.
  eapply Forall2_weaken; [| exact H].
  intros r r' (Hin & _ & _ & Hf). apply frame_keeps_cols_on; [exact Hin |].
  intros Hsel. apply Hf. apply sel2_key in Hsel as [Hi Hw].
  destruct (sel2 j w' r) eqn:E; [| reflexivity].
  apply sel2_key in E as [Hj Hw']. exfalso. apply Hne. congruence.
Qed.

Lemma process_waves_keeps_cols_on (i w j : Z) (ws : list Z) :
  (j = i -> ~ In w ws) ->
  forall df df',
    process_waves j ws df = Ok df' -> Forall2 (keeps_cols_on i w) df df'.
Proof.
  induction ws as [| w' ws IH]; intros Hnot df df' H; simpl in H.
  - injection H as <-. apply Forall2_refl_on. apply keeps_cols_on_refl.
  - inv_bind H.
    eapply Forall2_compose; [apply keeps_cols_on_trans | |].
    + apply (process_wave_keeps_cols_on i w j w'); [| exact E].
      intros Heq. injection Heq as -> ->. apply Hnot; simpl; auto.
    + apply IH; [| exact H]. intros Hj Hin. apply (Hnot Hj). simpl. auto.
Qed.

Lemma process_waves_columns (i w : Z) (ws : list Z) :
  NoDup ws -> In w ws ->
  forall df df',
    process_waves i ws df = Ok df' -> wave_columns (loc2 df' i w).
Proof.
  induction ws as [| w' ws IH]; intros Hnd HIn df df' H; [contradiction |].
  simpl in H. inv_bind H. inversion Hnd as [| ? ? Hnot Hnd']; subst.
  destruct (Z.eq_dec w' w) as [-> | Hne].
  - apply (keeps_cols_on_columns i w a).
    + apply (process_waves_keeps_cols_on i w i ws); [auto | exact H].
    + apply (process_wave_columns i w df). exact E.
  - destruct HIn as [Heq | HIn]; [contradiction |].
    apply (IH Hnd' HIn _ _ H).
Qed.

Lemma assign_id_keeps_cols_on (i w j : Z) (set : float -> row -> row)
      (vals : list float) (df : DataFrame) :
  (forall v r, keeps_cols_on i w r (set v r)) ->
  Forall2 (keeps_cols_on i w) df (assign (sel1 j) set vals df).
Proof.
  intros H. apply assign_Forall2; [apply keeps_cols_on_refl | auto].
Qed.

Lemma process_id_columns (i w : Z) (df df' : DataFrame) :
  In w (map wave (loc1 df i)) ->
  process_id i df = Ok df' -> wave_columns (loc2 df' i w).
Proof.
  intros HIn H. unfold process_id in H. inv_bind H. injection H as <-.
  apply (process_waves_columns i w) in E;
    [| apply unique_NoDup | apply unique_In; exact HIn].
  eapply keeps_cols_on_columns; [| exact E].
  eapply Forall2_compose; [apply keeps_cols_on_trans | |];
    apply assign_id_keeps_cols_on; intros v r;
    (split; [unfold same_inputs; simpl; repeat split | intros _; simpl;
                                                        auto 10]).
Qed.

Lemma process_id_keeps_cols_on (i w j : Z) (df df' : DataFrame) :
  j <> i -> process_id j df = Ok df' -> Forall2 (keeps_cols_on i w) df df'.
Proof.
  intros Hne H. apply process_id_rel in H.
  eapply Forall2_weaken; [| exact H].
  intros r r' (Hin & Hf). apply frame_keeps_cols_on; [exact Hin |].
  intros Hsel. apply Hf. apply sel2_key in Hsel as [Hi _].
  unfold sel1. apply Z.eqb_neq. congruence.
Qed.

Lemma process_ids_keeps_cols_on (i w : Z) (ids : list Z) :
  ~ In i ids ->
  forall df df',
    process_ids ids df = Ok df' -> Forall2 (keeps_cols_on i w) df df'.
Proof.
  induction ids as [| j ids IH]; intros Hnot df df' H; simpl in H.
  - injection H as <-. apply Forall2_refl_on. apply keeps_cols_on_refl.
  - inv_bind H.
    eapply Forall2_compose; [apply keeps_cols_on_trans | |].
    + apply (process_id_keeps_cols_on i w j); [| exact E].
      intros ->. apply Hnot. simpl. auto.
    + apply IH; [| exact H]. intros Hin. apply Hnot. simpl. auto.
Qed.

Lemma same_inputs_waves (i : Z) (df df' : DataFrame) :
  Forall2 same_inputs df df' ->
  map wave (loc1 df' i) = map wave (loc1 df i).
Proof.
  intros H. unfold loc1. apply (Forall2_map_eq same_inputs).
  - intros x y (_ & Hw & _). exact Hw.
  - apply Forall2_filter; [| exact H]. intros r r'. apply same_inputs_sel1.
Qed.

Lemma process_ids_columns (i w : Z) (ids : list Z) :
  NoDup ids -> In i ids ->
  forall df df',
    In w (map wave (loc1 df i)) ->
    process_ids ids df = Ok df' -> wave_columns (loc2 df' i w).
Proof.
  induction ids as [| j ids IH]; intros Hnd HIn df df' Hw H;
    [contradiction |].
  simpl in H. inv_bind H. inversion Hnd as [| ? ? Hnot Hnd']; subst.
  destruct (Z.eq_dec j i) as [-> | Hne].
  - apply (keeps_cols_on_columns i w a).
    + apply (process_ids_keeps_cols_on i w ids Hnot _ _ H).
    + apply (process_id_columns i w df); assumption.
  - destruct HIn as [Heq | HIn]; [contradiction |].
    apply (IH Hnd' HIn a df'); [| exact H].
    apply process_id_rel in E.
    rewrite (same_inputs_waves i df a); [exact Hw |].
    eapply Forall2_weaken; [| exact E]. intros x y (Hxy & _). exact Hxy.
Qed.

Lemma shares_df_wave_columns (input : list record) (out : DataFrame)
      (i w : Z) :
  shares_df input = Ok out -> wave_columns (loc2 out i w).
Proof.
  intros H.
  destruct (loc2 out i w) as [| r rows] eqn:Erows;
    [repeat split |]. rewrite <- Erows.
  assert (HIn : In r (loc2 out i w)) by (rewrite Erows; left; reflexivity).
  unfold loc2 in HIn. apply filter_In in HIn as [HIn Hsel].
  apply sel2_key in Hsel as [Hi Hw].
  pose proof (shares_df_same_inputs _ _ H) as Hrel.
  assert (Hwave : In w (map wave (loc1 out i))).
  { rewrite <- Hw. apply in_map. unfold loc1. apply filter_In.
    split; [exact HIn |]. unfold sel1. apply Z.eqb_eq. exact Hi. }
  rewrite (same_inputs_waves i _ _ Hrel) in Hwave.
  unfold shares_df in H.
  apply (process_ids_columns i w (unique (map id (init input))))
    with (df := init input); [apply unique_NoDup | | exact Hwave | exact H].
  apply unique_In. apply in_map_iff in Hwave as (x & _ & Hx).
  unfold loc1 in Hx. apply filter_In in Hx as [Hx Hsel].
  unfold sel1 in Hsel. apply Z.eqb_eq in Hsel. rewrite <- Hsel.
  apply in_map. exact Hx.
Qed.

(** X1.  In the output of a run, the columns [cumsum_a2w] and [cumsum_r2w]
    over the rows of a wave are the running sums of [a2w] and of [r2w] over
    these rows, in the order of the panel, absent cells skipped; they start
    again from zero in each wave. *)
Theorem cumulative_ratios_per_wave
        (input : list record) (out : DataFrame) (i w : Z) :
  shares_df input = Ok out ->
  map cumsum_a2w (loc2 out i w) = cumsum (map a2w (loc2 out i w))
  /\ map cumsum_r2w (loc2 out i w) = cumsum (map r2w (loc2 out i w)).
Proof.
  intros H.
  destruct (shares_df_wave_columns input out i w H) as (H1 & H2 & _).
  split; assumption.
Qed.

Lemma cumulative_ratios_per_wave_witness :
  exists out,
    shares_df scenario_two_waves = Ok out
    /\ map cumsum_a2w (loc2 out 1 2) = cumsum (map a2w (loc2 out 1 2))
    /\ map cumsum_r2w (loc2 out 1 2) = cumsum (map r2w (loc2 out 1 2)).
Proof.
  eexists. split; [vm_compute; reflexivity |].
  apply (cumulative_ratios_per_wave scenario_two_waves _ 1 2).
  vm_compute. reflexivity.
Defined.

(** X2.  In the output of a run, [shares] is [a2w - r2w] on every row of a
    wave, an absent operand read as zero (so that [shares] itself is never
    absent because one of them is), and [cumsum_shares] is its running sum
    over the rows of the wave. *)
Theorem net_share_per_wave
        (input : list record) (out : DataFrame) (i w : Z) :
  shares_df input = Ok out ->
  map shares_col (loc2 out i w) = map net_share (loc2 out i w)
  /\ map cumsum_shares (loc2 out i w)
     = cumsum (map net_share (loc2 out i w)).
Proof.
  intros H.
  destruct (shares_df_wave_columns input out i w H) as (_ & _ & H3 & H4).
  split; [exact H3 | rewrite H4, H3; reflexivity].
Qed.

Lemma net_share_per_wave_witness :
  exists out,
    shares_df scenario_two_waves = Ok out
    /\ map shares_col (loc2 out 1 2) = map net_share (loc2 out 1 2)
    /\ map cumsum_shares (loc2 out 1 2)
       = cumsum (map net_share (loc2 out 1 2)).
Proof.
  eexists. split; [vm_compute; reflexivity |].
  apply (net_share_per_wave scenario_two_waves _ 1 2).
  vm_compute. reflexivity.
Defined.

(** ** The ratios of lines 53-61 reach the output *)

(** X3.  No step after line 61 writes [a2w] or [r2cw]: in the output of a
    run the two ratios of every row are the arrear and the repayment of
    that row over its supposed wage, the arrear (zero when absent) plus the
    wage paid. *)
Theorem ratios_reach_output (input : list record) (out : DataFrame) :
  shares_df input = Ok out ->
  Forall2 (fun x o =>
             let sw := fadd (fillna0 (in_amount_owed x)) (in_wage x) in
             o_a2w o = fdiv (in_amount_owed x) sw
             /\ o_r2cw o = fdiv (in_amount_repaid x) sw)
          input (map project out).
Proof.
  intros H. apply shares_df_same_inputs in H. unfold init in H.
  remember (map init_row input) as df eqn:Hdf.
  revert input Hdf.
  induction H as [| r r' df out Hr _ IH]; intros input Hdf;
    destruct input as [| x input]; try discriminate; simpl;
    constructor.
  - injection Hdf as -> _.
    destruct Hr as (_ & _ & _ & _ & _ & _ & Ha & Hc & _).
    simpl in *. rewrite Ha, Hc. split; reflexivity.
  - apply IH. injection Hdf as _ ->. reflexivity.
Qed.

Lemma ratios_reach_output_witness :
  exists out,
    shares_df scenario1 = Ok out
    /\ Forall2 (fun x o =>
                  let sw := fadd (fillna0 (in_amount_owed x)) (in_wage x) in
                  o_a2w o = fdiv (in_amount_owed x) sw
                  /\ o_r2cw o = fdiv (in_amount_repaid x) sw)
               scenario1 (map project out).
Proof.
  eexists. split; [vm_compute; reflexivity |].
  apply (ratios_reach_output scenario1). vm_compute. reflexivity.
Defined.

(** ** The column [r2w] (lines 46, 83-108) *)

Lemma assoc_notin (d : Z) (l : list (Z * float)) :
  ~ In d (map fst l) -> assoc d l = None.
Proof.
  unfold assoc. induction l as [| [k v] l IH]; simpl; intros H;
    [reflexivity |].
  destruct (k =? d) eqn:E.
  - apply Z.eqb_eq in E. exfalso. apply H. auto.
  - apply IH. intros Hin. apply H. auto.
Qed.

Lemma assoc_cons (d k : Z) (v : float) (l : list (Z * float)) :
  assoc d ((k, v) :: l) = if k =? d then Some v else assoc d l.
Proof.
  unfold assoc. simpl. destruct (k =? d); reflexivity.
Qed.

Lemma combine_fst_In (ds : list Z) (ss : list float) (d : Z) :
  In d (map fst (combine ds ss)) -> In d ds.
Proof.
  intros H. apply in_map_iff in H as ([k v] & <- & Hin).
  apply in_combine_l in Hin. exact Hin.
Qed.

(** A selection of rows with distinct months has distinct months. *)
Lemma distinct_months_filter (p : row -> bool) (rows : DataFrame) :
  NoDup (map modate rows) -> NoDup (map modate (filter p rows)).
Proof.
  induction rows as [| a rows IH]; simpl; intros H; [constructor |].
  inversion H as [| ? ? Hnot Hnd]; subst.
  destruct (p a); simpl; [constructor |]; auto.
  intros Hin. apply Hnot. apply in_map_iff in Hin as (x & Hx & Hxin).
  apply filter_In in Hxin as [Hxin _]. rewrite <- Hx. apply in_map.
  exact Hxin.
Qed.

Lemma assign_scalar_map (sel : row -> bool) (set : float -> row -> row)
      (v : float) (df : DataFrame) :
  Forall2 (fun r r1 => r1 = if sel r then set v r else r)
          df (assign_scalar sel set v df).
Proof.
  unfold assign_scalar. induction df; simpl; constructor; auto.
Qed.

(** The loop over the repayments, with what it leaves in [r2w]. *)
Lemma repay_loop_written (i w : Z) (df : DataFrame) :
  NoDup (map modate (loc2 df i w)) ->
  forall (rows : DataFrame) (cur df' : DataFrame) (L L' : ledger),
    NoDup (map modate rows) ->
    (forall r0, In r0 rows -> In r0 (loc2 df i w)) ->
    Forall2 same_inputs df cur ->
    repay_loop cur i w (map modate rows) L = Ok (df', L') ->
    exists ss,
      repay_all df i w (map amount_repaid rows) L = Ok (ss, L')
      /\ length ss = length rows
      /\ Forall2 (fun r r' =>
                    only_r2w r r'
                    /\ r2w r'
                       = written i w (combine (map modate rows) ss) r)
                 cur df'.
Proof.
  intros Hnd. induction rows as [| r0 rows IH];
    intros cur df' L L' Hnd0 Hsub Hrel H; simpl in H.
  - injection H as <- <-. exists []. split; [reflexivity |].
    split; [reflexivity |]. apply Forall2_refl_on. intros r.
    split; [apply only_r2w_refl |]. unfold written. simpl.
    destruct (sel2 i w r); reflexivity.
  - assert (Hloc : loc3 df i w (modate r0) = Ok r0)
      by (apply loc3_unique; [exact Hnd | apply Hsub; left; reflexivity]).
    destruct (loc3_ext i w (modate r0) _ _ Hrel)
      as [[H1 _] | (r & r' & H1 & H2 & Hr)]; [congruence |].
    rewrite Hloc in H1. injection H1 as <-. rewrite H2 in H. simpl in H.
    destruct Hr as (_ & _ & _ & _ & _ & Hrep & _). rewrite Hrep in H.
    rewrite (repay_ext _ _ _ _ _ _ Hrel) in H.
    destruct (repay df i w L (amount_repaid r0)) as [[L1 s] |] eqn:E;
      simpl in H; [| discriminate H].
    simpl in Hnd0. inversion Hnd0 as [| ? ? Hnot Hnd0']; subst.
    destruct (IH (assign_scalar (sel3 i w (modate r0)) set_r2w s cur)
                 df' L1 L' Hnd0')
      as (ss & Hall & Hlen & Hwr).
    + intros x Hx. apply Hsub. right. exact Hx.
    + eapply Forall2_compose; [apply same_inputs_trans | exact Hrel |].
      apply assign_scalar_Forall2; [apply same_inputs_refl |].
      intros; unfold same_inputs; simpl; repeat split.
    + exact H.
    + exists (s :: ss). simpl. rewrite E. simpl. rewrite Hall. simpl.
      split; [reflexivity |]. split; [congruence |].
      eapply Forall2_compose; [| apply assign_scalar_map | exact Hwr].
      intros x x1 x' Hx1 [Honly Hw']. cbv beta in Hx1. subst x1.
      unfold written in *. rewrite assoc_cons.
      destruct (sel3 i w (modate r0) x) eqn:E3.
      * apply sel3_key in E3 as (Hi & Hw & Hd).
        assert (Hsel : sel2 i w x = true) by (apply sel2_key; auto).
        replace (sel2 i w (set_r2w s x)) with true in Hw'.
        rewrite Hsel. rewrite Hd, Z.eqb_refl.
        simpl in Hw'. rewrite Hd in Hw'. rewrite assoc_notin in Hw'.
        -- split; [| exact Hw'].
           apply (only_r2w_trans _ (set_r2w s x)); [reflexivity | exact Honly].
        -- intros Hin. apply Hnot. apply (combine_fst_In _ ss). exact Hin.
      * split; [exact Honly |]. rewrite Hw'.
        destruct (sel2 i w x) eqn:Hsel; [| reflexivity].
        replace (modate r0 =? modate x) with false; [reflexivity |].
        symmetry. apply Z.eqb_neq. intros Hd.
        apply sel2_key in Hsel as [Hi Hw].
        assert (sel3 i w (modate r0) x = true)
          by (apply sel3_key; auto).
        congruence.
Qed.

Lemma map_written_combine (i w : Z) (rows : DataFrame) :
  forall ss : list float,
    NoDup (map modate rows) -> length ss = length rows ->
    (forall r, In r rows -> sel2 i w r = true) ->
    map (written i w (combine (map modate rows) ss)) rows = ss.
Proof.
  induction rows as [| r rows IH]; intros [| s ss] Hnd Hlen Hsel;
    simpl in *; try discriminate; [reflexivity |].
  inversion Hnd as [| ? ? Hnot Hnd']; subst.
  unfold written at 1. rewrite (Hsel r) by auto.
  rewrite assoc_cons, Z.eqb_refl. f_equal.
  rewrite <- (IH ss Hnd') at 2 by (auto; congruence).
  apply map_ext_in. intros x Hx. unfold written. rewrite assoc_cons.
  destruct (modate r =? modate x) eqn:E; [| reflexivity].
  apply Z.eqb_eq in E. exfalso. apply Hnot. rewrite E. apply in_map.
  exact Hx.
Qed.

Lemma Forall2_In_l {A B : Type} (R : A -> B -> Prop) (l : list A)
      (l' : list B) :
  Forall2 R l l' -> Forall2 (fun x y => In x l /\ R x y) l l'.
Proof.
  intros H. induction H as [| x y l l' Hxy _ IH]; constructor.
  - split; [left; reflexivity | exact Hxy].
  - eapply Forall2_impl; [| exact IH].
    intros a b [Ha Hab]. split; [right; exact Ha | exact Hab].
Qed.

Lemma Forall2_In_r {A B : Type} (R : A -> B -> Prop) (l : list A)
      (l' : list B) (y : B) :
  Forall2 R l l' -> In y l' -> exists x, In x l /\ R x y.
Proof.
  intros H. induction H as [| x y' l l' Hxy _ IH]; intros HIn;
    [contradiction |].
  destruct HIn as [<- | HIn].
  - exists x. split; [left; reflexivity | exact Hxy].
  - destruct (IH HIn) as (x0 & Hx0 & HR). exists x0.
    split; [right; exact Hx0 | exact HR].
Qed.

Lemma filter_is_repayment (i w : Z) (df : DataFrame) :
  filter (is_repayment i w) df = dropna amount_repaid (loc2 df i w).
Proof.
  unfold is_repayment, dropna, loc2.
  induction df as [| r df IH]; simpl; [reflexivity |].
  destruct (sel2 i w r); simpl; [| exact IH].
  destruct (negb (isnan (amount_repaid r))); rewrite IH; reflexivity.
Qed.

Lemma same_inputs_is_repayment (i w : Z) (r r' : row) :
  same_inputs r r' -> is_repayment i w r' = is_repayment i w r.
Proof.
  intros H. unfold is_repayment.
  rewrite (same_inputs_sel2 _ _ _ _ H).
  destruct H as (_ & _ & _ & _ & _ & -> & _). reflexivity.
Qed.

Lemma Forall2_map_filter {B : Type} (R : row -> row -> Prop)
      (f g : row -> B) (p : row -> bool) (df df' : DataFrame) :
  (forall r r', R r r' -> p r' = p r) ->
  (forall r r', R r r' -> p r = true -> f r' = g r) ->
  Forall2 R df df' -> map f (filter p df') = map g (filter p df).
Proof.
  intros Hp Hf H. induction H as [| r r' df df' Hr _ IH]; simpl;
    [reflexivity |].
  rewrite (Hp _ _ Hr). destruct (p r) eqn:E; [| exact IH].
  simpl. rewrite IH, (Hf _ _ Hr E). reflexivity.
Qed.

(** What [allocate] leaves in [r2w]: the shares of the repayments on the
    rows of the repayments, in their order, and nothing new elsewhere. *)
Lemma allocate_r2w_column (i w : Z) (df df' : DataFrame) (L' : ledger) :
  NoDup (map modate (loc2 df i w)) ->
  allocate df i w = Ok (df', Some L') ->
  exists L0 ss,
    first_arrear df i w = Ok (Some L0)
    /\ repay_all df i w (repaid df i w) L0 = Ok (ss, L')
    /\ map r2w (filter (is_repayment i w) df') = ss
    /\ Forall2 (fun r r' =>
                  same_inputs r r'
                  /\ (is_repayment i w r = false -> r2w r' = r2w r))
               df df'.
Proof.
  intros Hnd H. unfold allocate in H.
  destruct (first_arrear df i w) as [[L0 |] | e] eqn:Efirst; simpl in H;
    try discriminate H.
  inv_bind H. destruct a as [df1 L1]. simpl in H. injection H as <- <-.
  set (rows := dropna amount_repaid (loc2 df i w)) in *.
  assert (Hsub : forall r0, In r0 rows -> In r0 (loc2 df i w)).
  { intros r0 Hr0. unfold rows, dropna in Hr0. apply filter_In in Hr0.
    tauto. }
  assert (Hnd0 : NoDup (map modate rows))
    by (apply distinct_months_filter; exact Hnd).
  destruct (repay_loop_written i w df Hnd rows df df1 L0 L1 Hnd0 Hsub
              (Forall2_refl_on _ _ same_inputs_refl) E)
    as (ss & Hall & Hlen & Hwr).
  exists L0, ss. split; [reflexivity |]. split; [exact Hall |].
  apply Forall2_In_l in Hwr. split.
  - rewrite (Forall2_map_filter _ r2w
               (written i w (combine (map modate rows) ss))
               (is_repayment i w) df df1
               (fun r r' H => same_inputs_is_repayment i w r r'
                                (only_r2w_same_inputs r r' (proj1 (proj2 H))))
               (fun r r' H _ => proj2 (proj2 H)) Hwr).
    rewrite filter_is_repayment. fold rows.
    apply map_written_combine; auto.
    intros r Hr. apply Hsub in Hr. unfold loc2 in Hr.
    apply filter_In in Hr. tauto.
  - eapply Forall2_weaken; [| exact Hwr].
    intros r r' (HIn & Honly & Hw'). cbv beta in *.
    split; [apply only_r2w_same_inputs; exact Honly |].
    intros Hrep. rewrite Hw'. unfold written.
    destruct (sel2 i w r) eqn:Hsel; [| reflexivity].
    rewrite assoc_notin; [reflexivity |].
    intros Hin. apply combine_fst_In in Hin.
    apply in_map_iff in Hin as (r0 & Hd & Hr0).
    assert (Hr : In r (loc2 df i w))
      by (unfold loc2; apply filter_In; auto).
    assert (r0 = r)
      by (apply (NoDup_map_In_eq modate (loc2 df i w)); auto).
    subst r0. unfold rows, dropna in Hr0. apply filter_In in Hr0 as [_ Hn].
    unfold is_repayment in Hrep. rewrite Hsel, Hn in Hrep.
    discriminate Hrep.
Qed.

Lemma same_inputs_loc2 (i w : Z) (df df' : DataFrame) :
  Forall2 same_inputs df df' ->
  Forall2 same_inputs (loc2 df i w) (loc2 df' i w).
Proof.
  intros H. unfold loc2. apply Forall2_filter; [| exact H].
  intros r r'. apply same_inputs_sel2.
Qed.

Lemma same_inputs_dropna_loc2 (col : row -> float) (i w : Z)
      (df df' : DataFrame) :
  (forall r r', same_inputs r r' -> col r' = col r) ->
  Forall2 same_inputs df df' ->
  Forall2 same_inputs (dropna col (loc2 df i w)) (dropna col (loc2 df' i w)).
Proof.
  intros Hcol H. unfold dropna. apply Forall2_filter.
  - intros r r' Hr. rewrite (Hcol _ _ Hr). reflexivity.
  - apply same_inputs_loc2. exact H.
Qed.

Lemma first_arrear_ext (i w : Z) (df df' : DataFrame) :
  Forall2 same_inputs df df' -> first_arrear df' i w = first_arrear df i w.
Proof.
  intros H. unfold first_arrear.
  rewrite (Forall2_map_eq same_inputs modate _ _
             (fun x y (Hxy : same_inputs x y) => proj1 (proj2 (proj2 Hxy)))
             (same_inputs_dropna_loc2 amount_owed i w df df'
                (fun r r' (Hr : same_inputs r r') =>
                   proj1 (proj2 (proj2 (proj2 (proj2 Hr))))) H)).
  destruct (index_min _) as [d |]; [| reflexivity].
  destruct (loc3_ext i w d _ _ H) as [[-> ->] | (r & r' & -> & -> & Hr)];
    [reflexivity |].
  simpl. destruct Hr as (_ & _ & _ & _ & -> & _ & _ & _ & ->). reflexivity.
Qed.

Lemma repaid_ext (i w : Z) (df df' : DataFrame) :
  Forall2 same_inputs df df' -> repaid df' i w = repaid df i w.
Proof.
  intros H. unfold repaid.
  apply (Forall2_map_eq same_inputs).
  - intros x y (_ & _ & _ & _ & _ & Hrep & _). exact Hrep.
  - apply same_inputs_dropna_loc2; [| exact H].
    intros r r' (_ & _ & _ & _ & _ & Hrep & _). exact Hrep.
Qed.

Lemma repay_all_ext (i w : Z) (df df' : DataFrame) (Rs : list float) :
  Forall2 same_inputs df df' ->
  forall L, repay_all df' i w Rs L = repay_all df i w Rs L.
Proof.
  intros H. induction Rs as [| R Rs IH]; intros L; simpl; [reflexivity |].
  rewrite (repay_ext _ _ _ _ _ _ H).
  destruct (repay df i w L R) as [[L1 s] |]; simpl; [| reflexivity].
  rewrite IH. reflexivity.
Qed.

Lemma keeps_cols_on_r2w (i w : Z) (r r' : row) :
  keeps_cols_on i w r r' -> keeps_r2w_on i w r r'.
Proof.
  intros (Hin & H). split; [exact Hin |]. intros Hsel. apply (H Hsel).
Qed.

Lemma fresh_on_keeps (i w : Z) (df0 df df' : DataFrame) :
  Forall2 (keeps_r2w_on i w) df df' ->
  Forall2 (fresh_on i w) df0 df -> Forall2 (fresh_on i w) df0 df'.
Proof.
  intros H H0. eapply Forall2_compose; [| exact H0 | exact H].
  intros x y z (Hxy & Hf) (Hyz & Hk).
  split; [apply (same_inputs_trans _ _ _ Hxy Hyz) |].
  intros Hsel. rewrite Hk; [apply Hf; exact Hsel |].
  rewrite (same_inputs_sel2 _ _ _ _ Hxy). exact Hsel.
Qed.

Lemma fresh_on_same_inputs (i w : Z) (df0 df : DataFrame) :
  Forall2 (fresh_on i w) df0 df -> Forall2 same_inputs df0 df.
Proof. apply Forall2_weaken. intros x y (H & _). exact H. Qed.

Lemma r2w_column_keeps (i w : Z) (df0 df df' : DataFrame) :
  Forall2 (keeps_r2w_on i w) df df' ->
  r2w_column df0 df i w -> r2w_column df0 df' i w.
Proof.
  intros H [Habs Hrep]. split.
  - intros r' Hr' Hnan. unfold loc2 in Hr'.
    apply filter_In in Hr' as [Hr' Hsel].
    destruct (Forall2_In_r _ _ _ _ H Hr') as (r & Hr & Hin & Hk).
    rewrite (same_inputs_sel2 _ _ _ _ Hin) in Hsel.
    rewrite (Hk Hsel). apply Habs.
    + unfold loc2. apply filter_In. auto.
    + destruct Hin as (_ & _ & _ & _ & _ & <- & _). exact Hnan.
  - intros L0 HL0. destruct (Hrep L0 HL0) as (ss & L' & Hall & Hmap).
    exists ss, L'. split; [exact Hall |].
    rewrite <- Hmap, <- !filter_is_repayment.
    apply (Forall2_map_filter (keeps_r2w_on i w)); [| | exact H].
    + intros r r' (Hin & _). apply same_inputs_is_repayment. exact Hin.
    + intros r r' (_ & Hk) Hp. apply Hk. unfold is_repayment in Hp.
      apply andb_true_iff in Hp. tauto.
Qed.

Lemma process_wave_r2w_column (i w : Z) (df0 df df' : DataFrame) :
  NoDup (map modate (loc2 df0 i w)) ->
  Forall2 (fresh_on i w) df0 df ->
  process_wave i w df = Ok df' -> r2w_column df0 df' i w.
Proof.
  intros Hnd Hfresh H. unfold process_wave in H. inv_bind H.
  destruct a as [df2 oL]. simpl in H. injection H as <-.
  set (df1 := assign (sel2 i w) set_cumsum_a2w
                     (cumsum (map a2w (loc2 df i w))) df) in *.
  assert (Hk : forall set,
             (forall v r, keeps_r2w_on i w r (set v r)) ->
             forall vals d,
               Forall2 (keeps_r2w_on i w) d (assign (sel2 i w) set vals d)).
  { intros set Hset vals d.
    apply assign_Forall2; [apply keeps_r2w_on_refl | auto]. }
  assert (Hfresh1 : Forall2 (fresh_on i w) df0 df1).
  { apply (fresh_on_keeps i w df0 df); [| exact Hfresh].
    apply Hk. intros; unfold keeps_r2w_on, same_inputs; simpl;
                repeat split. }
  clearbody df1.
  pose proof (fresh_on_same_inputs _ _ _ _ Hfresh1) as Hrel.
  eapply r2w_column_keeps.
  { repeat (eapply Forall2_compose;
            [apply keeps_r2w_on_trans | |
             apply Hk; intros; unfold keeps_r2w_on, same_inputs; simpl;
             repeat split]).
    apply Forall2_refl_on. apply keeps_r2w_on_refl. }
  assert (Hpre : forall r, In r (loc2 df1 i w) -> r2w r = NaN).
  { intros r Hr. unfold loc2 in Hr. apply filter_In in Hr as [Hr Hsel].
    destruct (Forall2_In_r _ _ _ _ Hfresh1 Hr) as (r0 & _ & Hin & Hf).
    apply Hf. rewrite <- (same_inputs_sel2 _ _ _ _ Hin). exact Hsel. }
  destruct oL as [L' |].
  - assert (Hnd1 : NoDup (map modate (loc2 df1 i w))).
    { rewrite (Forall2_map_eq same_inputs modate _ _
                 (fun x y (Hxy : same_inputs x y) =>
                    proj1 (proj2 (proj2 Hxy)))
                 (same_inputs_loc2 i w _ _ Hrel)).
      exact Hnd. }
    destruct (allocate_r2w_column i w df1 df2 L' Hnd1 E)
      as (L0' & ss & Hfirst & Hall & Hmap & Hfr).
    split.
    + intros r' Hr' Hnan. unfold loc2 in Hr'.
      apply filter_In in Hr' as [Hr' Hsel].
      destruct (Forall2_In_r _ _ _ _ Hfr Hr') as (r & Hr & Hin & Hkeep).
      rewrite (same_inputs_sel2 _ _ _ _ Hin) in Hsel.
      rewrite Hkeep.
      * apply Hpre. unfold loc2. apply filter_In. auto.
      * unfold is_repayment.
        destruct Hin as (_ & _ & _ & _ & _ & Hrep & _).
        rewrite <- Hrep, Hnan. apply andb_false_r.
    + intros L0 HL0.
      rewrite (first_arrear_ext i w _ _ Hrel), HL0 in Hfirst.
      injection Hfirst as <-.
      rewrite (repay_all_ext i w _ _ _ Hrel),
              (repaid_ext i w _ _ Hrel) in Hall.
      exists ss, L'. split; [exact Hall |].
      rewrite <- filter_is_repayment. exact Hmap.
  - unfold allocate in E.
    destruct (first_arrear df1 i w) as [[L0 |] | e] eqn:Efirst;
      simpl in E; try discriminate E.
    + destruct (repay_loop df1 i w _ L0) as [[d L1] |]; simpl in E;
        discriminate E.
    + injection E as <-. split.
      * intros r Hr _. apply Hpre. exact Hr.
      * intros L0 HL0.
        rewrite (first_arrear_ext i w _ _ Hrel), HL0 in Efirst.
        discriminate Efirst.
Qed.

Lemma process_waves_r2w_column (i w : Z) (df0 : DataFrame) (ws : list Z) :
  NoDup (map modate (loc2 df0 i w)) ->
  NoDup ws -> In w ws ->
  forall df df',
    Forall2 (fresh_on i w) df0 df ->
    process_waves i ws df = Ok df' -> r2w_column df0 df' i w.
Proof.
  intros Hnd0. induction ws as [| w' ws IH];
    intros Hnd HIn df df' Hfresh H; [contradiction |].
  simpl in H. inv_bind H. inversion Hnd as [| ? ? Hnot Hnd']; subst.
  destruct (Z.eq_dec w' w) as [-> | Hne].
  - apply (r2w_column_keeps i w df0 a).
    + eapply Forall2_weaken; [apply keeps_cols_on_r2w |].
      apply (process_waves_keeps_cols_on i w i ws); [auto | exact H].
    + apply (process_wave_r2w_column i w df0 df); assumption.
  - destruct HIn as [Heq | HIn]; [contradiction |].
    apply (IH Hnd' HIn a df'); [| exact H].
    apply (fresh_on_keeps i w df0 df); [| exact Hfresh].
    eapply Forall2_weaken; [apply keeps_cols_on_r2w |].
    apply (process_wave_keeps_cols_on i w i w'); [congruence | exact E].
Qed.

Lemma process_id_r2w_column (i w : Z) (df0 df df' : DataFrame) :
  NoDup (map modate (loc2 df0 i w)) ->
  In w (map wave (loc1 df i)) ->
  Forall2 (fresh_on i w) df0 df ->
  process_id i df = Ok df' -> r2w_column df0 df' i w.
Proof.
  intros Hnd0 HIn Hfresh H. unfold process_id in H. inv_bind H.
  injection H as <-.
  apply (process_waves_r2w_column i w df0) in E;
    [| exact Hnd0 | apply unique_NoDup | apply unique_In; exact HIn
     | exact Hfresh].
  eapply r2w_column_keeps; [| exact E].
  eapply Forall2_weaken; [apply keeps_cols_on_r2w |].
  eapply Forall2_compose; [apply keeps_cols_on_trans | |];
    apply assign_id_keeps_cols_on; intros v r;
    (split; [unfold same_inputs; simpl; repeat split | intros _; simpl;
                                                        auto 10]).
Qed.

Lemma process_ids_r2w_column (i w : Z) (df0 : DataFrame) (ids : list Z) :
  NoDup (map modate (loc2 df0 i w)) ->
  NoDup ids -> In i ids ->
  forall df df',
    In w (map wave (loc1 df i)) ->
    Forall2 (fresh_on i w) df0 df ->
    process_ids ids df = Ok df' -> r2w_column df0 df' i w.
Proof.
  intros Hnd0. induction ids as [| j ids IH];
    intros Hnd HIn df df' Hw Hfresh H; [contradiction |].
  simpl in H. inv_bind H. inversion Hnd as [| ? ? Hnot Hnd']; subst.
  destruct (Z.eq_dec j i) as [-> | Hne].
  - apply (r2w_column_keeps i w df0 a).
    + eapply Forall2_weaken; [apply keeps_cols_on_r2w |].
      apply (process_ids_keeps_cols_on i w ids Hnot _ _ H).
    + apply (process_id_r2w_column i w df0 df); assumption.
  - destruct HIn as [Heq | HIn]; [contradiction |].
    pose proof (process_id_keeps_cols_on i w j df a Hne E) as Hk.
    apply (IH Hnd' HIn a df'); [| | exact H].
    + rewrite (same_inputs_waves i df a); [exact Hw |].
      eapply Forall2_weaken; [| exact Hk]. intros x y (Hxy & _). exact Hxy.
    + apply (fresh_on_keeps i w df0 df); [| exact Hfresh].
      eapply Forall2_weaken; [apply keeps_cols_on_r2w | exact Hk].
Qed.

Lemma init_fresh (i w : Z) (input : list record) :
  Forall2 (fresh_on i w) (init input) (init input).
Proof.
  unfold init. induction input as [| x input IH]; simpl; constructor;
    [| exact IH].
  split; [apply same_inputs_refl | reflexivity].
Qed.

Lemma loc2_nil (i w : Z) (df : DataFrame) :
  ~ In w (map wave (loc1 df i)) -> loc2 df i w = [].
Proof.
  intros Hnot. unfold loc2. apply filter_all_false. intros r Hr.
  destruct (sel2 i w r) eqn:E; [| reflexivity].
  exfalso. apply Hnot. apply sel2_key in E as [Hi Hw]. rewrite <- Hw.
  apply in_map. unfold loc1. apply filter_In. split; [exact Hr |].
  unfold sel1. apply Z.eqb_eq. exact Hi.
Qed.

Lemma shares_df_r2w_column (input : list record) (out : DataFrame)
      (i w : Z) :
  NoDup (map modate (loc2 (init input) i w)) ->
  shares_df input = Ok out -> r2w_column (init input) out i w.
Proof.
  intros Hnd H.
  pose proof (shares_df_same_inputs _ _ H) as Hrel.
  destruct (in_dec Z.eq_dec w (map wave (loc1 (init input) i)))
    as [Hw | Hw].
  - unfold shares_df in H.
    apply (process_ids_r2w_column i w (init input)
             (unique (map id (init input))) Hnd (unique_NoDup _))
      with (df := init input); [| exact Hw | apply init_fresh | exact H].
    apply unique_In. apply in_map_iff in Hw as (x & _ & Hx).
    unfold loc1 in Hx. apply filter_In in Hx as [Hx Hsel].
    unfold sel1 in Hsel. apply Z.eqb_eq in Hsel. rewrite <- Hsel.
    apply in_map. exact Hx.
  - assert (Hout : loc2 out i w = []).
    { apply loc2_nil. rewrite (same_inputs_waves i _ _ Hrel). exact Hw. }
    split.
    + intros r Hr. rewrite Hout in Hr. contradiction.
    + intros L0 HL0. unfold first_arrear in HL0.
      rewrite (loc2_nil i w _ Hw) in HL0. simpl in HL0. discriminate HL0.
Qed.

(** X4.  When the months of a wave are distinct, [r2w] is absent in the
    output of a run on every row of the wave in which nothing was repaid:
    the allocator writes a share only into the rows of the repayments. *)
Theorem r2w_absent_without_repayment
        (input : list record) (out : DataFrame) (i w : Z) :
  NoDup (map modate (loc2 (init input) i w)) ->
  shares_df input = Ok out ->
  forall r, In r out -> id r = i -> wave r = w ->
            amount_repaid r = NaN -> r2w r = NaN.
Proof.
  intros Hnd H r Hr Hi Hw Hnan.
  destruct (shares_df_r2w_column input out i w Hnd H) as [Habs _].
  apply Habs; [| exact Hnan].
  unfold loc2. apply filter_In. split; [exact Hr |].
  apply sel2_key. auto.
Qed.

Lemma r2w_absent_without_repayment_witness :
  exists out,
    NoDup (map modate (loc2 (init scenario_split) 1 1))
    /\ shares_df scenario_split = Ok out
    /\ forall r, In r out -> id r = 1 -> wave r = 1 ->
                 amount_repaid r = NaN -> r2w r = NaN.
Proof.
  assert (Hnd : NoDup (map modate (loc2 (init scenario_split) 1 1)))
    by (simpl; repeat constructor; simpl; intuition discriminate).
  eexists. split; [exact Hnd |]. split; [vm_compute; reflexivity |].
  apply (r2w_absent_without_repayment scenario_split _ 1 1 Hnd).
  vm_compute. reflexivity.
Defined.

(** X5.  When the months of a wave are distinct and the wave has an
    arrear, the cells of [r2w] on the rows of the repayments of the wave,
    in the order of the panel, are in the output of a run the shares that
    the loop over the repayments computes from the first arrear of the
    wave on the amounts as they were read: what other waves and other
    individuals hold does not enter them. *)
Theorem r2w_is_share_of_repayment
        (input : list record) (out : DataFrame) (i w : Z) (L0 : ledger) :
  NoDup (map modate (loc2 (init input) i w)) ->
  shares_df input = Ok out ->
  first_arrear (init input) i w = Ok (Some L0) ->
  exists ss L',
    repay_all (init input) i w (repaid (init input) i w) L0 = Ok (ss, L')
    /\ map r2w (dropna amount_repaid (loc2 out i w)) = ss.
Proof.
  intros Hnd H HL0.
  destruct (shares_df_r2w_column input out i w Hnd H) as [_ Hrep].
  apply Hrep. exact HL0.
Qed.

Lemma r2w_is_share_of_repayment_witness :
  exists out,
    NoDup (map modate (loc2 (init scenario_split) 1 1))
    /\ shares_df scenario_split = Ok out
    /\ first_arrear (init scenario_split) 1 1
       = Ok (Some (mkLedger 1 (Fin 100) (Fin 300)))
    /\ exists ss L',
        repay_all (init scenario_split) 1 1
                  (repaid (init scenario_split) 1 1)
                  (mkLedger 1 (Fin 100) (Fin 300)) = Ok (ss, L')
        /\ map r2w (dropna amount_repaid (loc2 out 1 1)) = ss.
Proof.
  assert (Hnd : NoDup (map modate (loc2 (init scenario_split) 1 1)))
    by (simpl; repeat constructor; simpl; intuition discriminate).
  eexists. split; [exact Hnd |]. split; [vm_compute; reflexivity |].
  split; [reflexivity |].
  apply (r2w_is_share_of_repayment scenario_split _ 1 1 _ Hnd);
    [vm_compute |]; reflexivity.
Defined.

(** ** A run on covered waves completes (lines 73-110) *)








Lemma repaid_nonneg (df : DataFrame) (i w : Z) :
  Forall (fun r => arrear_ok (amount_repaid r)) (loc2 df i w) ->
  Forall (fun R => exists q, R = Fin q /\ (0 <= q)%Q) (repaid df i w).
Proof.
  intros Hall. rewrite Forall_forall in Hall.
  unfold repaid, dropna. apply Forall_forall. intros R HIn.
  apply in_map_iff in HIn as (r & <- & Hr).
  apply filter_In in Hr as [Hr Hnan]. specialize (Hall r Hr).
  destruct (amount_repaid r) as [| | | q]; simpl in *;
    try discriminate; try contradiction. eauto.
Qed.







(** ** The shares of a wave in units of the supposed wage
       (lines 56-58, 94-119) *)

Lemma Qsum_map_later_step (g : row -> Q) (l : DataFrame) (d : Z) (r : row) :
  NoDup (map modate l) -> In r l -> modate r = d + 1 ->
  (Qsum (map g (filter (fun x => d <? modate x) l))
   == g r + Qsum (map g (filter (fun x => d + 1 <? modate x) l)))%Q.
Proof.
  induction l as [| a l IH]; intros Hnd HIn Hd; [contradiction |].
  simpl in Hnd. inversion Hnd as [| ? ? Hnot Hnd']; subst.
  destruct HIn as [-> | HIn].
  - assert (Hrest : filter (fun x => d <? modate x) l
                    = filter (fun x => d + 1 <? modate x) l).
    { apply filter_ext_in. intros x Hx.
      assert (modate x <> d + 1).
      { intros E. apply Hnot. rewrite Hd, <- E. apply in_map. exact Hx. }
      destruct (d <? modate x) eqn:E1, (d + 1 <? modate x) eqn:E2;
        try reflexivity; rewrite ?Z.ltb_lt, ?Z.ltb_ge in E1, E2; lia. }
    simpl. rewrite Hd, Hrest.
    replace (d <? d + 1) with true by (symmetry; apply Z.ltb_lt; lia).
    replace (d + 1 <? d + 1) with false by (symmetry; apply Z.ltb_ge; lia).
    simpl. lra.
  - assert (modate a <> d + 1).
    { intros E. apply Hnot. rewrite E, <- Hd. apply in_map. exact HIn. }
    specialize (IH Hnd' HIn Hd). simpl.
    destruct (d <? modate a) eqn:E1, (d + 1 <? modate a) eqn:E2;
      rewrite ?Z.ltb_lt, ?Z.ltb_ge in E1, E2; try lia; simpl; lra.
Qed.

Lemma Qsum_map_skip_before (g : row -> Q) (l : DataFrame) (d : Z) :
  (forall x, In x l -> modate x <> d) ->
  (forall x, In x l -> modate x < d -> (g x == 0)%Q) ->
  (Qsum (map g l) == Qsum (map g (filter (fun x => d <? modate x) l)))%Q.
Proof.
  induction l as [| b l IH]; intros Hne Hbefore; simpl; [lra |].
  assert (Hl : (Qsum (map g l)
                == Qsum (map g (filter (fun x => d <? modate x) l)))%Q).
  { apply IH; intros x Hx; [apply Hne | apply Hbefore]; right; exact Hx. }
  assert (Hb : modate b <> d) by (apply Hne; left; reflexivity).
  destruct (d <? modate b) eqn:E; simpl; [lra |].
  apply Z.ltb_ge in E.
  assert (Hz : (g b == 0)%Q) by (apply Hbefore; [left; reflexivity | lia]).
  lra.
Qed.

Lemma Qsum_map_first (g : row -> Q) (l : DataFrame) (d : Z) (r : row) :
  NoDup (map modate l) -> In r l -> modate r = d ->
  (forall x, In x l -> modate x < d -> (g x == 0)%Q) ->
  (Qsum (map g l)
   == g r + Qsum (map g (filter (fun x => d <? modate x) l)))%Q.
Proof.
  induction l as [| a l IH]; intros Hnd HIn Hd Hbefore; [contradiction |].
  simpl in Hnd. inversion Hnd as [| ? ? Hnot Hnd']; subst.
  assert (Hrec : forall x, In x l -> modate x < modate r -> (g x == 0)%Q)
    by (intros x Hx; apply Hbefore; right; exact Hx).
  destruct HIn as [-> | HIn].
  - simpl. replace (modate r <? modate r) with false
      by (symmetry; apply Z.ltb_ge; lia).
    rewrite <- Qsum_map_skip_before; [lra | | exact Hrec].
    intros x Hx E. apply Hnot. rewrite <- E. apply in_map. exact Hx.
  - assert (modate a <> modate r).
    { intros E. apply Hnot. rewrite E. apply in_map. exact HIn. }
    specialize (IH Hnd' HIn eq_refl Hrec). simpl.
    destruct (modate r <? modate a) eqn:E; simpl; [lra |].
    apply Z.ltb_ge in E.
    assert (Hz : (g a == 0)%Q) by (apply Hbefore; [left; reflexivity | lia]).
    lra.
Qed.

Section Ratio.

Variables (df : DataFrame) (i w : Z).
Hypothesis Hok : wave_ok df i w.
Hypothesis Hw : wages_ok df i w.

Lemma ratio_inv_eq (L : ledger) (s s' : Q) :
  (s == s')%Q -> ratio_inv df i w L s -> ratio_inv df i w L s'.
Proof.
  intros Hs [H | (f & v & Hf & Hv & Hpos & Heq)]; [left; exact H | right].
  exists f, v. repeat (split; [assumption |]).
  set (t := (f / v)%Q) in *. lra.
Qed.

Lemma row_wage (r : row) :
  In r (loc2 df i w) -> exists v, supp_wage r = Fin v /\ (0 < v)%Q.
Proof.
  intros HIn. unfold wages_ok in Hw. rewrite Forall_forall in Hw.
  apply Hw. exact HIn.
Qed.

Lemma laterR_step (d : Z) (r : row) :
  loc3 df i w (d + 1) = Ok r ->
  (laterR df i w d == ratioQ r + laterR df i w (d + 1))%Q.
Proof.
  intros H. apply loc3_in_wave in H as [HIn Hd].
  unfold laterR. apply Qsum_map_later_step;
    [apply Hok | exact HIn | exact Hd].
Qed.

Lemma first_arrear_ratio_inv (L0 : ledger) :
  first_arrear df i w = Ok (Some L0) ->
  ratio_inv df i w L0 0 /\ ledger_ok L0.
Proof.
  unfold first_arrear.
  destruct (index_min (map modate (dropna amount_owed (loc2 df i w))))
    as [d0 |] eqn:Emin; [| discriminate].
  intros H. inv_bind H. injection H as <-. rename a into r.
  apply index_min_spec in Emin as [HIn Hmin].
  apply in_map_iff in HIn as (r1 & Hd1 & Hr1).
  unfold dropna in Hr1. apply filter_In in Hr1 as [Hr1 Hnan1].
  pose proof (loc3_unique df i w r1 (proj1 Hok) Hr1) as Hloc.
  rewrite Hd1 in Hloc. rewrite Hloc in E. injection E as <-.
  destruct (row_wage r1 Hr1) as (v & Hv & Hvpos).
  destruct Hok as [Hnd Hall]. rewrite Forall_forall in Hall.
  destruct (Hall r1 Hr1) as [Ho _].
  destruct (amount_owed r1) as [| | | a] eqn:Ea; simpl in *;
    try discriminate; try contradiction.
  split.
  - right. simpl. exists a, v. split; [reflexivity |].
    split; [exact Hv |]. split; [exact Hvpos |].
    unfold laterR.
    rewrite (Qsum_map_first ratioQ (loc2 df i w) d0 r1 Hnd Hr1 Hd1).
    + unfold ratioQ at 2. unfold owedQ. rewrite Ea, Hv. simpl Qof.
      set (t := (a / v)%Q). lra.
    + intros x Hx Hlt. unfold ratioQ, owedQ.
      destruct (amount_owed x) as [| | | b] eqn:Eb;
        try (simpl; unfold Qdiv; ring).
      exfalso.
      assert (HIn : In (modate x)
                       (map modate (dropna amount_owed (loc2 df i w)))).
      { apply in_map. unfold dropna. apply filter_In.
        split; [exact Hx |]. rewrite Eb. reflexivity. }
      apply Hmin in HIn. lia.
  - split; [right; exists a; auto | exists v; auto].
Qed.

Lemma advance_ratio (L : ledger) (y f v : Q) (r : row) :
  fa L = Fin f -> fa_wage L = Fin v ->
  ratio_inv df i w L y ->
  loc3 df i w (fa_date L + 1) = Ok r ->
  ratio_inv df i w (advance L r) (y + f / v).
Proof.
  intros Hf Hv [Hnan | (f' & v' & Hf' & Hv' & Hpos & Heq)] Eloc;
    [congruence |].
  rewrite Hf in Hf'. injection Hf' as <-.
  rewrite Hv in Hv'. injection Hv' as <-.
  destruct (loc3_in_wave df i w _ _ Eloc) as [HrW _].
  pose proof (laterR_step _ _ Eloc) as Hstep.
  destruct (row_wage r HrW) as (vr & Hvr & Hvrpos).
  destruct Hok as [_ Hall]. rewrite Forall_forall in Hall.
  destruct (Hall r HrW) as [Ho _].
  unfold ratioQ, owedQ in Hstep. unfold advance, ratio_inv.
  destruct (amount_owed r) as [| | | a] eqn:Ea; simpl in Ho;
    try contradiction; [left; reflexivity | right].
  exists a, vr. simpl fa. simpl fa_wage. simpl fa_date.
  split; [reflexivity |]. split; [exact Hvr |]. split; [exact Hvrpos |].
  rewrite Hvr in Hstep. simpl Qof in Hstep.
  set (t := (f / v)%Q) in *. set (u := (a / vr)%Q) in *. lra.
Qed.

Lemma while_loop_ratio (n : nat) :
  forall (L : ledger) (q a y : Q) (L1 : ledger) (q1 a1 : Q),
    ledger_ok L -> ratio_inv df i w L y ->
    while_loop n df i w L (Fin q) (Fin a) = Ok (L1, Fin q1, Fin a1) ->
    ratio_inv df i w L1 (y + (a1 - a)).
Proof.
  induction n as [| n IH]; intros L q a y L1 q1 a1 HL Hinv H;
    apply while_loop_Ok_inv in H
      as [[G E] | (G & r & n' & Hn & Eloc & H)].
  1, 3: injection E as <- <- <-; apply (ratio_inv_eq _ y); [lra | exact Hinv].
  - discriminate Hn.
  - injection Hn as <-.
    destruct (turn_ledger L q HL G) as (f & v & Hf & Hv & _ & Hvpos & _).
    destruct (turn_values L q a f v Hf Hv Hvpos) as [E1 E2].
    rewrite E1, E2 in H.
    pose proof (advance_ratio L y f v r Hf Hv Hinv Eloc) as Hinv1.
    pose proof (IH _ _ _ _ _ _ _ (advance_ok df i w Hok Hw L r Eloc)
                   Hinv1 H) as Hinv2.
    apply (ratio_inv_eq L1 (y + f / v + (a1 - (a + f / v)))%Q);
      [| exact Hinv2].
    set (t := (f / v)%Q). lra.
Qed.

Lemma repay_ratio (L : ledger) (q y : Q) (L' : ledger) (s : float) :
  ledger_ok L -> ratio_inv df i w L y ->
  repay df i w L (Fin q) = Ok (L', s) ->
  exists x, s = Fin x /\ ratio_inv df i w L' (y + x) /\ ledger_ok L'.
Proof.
  intros HL Hinv H. rewrite repay_unfold in H.
  destruct (while_loop (fuel_of df L) df i w L (Fin q) (Fin 0))
    as [[[L1 r1f] a1f] | e] eqn:E; [| discriminate H].
  assert (H' : settle L1 r1f a1f = (L', s)) by congruence. clear H.
  destruct (while_loop_numbers df i w Hok Hw _ _ _ _ _ HL E)
    as (L1' & q1 & a1 & E' & HL1 & G1 & _).
  injection E' as <- -> ->.
  pose proof (while_loop_ratio _ _ _ _ _ _ _ _ HL Hinv E) as Hinv1.
  assert (HL' : L' = fst (settle L1 (Fin q1) (Fin a1)))
    by (rewrite H'; reflexivity).
  assert (Hs : s = snd (settle L1 (Fin q1) (Fin a1)))
    by (rewrite H'; reflexivity).
  exists (a1 + q1 / wageQ L1)%Q.
  split; [rewrite Hs; apply settle_share; exact HL1 |].
  split; [| rewrite HL'; apply settle_ok; assumption].
  rewrite HL'.
  destruct Hinv1 as [Hnan | (f & v & Hf & Hv & Hvpos & Heq)].
  - left. simpl. rewrite Hnan. reflexivity.
  - right. simpl. rewrite Hf. simpl. exists (f + - q1)%Q, v.
    split; [reflexivity |]. split; [exact Hv |]. split; [exact Hvpos |].
    unfold wageQ. rewrite Hv. simpl Qof.
    assert (Hd : ((f + - q1) / v == f / v - q1 / v)%Q)
      by (apply Qdiv_sub; lra).
    rewrite Hd.
    set (t := (f / v)%Q) in *. set (u := (q1 / v)%Q) in *. lra.
Qed.

Lemma repay_all_ratio (Rs : list float) :
  forall (L : ledger) (y : Q) (ss : list float) (L' : ledger),
    Forall (fun R => exists q, R = Fin q) Rs ->
    ledger_ok L -> ratio_inv df i w L y ->
    repay_all df i w Rs L = Ok (ss, L') ->
    exists xs,
      ss = map Fin xs /\ ratio_inv df i w L' (y + Qsum xs) /\ ledger_ok L'.
Proof.
  induction Rs as [| R Rs IH]; intros L y ss L' Hnum HL Hinv H; simpl in H.
  - injection H as <- <-. exists []. split; [reflexivity |].
    split; [| exact HL].
    apply (ratio_inv_eq L y); [simpl; lra | exact Hinv].
  - inversion Hnum as [| ? ? [q ->] Hnum']; subst.
    inv_bind H. destruct a as [L1 s]. simpl in H. inv_bind H.
    destruct a as [ss1 L2]. simpl in H. injection H as <- <-.
    destruct (repay_ratio _ _ _ _ _ HL Hinv E) as (x & -> & Hinv1 & HL1).
    destruct (IH _ _ _ _ Hnum' HL1 Hinv1 E0) as (xs & -> & Hinv2 & HL2).
    exists (x :: xs). split; [reflexivity |]. split; [| exact HL2].
    apply (ratio_inv_eq L2 (y + x + Qsum xs)%Q); [simpl; lra | exact Hinv2].
Qed.

End Ratio.

(** ** The last cell of [cumsum_shares] of a wave (lines 112-119) *)

Lemma wave_ok_ext (i w : Z) (df df' : DataFrame) :
  Forall2 same_inputs df df' -> wave_ok df i w -> wave_ok df' i w.
Proof.
  intros H [Hnd Hall]. pose proof (same_inputs_loc2 i w _ _ H) as Hloc.
  split.
  - rewrite (Forall2_map_eq same_inputs modate _ _
               (fun x y (Hxy : same_inputs x y) =>
                  proj1 (proj2 (proj2 Hxy))) Hloc).
    exact Hnd.
  - rewrite Forall_forall in Hall. apply Forall_forall. intros r' Hr'.
    destruct (Forall2_In_r _ _ _ _ Hloc Hr') as (r & Hr & Hin).
    destruct Hin as (_ & _ & _ & _ & -> & -> & _). apply Hall. exact Hr.
Qed.

Lemma wages_ok_ext (i w : Z) (df df' : DataFrame) :
  Forall2 same_inputs df df' -> wages_ok df i w -> wages_ok df' i w.
Proof.
  intros H Hall. pose proof (same_inputs_loc2 i w _ _ H) as Hloc.
  unfold wages_ok in *.
  rewrite Forall_forall in Hall. apply Forall_forall. intros r' Hr'.
  destruct (Forall2_In_r _ _ _ _ Hloc Hr') as (r & Hr & Hin).
  destruct Hin as (_ & _ & _ & _ & _ & _ & _ & _ & ->). apply Hall. exact Hr.
Qed.

(** Lines 56-58 as they reach the output. *)
Lemma shares_df_a2w (input : list record) (out : DataFrame) :
  shares_df input = Ok out ->
  forall r, In r out -> a2w r = fdiv (amount_owed r) (supp_wage r).
Proof.
  intros H r' Hr'. apply shares_df_same_inputs in H.
  destruct (Forall2_In_r _ _ _ _ H Hr') as (r & Hr & Hin).
  destruct Hin as (_ & _ & _ & _ & -> & _ & -> & _ & ->).
  unfold init in Hr. apply in_map_iff in Hr as (x & <- & _). reflexivity.
Qed.

Lemma a2w_number (r : row) :
  a2w r = fdiv (amount_owed r) (supp_wage r) ->
  arrear_ok (amount_owed r) ->
  (exists v, supp_wage r = Fin v /\ (0 < v)%Q) ->
  fillna0 (a2w r) = Fin (Qof (a2w r)) /\ (Qof (a2w r) == ratioQ r)%Q.
Proof.
  intros -> Ho (v & Hv & Hvpos). unfold ratioQ, owedQ. rewrite Hv.
  destruct (amount_owed r) as [| | | a]; simpl in Ho; try contradiction.
  - simpl. split; [reflexivity |]. unfold Qdiv. ring.
  - rewrite fdiv_Fin_pos by exact Hvpos. simpl. split; reflexivity.
Qed.

Lemma last_cons_head {A : Type} (l : list A) :
  forall x d, last (x :: l) d = last l x.
Proof.
  induction l as [| y l IH]; intros x d; [reflexivity |].
  change (last (x :: y :: l) d) with (last (y :: l) d).
  rewrite !IH. reflexivity.
Qed.

(** The last cell of a running sum of numbers is their sum. *)
Lemma cumsum_from_numbers (zs : list Q) :
  forall acc, exists t,
    last (cumsum_from (Fin acc) (map Fin zs)) (Fin acc) = Fin t
    /\ (t == acc + Qsum zs)%Q.
Proof.
  induction zs as [| z zs IH]; intros acc.
  - exists acc. simpl. split; [reflexivity | lra].
  - destruct (IH (acc + z)%Q) as (t & Ht & Hq).
    exists t. split; [| simpl; lra].
    cbn [map cumsum_from isnan fadd]. rewrite last_cons_head. exact Ht.
Qed.

Lemma Qsum_map_eq (g g' : row -> Q) (l : DataFrame) :
  (forall x, In x l -> (g x == g' x)%Q) ->
  (Qsum (map g l) == Qsum (map g' l))%Q.
Proof.
  induction l as [| a l IH]; intros H; simpl; [lra |].
  assert (Ha : (g a == g' a)%Q) by (apply H; left; reflexivity).
  assert (Hl : (Qsum (map g l) == Qsum (map g' l))%Q)
    by (apply IH; intros x Hx; apply H; right; exact Hx).
  lra.
Qed.

Lemma Qsum_map_sub (g h : row -> Q) (l : DataFrame) :
  (Qsum (map (fun r => g r + - h r) l)
   == Qsum (map g l) - Qsum (map h l))%Q.
Proof.
  induction l as [| a l IH]; simpl; lra.
Qed.

Lemma Qsum_filter_zero (g : row -> Q) (p : row -> bool) (l : DataFrame) :
  (forall x, In x l -> p x = false -> (g x == 0)%Q) ->
  (Qsum (map g l) == Qsum (map g (filter p l)))%Q.
Proof.
  induction l as [| a l IH]; intros H; simpl; [lra |].
  assert (Hl : (Qsum (map g l) == Qsum (map g (filter p l)))%Q)
    by (apply IH; intros x Hx; apply H; right; exact Hx).
  destruct (p a) eqn:E; simpl; [lra |].
  assert (Ha : (g a == 0)%Q) by (apply H; [left; reflexivity | exact E]).
  lra.
Qed.

Lemma map_Qof_Fin (xs : list Q) : map Qof (map Fin xs) = xs.
Proof.
  induction xs as [| x xs IH]; simpl; [reflexivity |].
  rewrite IH. reflexivity.
Qed.

(** When nothing is left of the arrears after month [d], nothing is left
    of their ratios either. *)
Lemma later_zero (df : DataFrame) (i w d : Z) :
  wave_ok df i w ->
  (laterQ df i w d == 0)%Q -> (laterR df i w d == 0)%Q.
Proof.
  intros Hok. unfold laterQ, laterR.
  assert (Hsub : forall r,
             In r (filter (fun r => d <? modate r) (loc2 df i w)) ->
             (0 <= owedQ r)%Q).
  { intros r Hr. apply filter_In in Hr as [Hr _].
    apply (wave_owed df i w Hok r Hr). }
  induction (filter (fun r => d <? modate r) (loc2 df i w)) as [| a l IH];
    simpl; intros H; [lra |].
  assert (Ha : (0 <= owedQ a)%Q) by (apply Hsub; left; reflexivity).
  assert (Hl : (0 <= Qsum (map owedQ l))%Q).
  { apply Qsum_nonneg. apply Forall_forall. intros x Hx.
    apply in_map_iff in Hx as (r & <- & Hr). apply Hsub. right. exact Hr. }
  assert (Ha0 : (owedQ a == 0)%Q) by lra.
  assert (Hr0 : (ratioQ a == 0)%Q)
    by (unfold ratioQ; apply Qdiv_zero; exact Ha0).
  assert (Hrest : (Qsum (map ratioQ l) == 0)%Q).
  { apply IH; [intros r Hr; apply Hsub; right; exact Hr | lra]. }
  lra.
Qed.

(** The last cell of [cumsum_shares] of a wave against the ledger the
    loop over the repayments leaves. *)
Lemma closing_share (input : list record) (out : DataFrame) (i w : Z)
      (L0 L : ledger) (ss : list float) :
  wave_ok (init input) i w -> wages_ok (init input) i w ->
  shares_df input = Ok out ->
  first_arrear (init input) i w = Ok (Some L0) ->
  repay_all (init input) i w (repaid (init input) i w) L0 = Ok (ss, L) ->
  isnan (fa L) = false ->
  exists z f v,
    last (map cumsum_shares (loc2 out i w)) (Fin 0) = Fin z
    /\ fa L = Fin f /\ fa_wage L = Fin v /\ (0 < v)%Q
    /\ (z == f / v + laterR out i w (fa_date L))%Q.
Proof.
  intros Hok Hw H HL0 Hrun Hnan.
  pose proof (shares_df_same_inputs _ _ H) as Hrel.
  pose proof (wave_ok_ext i w _ _ Hrel Hok) as Hok'.
  pose proof (wages_ok_ext i w _ _ Hrel Hw) as Hw'.
  assert (HL0' : first_arrear out i w = Ok (Some L0))
    by (rewrite (first_arrear_ext i w _ _ Hrel); exact HL0).
  assert (Hrun' : repay_all out i w (repaid out i w) L0 = Ok (ss, L))
    by (rewrite (repay_all_ext i w _ _ _ Hrel), (repaid_ext i w _ _ Hrel);
        exact Hrun).
  destruct (first_arrear_ratio_inv out i w Hok' Hw' L0 HL0')
    as [Hinv0 HLok0].
  destruct (repay_all_ratio out i w Hok' Hw' _ _ _ _ _
              (repaid_numbers out i w Hok') HLok0 Hinv0 Hrun')
    as (xs & Hss & Hinv & HLok).
  destruct Hinv as [E | (f & v & Hf & Hv & Hvpos & Heq)];
    [rewrite E in Hnan; discriminate Hnan |].
  destruct (shares_df_r2w_column input out i w (proj1 Hok) H)
    as [Habs Hrep].
  destruct (Hrep L0 HL0) as (ss' & L'' & Hrun2 & Hmap).
  rewrite Hrun in Hrun2. injection Hrun2 as <- <-.
  destruct (shares_df_wave_columns input out i w H)
    as (_ & _ & Hsh & Hcs).
  assert (Hrow : forall r, In r (loc2 out i w) ->
             net_share r = Fin (Qof (a2w r) + - Qof (r2w r))
             /\ (Qof (a2w r) == ratioQ r)%Q).
  { intros r Hr.
    assert (Hout : In r out) by (unfold loc2 in Hr; apply filter_In in Hr;
                                 tauto).
    destruct Hok' as [_ Hall]. rewrite Forall_forall in Hall.
    destruct (Hall r Hr) as [Ho _].
    destruct (a2w_number r (shares_df_a2w _ _ H r Hout) Ho
                (row_wage out i w Hw' r Hr)) as [Ha Hq].
    split; [| exact Hq]. unfold net_share. rewrite Ha.
    destruct (isnan (amount_repaid r)) eqn:En.
    - rewrite (Habs r Hr); [reflexivity |].
      destruct (amount_repaid r); try discriminate En. reflexivity.
    - assert (HIn : In (r2w r)
                       (map r2w (dropna amount_repaid (loc2 out i w)))).
      { apply in_map. unfold dropna. apply filter_In.
        split; [exact Hr |]. rewrite En. reflexivity. }
      rewrite Hmap, Hss in HIn. apply in_map_iff in HIn as (x & <- & _).
      reflexivity. }
  set (zs := map (fun r => (Qof (a2w r) + - Qof (r2w r))%Q) (loc2 out i w)).
  assert (Hnet : map shares_col (loc2 out i w) = map Fin zs).
  { rewrite Hsh. unfold zs. rewrite map_map. apply map_ext_in.
    intros r Hr. apply (Hrow r Hr). }
  destruct (cumsum_from_numbers zs 0%Q) as (t & Ht & Hq).
  exists t, f, v.
  split; [rewrite Hcs, Hnet; exact Ht |].
  split; [exact Hf |]. split; [exact Hv |]. split; [exact Hvpos |].
  assert (H1 : (Qsum zs
                == Qsum (map (fun r => Qof (a2w r)) (loc2 out i w))
                   - Qsum (map (fun r => Qof (r2w r)) (loc2 out i w)))%Q)
    by (unfold zs; apply Qsum_map_sub).
  assert (H2 : (Qsum (map (fun r => Qof (a2w r)) (loc2 out i w))
                == Qsum (map ratioQ (loc2 out i w)))%Q)
    by (apply Qsum_map_eq; intros r Hr; apply (Hrow r Hr)).
  assert (H3 : (Qsum (map (fun r => Qof (r2w r)) (loc2 out i w))
                == Qsum xs)%Q).
  { rewrite (Qsum_filter_zero _ (fun r => negb (isnan (amount_repaid r)))).
    - fold (dropna amount_repaid (loc2 out i w)).
      rewrite <- (map_map r2w Qof), Hmap, Hss, map_Qof_Fin. reflexivity.
    - intros r Hr En. rewrite (Habs r Hr); [reflexivity |].
      destruct (amount_repaid r); try discriminate En. reflexivity. }
  set (u := (f / v)%Q) in *. lra.
Qed.

Lemma out_a2w_ratio (input : list record) (out : DataFrame) (i w : Z) :
  wave_ok (init input) i w -> wages_ok (init input) i w ->
  shares_df input = Ok out ->
  forall r, In r (loc2 out i w) -> (Qof (a2w r) == ratioQ r)%Q.
Proof.
  intros Hok Hw H r Hr.
  pose proof (shares_df_same_inputs _ _ H) as Hrel.
  pose proof (wave_ok_ext i w _ _ Hrel Hok) as [_ Hall].
  pose proof (wages_ok_ext i w _ _ Hrel Hw) as Hw'.
  rewrite Forall_forall in Hall. destruct (Hall r Hr) as [Ho _].
  assert (Hout : In r out)
    by (unfold loc2 in Hr; apply filter_In in Hr; tauto).
  apply (a2w_number r (shares_df_a2w _ _ H r Hout) Ho
           (row_wage out i w Hw' r Hr)).
Qed.

(** X7.  Take a wave in contract (distinct months, arrears absent or
    non-negative, repayments absent or numbers) with positive supposed
    wages, that has an arrear, and whose loop over the repayments ends with
    a defined amount in the ledger.  In the output of the run the last cell
    of [cumsum_shares] of the wave is a number: what is still owed for the
    month of the cursor over the supposed wage of that month, plus the
    cells of [a2w] of the later months of the wave.  The shares written
    into [r2w] have cancelled the [a2w] of every month the repayments
    cleared. *)
Theorem cumsum_shares_is_unresolved_ratio
        (input : list record) (out : DataFrame) (i w : Z)
        (L0 L : ledger) (ss : list float) :
  wave_ok (init input) i w -> wages_ok (init input) i w ->
  shares_df input = Ok out ->
  first_arrear (init input) i w = Ok (Some L0) ->
  repay_all (init input) i w (repaid (init input) i w) L0 = Ok (ss, L) ->
  isnan (fa L) = false ->
  exists z,
    last (map cumsum_shares (loc2 out i w)) (Fin 0) = Fin z
    /\ (z == Qof (fa L) / Qof (fa_wage L)
             + later_a2w out i w (fa_date L))%Q.
Proof.
  intros Hok Hw H HL0 Hrun Hnan.
  destruct (closing_share input out i w L0 L ss Hok Hw H HL0 Hrun Hnan)
    as (z & f & v & Hlast & Hf & Hv & Hvpos & Hz).
  exists z. split; [exact Hlast |].
  rewrite Hf, Hv. simpl Qof.
  assert (Hlater : (later_a2w out i w (fa_date L)
                    == laterR out i w (fa_date L))%Q).
  { unfold later_a2w, laterR. apply Qsum_map_eq. intros r Hr.
    apply filter_In in Hr as [Hr _].
    apply (out_a2w_ratio input out i w Hok Hw H r Hr). }
  set (u := (f / v)%Q) in *. lra.
Qed.

Lemma cumsum_shares_is_unresolved_ratio_witness :
  exists out L ss,
    wave_ok (init scenario1) 1 1 /\ wages_ok (init scenario1) 1 1
    /\ shares_df scenario1 = Ok out
    /\ first_arrear (init scenario1) 1 1
       = Ok (Some (mkLedger 1 (Fin 100) (Fin 300)))
    /\ repay_all (init scenario1) 1 1 (repaid (init scenario1) 1 1)
                 (mkLedger 1 (Fin 100) (Fin 300)) = Ok (ss, L)
    /\ isnan (fa L) = false
    /\ exists z,
        last (map cumsum_shares (loc2 out 1 1)) (Fin 0) = Fin z
        /\ (z == Qof (fa L) / Qof (fa_wage L)
                 + later_a2w out 1 1 (fa_date L))%Q.
Proof.
  assert (Hok : wave_ok (init scenario1) 1 1).
  { split.
    - simpl. repeat constructor; simpl; intuition discriminate.
    - simpl. repeat constructor; simpl; unfold Qle; simpl; lia. }
  assert (Hw : wages_ok (init scenario1) 1 1).
  { unfold wages_ok. simpl. repeat constructor; eexists;
      (split; [reflexivity | reflexivity]). }
  do 3 eexists. split; [exact Hok |]. split; [exact Hw |].
  split; [vm_compute; reflexivity |]. split; [reflexivity |].
  split; [vm_compute; reflexivity |]. split; [reflexivity |].
  eapply (cumsum_shares_is_unresolved_ratio
            scenario1 _ 1 1 (mkLedger 1 (Fin 100) (Fin 300)) _ _ Hok Hw);
    [vm_compute | | vm_compute |]; reflexivity.
Defined.

(** X8.  Take a wave in contract (distinct months, arrears absent or
    non-negative, repayments absent or numbers) with positive supposed
    wages, that has an arrear, whose loop over the repayments ends with a
    defined amount in the ledger, and whose repayments add up to its
    arrears.  In the output of the run the last cell of [cumsum_shares] of
    the wave is zero: over the wave the shares written into [r2w] add up
    to the cells of [a2w]. *)
Theorem repaid_wave_closes_at_zero
        (input : list record) (out : DataFrame) (i w : Z)
        (L0 L : ledger) (ss : list float) :
  wave_ok (init input) i w -> wages_ok (init input) i w ->
  shares_df input = Ok out ->
  first_arrear (init input) i w = Ok (Some L0) ->
  repay_all (init input) i w (repaid (init input) i w) L0 = Ok (ss, L) ->
  isnan (fa L) = false ->
  (Qsum (map Qof (repaid (init input) i w))
   == Qsum (map owedQ (loc2 (init input) i w)))%Q ->
  feq (last (map cumsum_shares (loc2 out i w)) (Fin 0)) (Fin 0).
Proof.
  intros Hok Hw H HL0 Hrun Hnan Hall.
  destruct (closing_share input out i w L0 L ss Hok Hw H HL0 Hrun Hnan)
    as (z & f & v & -> & Hf & Hv & Hvpos & Hz).
  pose proof (shares_df_same_inputs _ _ H) as Hrel.
  pose proof (wave_ok_ext i w _ _ Hrel Hok) as Hok'.
  assert (HL0' : first_arrear out i w = Ok (Some L0))
    by (rewrite (first_arrear_ext i w _ _ Hrel); exact HL0).
  assert (Hrun' : repay_all out i w (repaid out i w) L0 = Ok (ss, L))
    by (rewrite (repay_all_ext i w _ _ _ Hrel), (repaid_ext i w _ _ Hrel);
        exact Hrun).
  destruct (first_arrear_inv out i w Hok' L0 HL0') as (a & _ & Hinv0).
  destruct (repay_all_inv out i w Hok' _ _ _ _ _ Hinv0
              (repaid_numbers out i w Hok') Hrun') as [Hinv _].
  destruct Hinv as [E | (f' & Hf' & Hpos & Heq)];
    [rewrite E in Hnan; discriminate Hnan |].
  rewrite Hf in Hf'. injection Hf' as <-.
  rewrite (repaid_ext i w _ _ Hrel) in Heq.
  assert (Howed : map owedQ (loc2 out i w)
                  = map owedQ (loc2 (init input) i w)).
  { apply (Forall2_map_eq same_inputs); [| apply same_inputs_loc2; exact Hrel].
    intros x y (_ & _ & _ & _ & Ho & _). unfold owedQ. rewrite Ho.
    reflexivity. }
  rewrite Howed in Heq.
  pose proof (laterQ_nonneg out i w Hok' (fa_date L)) as Hlater.
  assert (Hf0 : (f == 0)%Q) by lra.
  assert (Hl0 : (laterQ out i w (fa_date L) == 0)%Q) by lra.
  pose proof (later_zero out i w (fa_date L) Hok' Hl0) as HR0.
  pose proof (Qdiv_zero f v Hf0) as Hu.
  simpl. set (u := (f / v)%Q) in *. lra.
Qed.

Lemma repaid_wave_closes_at_zero_witness :
  exists out L ss,
    wave_ok (init scenario_repaid) 1 1
    /\ wages_ok (init scenario_repaid) 1 1
    /\ shares_df scenario_repaid = Ok out
    /\ first_arrear (init scenario_repaid) 1 1
       = Ok (Some (mkLedger 1 (Fin 100) (Fin 300)))
    /\ repay_all (init scenario_repaid) 1 1
                 (repaid (init scenario_repaid) 1 1)
                 (mkLedger 1 (Fin 100) (Fin 300)) = Ok (ss, L)
    /\ isnan (fa L) = false
    /\ (Qsum (map Qof (repaid (init scenario_repaid) 1 1))
        == Qsum (map owedQ (loc2 (init scenario_repaid) 1 1)))%Q
    /\ feq (last (map cumsum_shares (loc2 out 1 1)) (Fin 0)) (Fin 0).
Proof.
  assert (Hok : wave_ok (init scenario_repaid) 1 1).
  { split.
    - simpl. repeat constructor; simpl; intuition discriminate.
    - simpl. repeat constructor; simpl; unfold Qle; simpl; lia. }
  assert (Hw : wages_ok (init scenario_repaid) 1 1).
  { unfold wages_ok. simpl. repeat constructor; eexists;
      (split; [reflexivity | reflexivity]). }
  do 3 eexists. split; [exact Hok |]. split; [exact Hw |].
  split; [vm_compute; reflexivity |]. split; [reflexivity |].
  split; [vm_compute; reflexivity |]. split; [reflexivity |].
  split; [reflexivity |].
  eapply (repaid_wave_closes_at_zero
            scenario_repaid _ 1 1 (mkLedger 1 (Fin 100) (Fin 300)) _ _
            Hok Hw);
    [vm_compute | | vm_compute | |]; reflexivity.
Defined.

(** ** The shares are numbers (lines 94-108) *)

Section Shares.

Variables (df : DataFrame) (i w : Z).
Hypothesis Hok : wave_ok df i w.
Hypothesis Hw : wages_ok df i w.

Lemma Qdiv_nonneg (x v : Q) : (0 <= x)%Q -> (0 < v)%Q -> (0 <= x / v)%Q.
Proof.
  intros Hx Hv. apply Qle_shift_div_l; [exact Hv | lra].
Qed.

Lemma while_loop_nonneg (n : nat) :
  forall (L : ledger) (q a : Q) (L1 : ledger) (q1 a1 : Q),
    ledger_ok L -> (0 <= q)%Q -> (0 <= a)%Q ->
    while_loop n df i w L (Fin q) (Fin a) = Ok (L1, Fin q1, Fin a1) ->
    (0 <= q1)%Q /\ (0 <= a1)%Q.
Proof.
  induction n as [| n IH]; intros L q a L1 q1 a1 HL Hq Ha H;
    apply while_loop_Ok_inv in H
      as [[G E] | (G & r & n' & Hn & Eloc & H)].
  1, 3: injection E as <- <- <-; auto.
  - discriminate Hn.
  - injection Hn as <-.
    destruct (turn_ledger L q HL G) as (f & v & Hf & Hv & Hfpos & Hvpos & Hlt).
    destruct (turn_values L q a f v Hf Hv Hvpos) as [E1 E2].
    rewrite E1, E2 in H.
    pose proof (Qdiv_nonneg f v Hfpos Hvpos) as Hd.
    apply (IH _ _ _ _ _ _ (advance_ok df i w Hok Hw L r Eloc)) in H;
      [exact H | lra |].
    set (u := (f / v)%Q) in *. lra.
Qed.

Lemma repay_nonneg (L : ledger) (q : Q) (L' : ledger) (s : float) :
  ledger_ok L -> (0 <= q)%Q ->
  repay df i w L (Fin q) = Ok (L', s) ->
  (exists x, s = Fin x /\ (0 <= x)%Q) /\ ledger_ok L'.
Proof.
  intros HL Hq H. rewrite repay_unfold in H.
  destruct (while_loop (fuel_of df L) df i w L (Fin q) (Fin 0))
    as [[[L1 r1f] a1f] | e] eqn:E; [| discriminate H].
  assert (H' : settle L1 r1f a1f = (L', s)) by congruence. clear H.
  destruct (while_loop_numbers df i w Hok Hw _ _ _ _ _ HL E)
    as (L1' & q1 & a1 & E' & HL1 & G1 & _).
  injection E' as <- -> ->.
  destruct (while_loop_nonneg _ _ _ _ _ _ _ HL Hq (Qle_refl 0) E)
    as [Hq1 Ha1].
  assert (HL' : L' = fst (settle L1 (Fin q1) (Fin a1)))
    by (rewrite H'; reflexivity).
  assert (Hs : s = snd (settle L1 (Fin q1) (Fin a1)))
    by (rewrite H'; reflexivity).
  split; [| rewrite HL'; apply settle_ok; assumption].
  exists (a1 + q1 / wageQ L1)%Q.
  split; [rewrite Hs; apply settle_share; exact HL1 |].
  destruct HL1 as [_ (v & Hv & Hvpos)]. unfold wageQ. rewrite Hv.
  simpl Qof. pose proof (Qdiv_nonneg q1 v Hq1 Hvpos) as Hd.
  set (u := (q1 / v)%Q) in *. lra.
Qed.

Lemma repay_all_nonneg (Rs : list float) :
  forall (L : ledger) (ss : list float) (L' : ledger),
    Forall (fun R => exists q, R = Fin q /\ (0 <= q)%Q) Rs ->
    ledger_ok L ->
    repay_all df i w Rs L = Ok (ss, L') ->
    Forall (fun s => exists x, s = Fin x /\ (0 <= x)%Q) ss.
Proof.
  induction Rs as [| R Rs IH]; intros L ss L' Hnum HL H; simpl in H.
  - injection H as <- <-. constructor.
  - inversion Hnum as [| ? ? (q & -> & Hq) Hnum']; subst.
    inv_bind H. destruct a as [L1 s]. simpl in H. inv_bind H.
    destruct a as [ss1 L2]. simpl in H. injection H as <- <-.
    destruct (repay_nonneg _ _ _ _ HL Hq E) as [Hs HL1].
    constructor; [exact Hs |]. apply (IH _ _ _ Hnum' HL1 E0).
Qed.

End Shares.

(** X9.  Take a wave in contract with positive supposed wages, that has
    an arrear, and in which no repayment is negative.  In the output of
    the run the cell of [r2w] of every row of the wave with a repayment is
    a number, and it is not negative: it is never absent and never
    infinite. *)
Theorem r2w_is_nonnegative_number
        (input : list record) (out : DataFrame) (i w : Z) (L0 : ledger) :
  wave_ok (init input) i w -> wages_ok (init input) i w ->
  Forall (fun r => arrear_ok (amount_repaid r)) (loc2 (init input) i w) ->
  shares_df input = Ok out ->
  first_arrear (init input) i w = Ok (Some L0) ->
  forall r, In r (loc2 out i w) -> isnan (amount_repaid r) = false ->
            exists x, r2w r = Fin x /\ (0 <= x)%Q.
Proof.
  intros Hok Hw Hrep H HL0 r Hr Hnan.
  destruct (shares_df_r2w_column input out i w (proj1 Hok) H) as [_ Hcol].
  destruct (Hcol L0 HL0) as (ss & L' & Hrun & Hmap).
  destruct (first_arrear_ratio_inv (init input) i w Hok Hw L0 HL0)
    as [_ HLok0].
  pose proof (repay_all_nonneg (init input) i w Hok Hw _ _ _ _
                (repaid_nonneg (init input) i w Hrep) HLok0 Hrun) as Hss.
  rewrite Forall_forall in Hss. apply Hss. rewrite <- Hmap.
  apply in_map. unfold dropna. apply filter_In.
  split; [exact Hr |]. rewrite Hnan. reflexivity.
Qed.

Lemma r2w_is_nonnegative_number_witness :
  exists out,
    wave_ok (init scenario_split) 1 1 /\ wages_ok (init scenario_split) 1 1
    /\ Forall (fun r => arrear_ok (amount_repaid r))
              (loc2 (init scenario_split) 1 1)
    /\ shares_df scenario_split = Ok out
    /\ first_arrear (init scenario_split) 1 1
       = Ok (Some (mkLedger 1 (Fin 100) (Fin 300)))
    /\ forall r, In r (loc2 out 1 1) -> isnan (amount_repaid r) = false ->
                 exists x, r2w r = Fin x /\ (0 <= x)%Q.
Proof.
  assert (Hok : wave_ok (init scenario_split) 1 1).
  { split.
    - simpl. repeat constructor; simpl; intuition discriminate.
    - simpl. repeat constructor; simpl; unfold Qle; simpl; lia. }
  assert (Hw : wages_ok (init scenario_split) 1 1).
  { unfold wages_ok. simpl. repeat constructor; eexists;
      (split; [reflexivity | reflexivity]). }
  assert (Hrep : Forall (fun r => arrear_ok (amount_repaid r))
                        (loc2 (init scenario_split) 1 1)).
  { simpl. repeat constructor; simpl; unfold Qle; simpl; lia. }
  eexists. split; [exact Hok |]. split; [exact Hw |].
  split; [exact Hrep |]. split; [vm_compute; reflexivity |].
  split; [reflexivity |].
  apply (r2w_is_nonnegative_number
           scenario_split _ 1 1 (mkLedger 1 (Fin 100) (Fin 300)) Hok Hw Hrep);
    [vm_compute |]; reflexivity.
Defined.

(** ** The [while] loop ends (lines 95-106) *)




(** ** What is credited once the cursor stands on a month without arrear
       (lines 95-110) *)






Section Credit.

Variables (df : DataFrame) (i w : Z).
Hypothesis Hok : wave_ok df i w.
Hypothesis Hw : wages_ok df i w.







End Credit.

(** ** C3: repayments in excess of the arrears *)




(** ** A run on covered waves with positive supposed wages is written
       (lines 73-143) *)














(** The write step on an infinite ratio: in [scenario_zero_wage] the
    computation completes with [r2cw = +inf], the writer raises
    [ValueError], and [computed_shares.dta] is not written. *)
Example infinite_ratio_is_not_written :
  (exists df, shares_df scenario_zero_wage = Ok df
              /\ map r2cw df = [PInf])
  /\ shares (mkFiles scenario_zero_wage None)
     = (mkFiles scenario_zero_wage None, Some ValueError).
Proof.
  split; [eexists; split |]; vm_compute; reflexivity.
Qed.
